(** * Sequence generation of reconai (reconai/data/sequencer.py)

    A shallow embedding of [Sequencer.generate_sequences] and of the per-case
    worker [_generate_sequences] nested in it.

    - Python integers are [Z]; NumPy [int64] arithmetic wraps around and is
      written out where the source uses it ([np.power] on an integer array).
    - NumPy [float64] values are idealised as exact rationals ([Qc]) extended
      with [+inf] and [nan], the two non-finite values the source can produce
      ([1 / 0] and [inf * 0]).  Rounding of finite values is not modelled.
    - The random generator [r] is an explicit state threaded through every
      draw; its two operations are the fields of the class [RandomSource].
    - Exceptions are the [Raise] results of a small state-and-error monad;
      the two [while] loops take fuel, and running out of it is [OutOfFuel].
    - The thread pool is modelled by the order in which the futures
      complete, an explicit argument of [generate_sequences]. *)

From stdpp Require Import gmap strings list list_numbers.
From Stdlib Require Import ZArith QArith Qcanon Qround Lia.

Local Open Scope Z_scope.

(** ** float64, idealised *)

Module Float.

Inductive float : Type :=
  | Fin (x : Qc)
  | PInf
  | NaN.

Definition is_nan (a : float) : bool :=
  match a with NaN => true | _ => false end.

Definition is_finite (a : float) : bool :=
  match a with Fin _ => true | _ => false end.

(** [a + b]; no negative infinity is ever an operand here. *)
Definition fadd (a b : float) : float :=
  match a, b with
  | Fin x, Fin y => Fin (x + y)%Qc
  | NaN, _ | _, NaN => NaN
  | _, _ => PInf
  end.

(** [arr.sum()] *)
Fixpoint fsum (l : list float) : float :=
  match l with
  | [] => Fin 0%Qc
  | a :: l' => fadd a (fsum l')
  end.

(** [a * b] for a boolean [b], as in [m_p *= [...]]: [inf * 0.0] is [nan]. *)
Definition fmask (a : float) (b : bool) : float :=
  match a with
  | Fin x => Fin (if b then x else 0%Qc)
  | PInf => if b then PInf else NaN
  | NaN => NaN
  end.

(** [a < b]; every comparison with [nan] is false. *)
Definition flt (a b : float) : bool :=
  match a, b with
  | Fin x, Fin y => bool_decide (x < y)%Qc
  | Fin _, PInf => true
  | _, _ => false
  end.

Definition Qc_abs (x : Qc) : Qc := if bool_decide (x < 0)%Qc then (- x)%Qc else x.

(** [np.abs(t - c)] for a finite [t]: [t - inf] is [-inf], whose absolute
    value is [+inf]. *)
Definition fabs_sub (t : Qc) (c : float) : float :=
  match c with
  | Fin x => Fin (Qc_abs (t - x))
  | PInf => PInf
  | NaN => NaN
  end.

(** [np.clip(x, lo, hi)] is [minimum(maximum(x, lo), hi)]. *)
Definition Qc_clip (x lo hi : Qc) : Qc :=
  let y := if bool_decide (x < lo)%Qc then lo else x in
  if bool_decide (hi < y)%Qc then hi else y.

End Float.
Export Float.

(** ** Quality of a slice *)

Module Quality.

(** Two's complement wrap-around of [int64]. *)
Definition int64_wrap (z : Z) : Z := (z + 2 ^ 63) `mod` 2 ^ 64 - 2 ^ 63.

(** [np.power(2, e)] on an [int64] array element, [0 <= e]. *)
Definition np_power2 (e : Z) : Z := int64_wrap (2 ^ e).

(** [1 / d] for an [int64] array element [d]: true division in [float64];
    division by zero gives [inf] (with a warning, not an exception). *)
Definition np_true_divide1 (d : Z) : float :=
  if bool_decide (d = 0) then PInf else Fin (1 / Qc_of_Z d)%Qc.

(** One element of [1 / np.power(2, np.abs(slices[m] - 2))]. *)
Definition slice_quality (i : Z) : float :=
  np_true_divide1 (np_power2 (Z.abs (i - 2))).

(** [m_quality = 1 / np.power(2, np.abs(slices[m] - 2))] *)
Definition m_quality (slices_m : list Z) : list float :=
  slice_quality <$> slices_m.

(** The documented usefulness [1/2^x], [x] steps away from the center. *)
Definition ideal_quality (i : Z) : Qc := (1 / Qc_of_Z (2 ^ Z.abs (i - 2)))%Qc.

End Quality.
Export Quality.

(** ** Python containers *)

Module Py.

(** [c_sequence]: a [dict] from the id [f'{loop}_{m}'] to a list of slice
    indices.  The id is kept as the pair [(loop, m)] it is formatted from;
    the association list keeps Python's insertion order. *)
Definition key : Type := nat * nat.
Definition dict : Type := list (key * list Z).

(** [d.get(k, default)] *)
Fixpoint dict_get (d : dict) (k : key) (default : list Z) : list Z :=
  match d with
  | [] => default
  | (k', v) :: d' => if bool_decide (k' = k) then v else dict_get d' k default
  end.

(** [d[k] = v]: an existing key keeps its position. *)
Fixpoint dict_set (d : dict) (k : key) (v : list Z) : dict :=
  match d with
  | [] => [(k, v)]
  | (k', v') :: d' =>
      if bool_decide (k' = k) then (k, v) :: d' else (k', v') :: dict_set d' k v
  end.

(** [d.values()] *)
Definition dict_values (d : dict) : list (list Z) := d.*2.

(** [Sequencer._len_of_values]: [sum([len(x) for x in obj.values()])] *)
Definition _len_of_values (values : list (list Z)) : Z :=
  Z.of_nat (sum_list_with length values).

(** [l.remove(s)]: removes the first occurrence, [ValueError] ([None]) when
    there is none. *)
Fixpoint list_remove (s : Z) (l : list Z) : option (list Z) :=
  match l with
  | [] => None
  | x :: l' => if bool_decide (x = s) then Some l' else (x ::.) <$> list_remove s l'
  end.

(** [[l.remove(s) for s in selected]] *)
Fixpoint remove_each (selected : list Z) (l : list Z) : option (list Z) :=
  match selected with
  | [] => Some l
  | s :: rest => l' ← list_remove s l; remove_each rest l'
  end.

(** [arr[s]] for one integer [s] of an index array: negative indices count
    from the end, anything else out of range is an [IndexError] ([None]). *)
Definition np_index {A} (arr : list A) (s : Z) : option A :=
  let n := Z.of_nat (length arr) in
  if bool_decide (0 ≤ s < n) then arr !! Z.to_nat s
  else if bool_decide (- n ≤ s < 0) then arr !! Z.to_nat (s + n)
  else None.

(** [int(np.clip(z, lo, hi))] for an integral [z]:
    [minimum(maximum(z, lo), hi)], which is [hi] when [hi < lo]. *)
Definition np_clip (z lo hi : Z) : Z := Z.min (Z.max z lo) hi.

(** A stable sort by a [float64] key, as [list.sort(key=...)] is; only [<]
    on the keys is used.  [insert_by] puts [x] in front of the elements it
    does not exceed, so equal keys keep their order. *)
Fixpoint insert_by {A} (k : A → float) (x : A) (l : list A) : list A :=
  match l with
  | [] => [x]
  | y :: l' => if flt (k y) (k x) then y :: insert_by k x l' else x :: y :: l'
  end.

Definition sort_by {A} (k : A → float) (l : list A) : list A :=
  foldr (insert_by k) [] l.

End Py.
Export Py.

(** ** Results and the generator *)

Inductive exn : Type :=
  | KeyError | ValueError | IndexError | AssertionError | ZeroDivisionError
  | LookupFailure.

Inductive res (A : Type) : Type :=
  | Ok (a : A)
  | Raise (e : exn)
  | OutOfFuel.
Arguments Ok {A} a.
Arguments Raise {A} e.
Arguments OutOfFuel {A}.

(** [np.random.Generator], as far as the sequencer uses it.
    - [rng_normal loc g] is [np.round(r.normal(loc=loc))], an integral value;
    - [rng_choice p n g] is the choice of [n] positions ([0 < n]) out of
      [len(p)] without replacement under the probabilities [p], once the
      arguments passed NumPy's checks.
    The law is NumPy's contract for such a draw: [n] distinct positions, each
    of nonzero probability. *)
Class RandomSource : Type := {
  G : Type;
  default_rng : Z → G;
  rng_normal : Qc → G → Z * G;
  rng_choice : list Qc → nat → G → list nat * G;
  rng_choice_spec : ∀ (p : list Qc) (n : nat) (g : G),
    (0 < n ≤ length (filter (λ x, 0 < x)%Qc p))%nat →
    length (rng_choice p n g).1 = n ∧
    NoDup (rng_choice p n g).1 ∧
    ∀ i, i ∈ (rng_choice p n g).1 → ∃ x, p !! i = Some x ∧ (0 < x)%Qc
}.

Section Monad.
Context `{RS : RandomSource}.

(** Computations that draw from the generator and may raise. *)
Definition M (A : Type) : Type := G → res (A * G).

#[export] Instance M_ret : MRet M := λ A a g, Ok (a, g).
#[export] Instance M_bind : MBind M := λ A B f c g,
  match c g with
  | Ok (a, g') => f a g'
  | Raise e => Raise e
  | OutOfFuel => OutOfFuel
  end.

Definition raise {A} (e : exn) : M A := λ _, Raise e.
Definition out_of_fuel {A} : M A := λ _, OutOfFuel.

(** A partial operation that raises [e] where it is undefined. *)
Definition or_raise {A} (e : exn) (o : option A) : M A :=
  match o with Some a => mret a | None => raise e end.

(** [r.normal(loc=loc)], rounded *)
Definition normal (loc : Qc) : M Z := λ g, Ok (rng_normal loc g).

(** [m_p / m_p.sum()], and the checks [Generator.choice] makes on it: the
    probabilities contain no [nan] (a non-finite weight, or a zero sum,
    gives one), none is negative, and they sum to one.  [None] is the
    [ValueError] of a failed check. *)
Definition probabilities (m_p : list float) : option (list Qc) :=
  match fsum m_p with
  | Fin s =>
      if bool_decide (s = 0%Qc) then None
      else
        let p := (λ w, match w with Fin x => (x / s)%Qc | _ => 0%Qc end) <$> m_p in
        if bool_decide (Forall (λ x, 0 ≤ x)%Qc p) then Some p else None
  | _ => None
  end.

Definition count_nonzero (p : list Qc) : nat :=
  length (filter (λ x, 0 < x)%Qc p).

(** [r.choice(a, size=size, replace=False, p=m_p / m_p.sum())]: a negative
    size, or fewer nonzero probabilities than [size], is a [ValueError];
    a draw of size zero does not touch the generator. *)
Definition np_choice (a : list Z) (size : Z) (m_p : list float) : M (list Z) :=
  λ g,
    match probabilities m_p with
    | None => Raise ValueError
    | Some p =>
        if bool_decide (size < 0 ∨ Z.of_nat (count_nonzero p) < size)
        then Raise ValueError
        else if bool_decide (size = 0) then Ok ([], g)
        else
          let '(idx, g') := rng_choice p (Z.to_nat size) g in
          match mapM (λ i, a !! i) idx with
          | Some v => Ok (v, g')
          | None => Raise IndexError
          end
    end.
End Monad.

(** ** Sequences and candidates *)

(** [Sequence(case, c_sequence)] *)
Record Sequence : Type := mkSequence {
  seq_case : string;
  seq_slices : dict
}.

(** The running variables of the candidate loop (lines 58-63 of the source):
    [c_quality], [c_sequence], [c_available], [m] and [loop]. *)
Record cand_state : Type := mkCand {
  c_quality : float;
  c_sequence : dict;
  c_available : list (list Z);
  cur_m : nat;
  cur_loop : nat
}.

(** One element of [sequence_candidates]. *)
Definition candidate : Type := float * Sequence * list (list Z).

(** The [DataLoader] as the sequencer uses it: [keys()] and, for a case,
    [shapes(case)], of which only the leading dimension [shapes[m][0]] of
    every modality is read.  [None] is a call that raises. *)
Record DataLoader : Type := mkDataLoader {
  keys : list string;
  shapes : string → option (list Z)
}.

(** [SequenceCollection(sequence_collection)] *)
Abbreviation SequenceCollection := (gmap string (list Sequence)).

(** [{case: seed + s for s, case in enumerate(keys)}], from position [s] on:
    a later occurrence of a key overwrites an earlier one. *)
Fixpoint seeds_from (seed : Z) (s : nat) (ks : list string)
    (d : gmap string Z) : gmap string Z :=
  match ks with
  | [] => d
  | case :: rest => seeds_from seed (S s) rest (<[case := seed + Z.of_nat s]> d)
  end.

(** Lines 109-111: the futures are read in the order they complete; the
    first exception met is raised. *)
Fixpoint collect (futures : list (string * res (list Sequence))) (order : list nat)
    (sequence_collection : SequenceCollection) : res SequenceCollection :=
  match order with
  | [] => Ok sequence_collection
  | i :: rest =>
      match futures !! i with
      | Some (key, Ok sequences) =>
          collect futures rest (<[key := sequences]> sequence_collection)
      | Some (_, Raise e) => Raise e
      | Some (_, OutOfFuel) => OutOfFuel
      | None => collect futures rest sequence_collection
      end
  end.

Definition is_out_of_fuel {A} (r : res A) : bool :=
  match r with OutOfFuel => true | _ => false end.

(** Lines 68-69: [max_n_slices] and the clamped count [n_slices] for a
    rounded normal draw [z]. *)
Definition n_slices_of (seq_len max_slices_per_mha : Z) (z : Z) (avail_m : list Z)
    (c_sequence_len : Z) : Z :=
  let m_available_slices := Z.of_nat (length avail_m) in
  let max_n_slices :=
    Z.min (Z.min m_available_slices max_slices_per_mha) (seq_len - c_sequence_len) in
  np_clip z 0 max_n_slices.

(** Lines 72-79: the weights [m_p], the quality when one slice is taken and
    one otherwise, zeroed where the index is no longer available. *)
Definition m_p_of (n_slices : Z) (slices_m avail_m : list Z) : list float :=
  zip_with fmask
    (if bool_decide (n_slices = 1) then m_quality slices_m
     else (λ _, Fin 1%Qc) <$> slices_m)
    ((λ x, bool_decide (x ∈ avail_m)) <$> slices_m).

(** ** The class [Sequencer] *)

Module Sequencer.

(** *** The loops of the per-case worker [_generate_sequences] *)

Section Worker.
Context `{RS : RandomSource}.

(** The keyword arguments of [generate_sequences] the worker closes over;
    [q] is the rebound [q = np.clip(q, 0, 1) * seq_len]. *)
Variables (seq_len : Z) (mean_slices_per_mha : Qc) (max_slices_per_mha : Z).
Variable q : Qc.
Variable case : string.

(** [slices = {m: np.array(available[m]) ...}], never updated. *)
Variable slices : list (list Z).

(** Lines 65-86: the draw for modality [m], taken when it has slices left. *)
Definition take_slices (st : cand_state) (c_sequence_len : Z)
    (avail_m : list Z) : M cand_state :=
  let m := cur_m st in
  z ← normal mean_slices_per_mha;
  let n_slices := n_slices_of seq_len max_slices_per_mha z avail_m c_sequence_len in
  slices_m ← or_raise KeyError (slices !! m);
  let m_quality0 := m_quality slices_m in
  let m_p := m_p_of n_slices slices_m avail_m in
  (* [m_p = m_quality] aliases the array: [m_p *= ...] updates both *)
  let m_quality1 := if bool_decide (n_slices = 1) then m_p else m_quality0 in
  selected_slices ← np_choice slices_m n_slices m_p;
  picked ← or_raise IndexError (mapM (np_index m_quality1) selected_slices);
  let id := (cur_loop st, m) in
  let entry := dict_get (c_sequence st) id [] ++ selected_slices in
  avail_m' ← or_raise ValueError (remove_each selected_slices avail_m);
  mret {| c_quality := fadd (c_quality st) (fsum picked);
          c_sequence := dict_set (c_sequence st) id entry;
          c_available := <[m := avail_m']> (c_available st);
          cur_m := m;
          cur_loop := cur_loop st |}.

(** Lines 88-90: the cursor moves on cyclically, [loop] counts its wraps. *)
Definition advance_cursor (st : cand_state) : M cand_state :=
  let n := length (c_available st) in
  if bool_decide (n = 0%nat) then raise ZeroDivisionError
  else
    let m' := ((cur_m st + 1) `mod` n)%nat in
    mret {| c_quality := c_quality st;
            c_sequence := c_sequence st;
            c_available := c_available st;
            cur_m := m';
            cur_loop := if bool_decide (m' = 0%nat)
                        then (cur_loop st + 1)%nat else cur_loop st |}.

(** Lines 65-90: one turn of the [while] loop. *)
Definition candidate_step (st : cand_state) (c_sequence_len : Z) : M cand_state :=
  avail_m ← or_raise KeyError (c_available st !! cur_m st);
  st1 ← (if bool_decide (0 < Z.of_nat (length avail_m))
         then take_slices st c_sequence_len avail_m
         else mret st);
  advance_cursor st1.

(** Line 64: [while (c_sequence_len := ...) < seq_len]. *)
Fixpoint candidate_loop (fuel : nat) (st : cand_state) : M cand_state :=
  let c_sequence_len := _len_of_values (dict_values (c_sequence st)) in
  if bool_decide (c_sequence_len < seq_len) then
    match fuel with
    | O => out_of_fuel
    | S fuel' => st' ← candidate_step st c_sequence_len; candidate_loop fuel' st'
    end
  else mret st.

(** Lines 58-94: one candidate, from a deep copy of [available]. *)
Definition generate_candidate (fuel : nat) (available : list (list Z)) : M candidate :=
  st ← candidate_loop fuel
         {| c_quality := Fin 0%Qc; c_sequence := []; c_available := available;
            cur_m := 0; cur_loop := 0 |};
  if bool_decide (_len_of_values (dict_values (c_sequence st)) = seq_len)
  then mret (c_quality st, mkSequence case (c_sequence st), c_available st)
  else raise AssertionError.

(** Line 57: [for _ in range(n)], appending each candidate. *)
Fixpoint generate_candidates (n fuel : nat) (available : list (list Z))
    : M (list candidate) :=
  match n with
  | O => mret []
  | S n' =>
      c ← generate_candidate fuel available;
      cs ← generate_candidates n' fuel available;
      mret (c :: cs)
  end.

(** The sort key [lambda c: np.abs(q - c[0])]. *)
Definition sort_key (c : candidate) : float := fabs_sub q c.1.1.

(** Lines 49-104: the greedy loop of one case. *)
Fixpoint greedy_loop (fuel ifuel : nat) (available : list (list Z))
    (sequences : list Sequence) : M (list Sequence) :=
  if bool_decide (_len_of_values available < seq_len) then mret sequences
  else
    match fuel with
    | O => out_of_fuel
    | S fuel' =>
        sequence_candidates ← generate_candidates 100 ifuel available;
        match sort_by sort_key sequence_candidates with
        | [] => raise IndexError
        | (c_quality, c_sequence, c_available) :: _ =>
            if flt c_quality (Fin q) then mret sequences
            else greedy_loop fuel' ifuel c_available (sequences ++ [c_sequence])
        end
    end.
End Worker.

(** *** [Sequencer.generate_sequences] *)

Section GenerateSequences.
Context `{RS : RandomSource}.
Variable dataloader : DataLoader.
Variables (seed seq_len : Z) (mean_slices_per_mha : Qc) (max_slices_per_mha : Z).

(** The [q] argument as passed in. *)
Variable q : Qc.

(** Line 39: [q = np.clip(q, 0, 1) * seq_len]. *)
Definition target : Qc := (Qc_clip q 0 1 * Qc_of_Z seq_len)%Qc.

(** Line 40. *)
Definition seeds : gmap string Z := seeds_from seed 0 (keys dataloader) ∅.

(** Lines 42-104.  [entropy] is the state [default_rng(None)] would give
    this worker: it is what the operating system supplies, not a function
    of the arguments. *)
Definition _generate_sequences (fuel : nat) (entropy : G) (case : string)
    : res (list Sequence) :=
  match (if bool_decide (0 ≤ seed)
         then match seeds !! case with
              | Some s => Ok (default_rng s)
              | None => Raise KeyError
              end
         else Ok entropy) with
  | Ok r =>
      match shapes dataloader case with
      | None => Raise LookupFailure
      | Some shp =>
          let available := (λ n, seqZ 0 n) <$> shp in
          let slices := available in
          match greedy_loop seq_len mean_slices_per_mha max_slices_per_mha
                  target case slices fuel fuel available [] r with
          | Ok (sequences, _) => Ok sequences
          | Raise e => Raise e
          | OutOfFuel => OutOfFuel
          end
      end
  | Raise e => Raise e
  | OutOfFuel => OutOfFuel
  end.

(** Line 108: one future per key, in the order of [keys()]. *)
Definition futures (fuel : nat) (entropy : nat → G)
    : list (string * res (list Sequence)) :=
  imap (λ i key, (key, _generate_sequences fuel (entropy i) key)) (keys dataloader).

(** Lines 106-113.  [order] lists the futures (by position) in the order
    they complete.  Leaving the [with] block joins every worker, so the
    call returns only if all of them do. *)
Definition generate_sequences (fuel : nat) (entropy : nat → G) (order : list nat)
    : res SequenceCollection :=
  let fs := futures fuel entropy in
  if existsb (λ f, is_out_of_fuel f.2) fs then OutOfFuel
  else collect fs order ∅.
End GenerateSequences.

End Sequencer.

(** ** A concrete generator

    A deterministic instance of [RandomSource], used to run the model: the
    state is a counter, the rounded normal draw cycles around the rounded
    mean, and a choice takes the first positions of nonzero probability,
    rotated by the counter. *)

Module Cycle.

Fixpoint positive_positions (i : nat) (p : list Qc) : list nat :=
  match p with
  | [] => []
  | x :: p' =>
      if bool_decide (0 < x)%Qc then i :: positive_positions (S i) p'
      else positive_positions (S i) p'
  end.

Definition round_half_up (x : Qc) : Z := Qfloor (x + Q2Qc (1 # 2))%Qc.

Definition normal (loc : Qc) (g : nat) : Z * nat :=
  (round_half_up loc + nth (g `mod` 4)%nat [0; -1; 1; -2] 0, S g).

Definition choice (p : list Qc) (n : nat) (g : nat) : list nat * nat :=
  (take n (rotate g (positive_positions 0 p)), S g).

End Cycle.

Arguments Sequencer.generate_candidates : simpl never.

(** ** Observations and invariants used in the statements *)

(** The slice indices a sequence takes from modality [m], and all of them. *)
Fixpoint indices_of (m : nat) (d : dict) : list Z :=
  match d with
  | [] => []
  | (k, v) :: d' =>
      if bool_decide (k.2 = m) then v ++ indices_of m d' else indices_of m d'
  end.

Definition all_indices (d : dict) : list Z := concat (dict_values d).

(** The slice indices of modality [m] used by a list of sequences. *)
Definition used (m : nat) (sequences : list Sequence) : list Z :=
  concat ((λ s, indices_of m (seq_slices s)) <$> sequences).

(** What every state of the candidate loop satisfies, for the pool
    [available] the candidate started from. *)
Record cand_inv (seq_len : Z) (available : list (list Z)) (st : cand_state) : Prop :=
  mk_cand_inv {
    inv_length : length (c_available st) = length available;
    inv_perm : ∀ m : nat,
      available !!! m ≡ₚ indices_of m (c_sequence st) ++ c_available st !!! m;
    inv_total :
      _len_of_values (dict_values (c_sequence st)) + _len_of_values (c_available st)
      = _len_of_values available;
    inv_bound : _len_of_values (dict_values (c_sequence st)) ≤ Z.max 0 seq_len;
    inv_nan : is_nan (c_quality st) = false
  }.

(** A pool over modalities of [shp] slices each: the indices left for a
    modality are distinct and in range, and no modality is so long that
    [2^|i-2|] leaves [int64]. *)
Definition pool_ok (shp : list Z) (available : list (list Z)) : Prop :=
  Forall2 (λ n av, n ≤ 65 ∧ NoDup av ∧ ∀ x, x ∈ av → 0 ≤ x < n) shp available.

(** The indices left for every modality are indices of its slices. *)
Definition in_range (shp : list Z) (available : list (list Z)) : Prop :=
  Forall2 (λ n av, ∀ x, x ∈ av → 0 ≤ x < n) shp available.

(** A state of the candidate loop started from the pool [available]. *)
Record loop_ok (seq_len : Z) (shp : list Z) (available : list (list Z))
    (st : cand_state) : Prop := mk_loop_ok {
  ok_inv : cand_inv seq_len available st;
  ok_pool : pool_ok shp (c_available st);
  ok_cursor : (cur_m st < length (c_available st))%nat;
  ok_enough : seq_len ≤ _len_of_values available
}.

Section Fairness.
Context `{RS : RandomSource}.

(** From [g] on, some rounded normal draw is at least one. *)
Inductive eventually_positive (loc : Qc) : G → Prop :=
  | ep_now g : 1 ≤ (rng_normal loc g).1 → eventually_positive loc g
  | ep_later g :
      eventually_positive loc (rng_normal loc g).2 → eventually_positive loc g.

(** The generator never draws below one forever: what holds of a normal
    distribution with probability one. *)
Definition fair (loc : Qc) : Prop := ∀ g, eventually_positive loc g.
End Fairness.

(** The state after lines 88-90, when there is a modality at all. *)
Definition advanced (st : cand_state) : cand_state :=
  let m' := ((cur_m st + 1) `mod` length (c_available st))%nat in
  {| c_quality := c_quality st;
     c_sequence := c_sequence st;
     c_available := c_available st;
     cur_m := m';
     cur_loop := if bool_decide (m' = 0%nat) then (cur_loop st + 1)%nat else cur_loop st |}.

(** Futures of the same key hold the same result. *)
Definition functional (fs : list (string * res (list Sequence))) : Prop :=
    ∀ (i j : nat) key r1 r2,
    fs !! i = Some (key, r1) → fs !! j = Some (key, r2) → r1 = r2.

(** The exact sum of finite weights. *)
Fixpoint qsum (l : list Qc) : Qc :=
  match l with [] => 0%Qc | x :: l' => (x + qsum l')%Qc end.

(** The score the code gives a sequence: the sum of the qualities of its
    slice indices. *)
Definition score (s : Sequence) : float :=
  fsum (slice_quality <$> all_indices (seq_slices s)).

(** No modality of a listed case is longer than 65 slices, and every listed
    case can be looked up. *)
Definition short_modalities (dataloader : DataLoader) : Prop :=
  ∀ case, case ∈ keys dataloader →
    ∃ shp, shapes dataloader case = Some shp ∧ Forall (λ n, n ≤ 65) shp.

(** The order in which the cursor of the candidate loop visits the ids
    [(loop, m)]: round by round, and within a round modality by modality. *)
Definition key_lt (a b : key) : Prop :=
  (a.1 < b.1)%nat ∨ (a.1 = b.1 ∧ (a.2 < b.2)%nat).

(** The entries of a [dict] come in the order of the cursor. *)
Definition in_cursor_order (d : dict) : Prop :=
  ∀ (i j : nat) a b, d !! i = Some a → d !! j = Some b → (i < j)%nat → key_lt a.1 b.1.

(** What the entries of a candidate satisfy at the head of the loop. *)
Record entries_inv (max_slices_per_mha : Z) (modalities : nat) (st : cand_state) : Prop :=
  mk_entries_inv {
    ent_order : in_cursor_order (c_sequence st);
    ent_before : Forall (λ kv, key_lt kv.1 (cur_loop st, cur_m st)) (c_sequence st);
    ent_each : Forall (λ kv, (kv.1.2 < modalities)%nat ∧
                             Z.of_nat (length kv.2) ≤ max_slices_per_mha) (c_sequence st);
    ent_length : length (c_available st) = modalities
  }.


(** * Properties *)

(** ** The monad *)

Section MonadFacts.
Context `{RS : RandomSource}.

Lemma bind_Ok {A B} (c : M A) (f : A → M B) g r :
  (c ≫= f) g = Ok r ↔ ∃ a g1, c g = Ok (a, g1) ∧ f a g1 = Ok r.
Proof.
  unfold mbind, M_bind. destruct (c g) as [[a g1]| |]; split.
  - intros H. by exists a, g1.
  - by intros (? & ? & [= <- <-] & ?).
  - done.
  - by intros (? & ? & ? & ?).
  - done.
  - by intros (? & ? & ? & ?).
Qed.

Lemma ret_Ok {A} (a : A) g r : mret (M:=M) a g = Ok r ↔ r = (a, g).
Proof. unfold mret, M_ret. split; [by intros [= <-]|by intros ->]. Qed.

Lemma or_raise_Ok {A} e (o : option A) g r :
  or_raise e o g = Ok r ↔ ∃ a, o = Some a ∧ r = (a, g).
Proof.
  destruct o as [a|]; simpl.
  - rewrite ret_Ok. split; [intros ->; by exists a|by intros (? & [= <-] & ->)].
  - split; [done|by intros (? & ? & ?)].
Qed.

Lemma normal_Ok loc g r : normal loc g = Ok r ↔ r = rng_normal loc g.
Proof. unfold normal. split; [by intros [= <-]|by intros ->]. Qed.
End MonadFacts.

Section RaiseFacts.
Context `{RS : RandomSource}.

Lemma bind_Raise {A B} (c : M A) (f : A → M B) g e :
  (c ≫= f) g = Raise e ↔
  c g = Raise e ∨ ∃ a g1, c g = Ok (a, g1) ∧ f a g1 = Raise e.
Proof.
  unfold mbind, M_bind. destruct (c g) as [[a g1]| |]; split.
  - intros H. right. by exists a, g1.
  - by intros [?|(? & ? & [= <- <-] & ?)].
  - intros [= ->]. by left.
  - by intros [[= ->]|(? & ? & ? & ?)].
  - done.
  - by intros [?|(? & ? & ? & ?)].
Qed.

Lemma or_raise_Raise {A} e' (o : option A) g e :
  or_raise e' o g = Raise e ↔ o = None ∧ e = e'.
Proof. destruct o; simpl; unfold mret, M_ret, raise; naive_solver. Qed.

Lemma np_choice_Raise a size m_p g e :
  np_choice a size m_p g = Raise e → e = ValueError ∨ e = IndexError.
Proof.
  unfold np_choice. destruct (probabilities m_p); [|naive_solver].
  repeat case_bool_decide; try naive_solver.
  destruct (rng_choice _ _ _). destruct (mapM _ _); naive_solver.
Qed.
End RaiseFacts.
Section ContainerFacts.

Lemma len_of_values_concat (vs : list (list Z)) :
  _len_of_values vs = Z.of_nat (length (concat vs)).
Proof.
  unfold _len_of_values. f_equal.
  induction vs as [|v vs IH]; simpl; [done|]. rewrite length_app. lia.
Qed.

Lemma len_of_values_nonneg (vs : list (list Z)) : 0 ≤ _len_of_values vs.
Proof. unfold _len_of_values. lia. Qed.

Lemma all_indices_dict_set (d : dict) k sel :
  all_indices (dict_set d k (dict_get d k [] ++ sel)) ≡ₚ all_indices d ++ sel.
Proof.
  unfold all_indices, dict_values.
  induction d as [|[k' v] d IH]; simpl.
  - by rewrite app_nil_r.
  - destruct (decide (k' = k)) as [->|Hk].
    + rewrite !(bool_decide_eq_true_2 (k = k)) by done. simpl.
      rewrite <- !(assoc_L (++)). f_equiv. apply Permutation_app_comm.
    + rewrite !(bool_decide_eq_false_2 (k' = k)) by done. simpl.
      rewrite IH. by rewrite (assoc_L (++)).
Qed.

Lemma indices_of_dict_set (d : dict) m k sel :
  indices_of m (dict_set d k (dict_get d k [] ++ sel))
  ≡ₚ indices_of m d ++ (if bool_decide (k.2 = m) then sel else []).
Proof.
  induction d as [|[k' v] d IH]; simpl.
  - case_bool_decide; by rewrite ?app_nil_r.
  - destruct (decide (k' = k)) as [->|Hk].
    + rewrite !(bool_decide_eq_true_2 (k = k)) by done. simpl.
      case_bool_decide as Hm.
      * rewrite <- !(assoc_L (++)). f_equiv. apply Permutation_app_comm.
      * by rewrite app_nil_r.
    + rewrite !(bool_decide_eq_false_2 (k' = k)) by done. simpl.
      destruct (bool_decide (k'.2 = m)).
      * rewrite IH. by rewrite (assoc_L (++)).
      * apply IH.
Qed.

Lemma list_remove_perm s l l' : list_remove s l = Some l' → l ≡ₚ s :: l'.
Proof.
  revert l'. induction l as [|x l IH]; intros l'; simpl; [done|].
  case_bool_decide as Hx.
  - intros [= <-]. by subst.
  - destruct (list_remove s l) as [l1|] eqn:E; simpl; [|done].
    intros [= <-]. rewrite (IH l1 eq_refl). apply Permutation_swap.
Qed.

Lemma list_remove_is_Some s l : s ∈ l → is_Some (list_remove s l).
Proof.
  induction l as [|x l IH]; simpl; [by intros ?%elem_of_nil|].
  intros Hin. case_bool_decide as Hx; [by eexists|].
  apply elem_of_cons in Hin as [->|Hin]; [done|].
  destruct (IH Hin) as [l' ->]. by eexists.
Qed.

Lemma remove_each_perm sel l l' : remove_each sel l = Some l' → l ≡ₚ sel ++ l'.
Proof.
  revert l. induction sel as [|s sel IH]; intros l; simpl.
  - by intros [= <-].
  - destruct (list_remove s l) as [l1|] eqn:E; simpl; [|done].
    intros H. apply IH in H. apply list_remove_perm in E.
    rewrite E. by rewrite H.
Qed.

Lemma remove_each_is_Some sel l :
  NoDup sel → (∀ s, s ∈ sel → s ∈ l) → is_Some (remove_each sel l).
Proof.
  revert l. induction sel as [|s sel IH]; intros l Hnd Hsub; simpl; [by eexists|].
  apply NoDup_cons in Hnd as [Hs Hnd].
  destruct (list_remove_is_Some s l) as [l1 E]; [apply Hsub; left|].
  rewrite E. simpl. apply IH; [done|].
  intros s' Hs'. apply list_remove_perm in E.
  assert (s' ∈ s :: l1) as Hin by (rewrite <- E; apply Hsub; by right).
  apply elem_of_cons in Hin as [->|Hin]; done.
Qed.
End ContainerFacts.

Section FloatFacts.


End FloatFacts.

Section SortFacts.
Context {A : Type} (k : A → float).

Lemma insert_by_perm x l : insert_by k x l ≡ₚ x :: l.
Proof.
  induction l as [|y l IH]; simpl; [done|].
  destruct (flt (k y) (k x)); [|done]. rewrite IH. apply Permutation_swap.
Qed.

Lemma sort_by_perm l : sort_by k l ≡ₚ l.
Proof.
  induction l as [|x l IH]; simpl; [done|]. by rewrite insert_by_perm, IH.
Qed.


End SortFacts.
Section ChoiceFacts.
Context `{RS : RandomSource}.

Lemma fsum_Fin_inv l s : fsum l = Fin s → Forall (λ w, is_finite w = true) l.
Proof.
  revert s. induction l as [|w l IH]; intros s; simpl; [constructor|].
  destruct w as [x| |], (fsum l) as [y| |] eqn:E; simpl; try done.
  intros _. constructor; [done|]. by eapply IH.
Qed.

Lemma probabilities_Some m_p p :
  probabilities m_p = Some p →
  ∃ s, fsum m_p = Fin s ∧ s ≠ 0%Qc ∧
    p = (λ w, match w with Fin x => (x / s)%Qc | _ => 0%Qc end) <$> m_p ∧
    Forall (λ x, 0 ≤ x)%Qc p.
Proof.
  unfold probabilities. destruct (fsum m_p) as [s| |] eqn:E; try done.
  case_bool_decide as Hs; [done|].
  case_bool_decide as Hnn; [|done].
  intros [= <-]. by exists s.
Qed.

Lemma probabilities_pos m_p p i x :
  probabilities m_p = Some p → p !! i = Some x → (0 < x)%Qc →
  ∃ w, m_p !! i = Some (Fin w) ∧ w ≠ 0%Qc.
Proof.
  intros (s & Hsum & Hs & -> & _)%probabilities_Some Hi Hx.
  rewrite list_lookup_fmap in Hi.
  destruct (m_p !! i) as [w|] eqn:E; simpl in Hi; [|done].
  injection Hi as <-. destruct w as [w| |].
  - exists w. split; [done|]. intros ->.
    unfold Qcdiv in Hx. rewrite Qcmult_0_l in Hx. by apply Qclt_not_eq in Hx.
  - by apply Qclt_not_eq in Hx.
  - by apply Qclt_not_eq in Hx.
Qed.

Lemma np_choice_Ok a size m_p g sel g' :
  np_choice a size m_p g = Ok (sel, g') →
  ∃ p idx, probabilities m_p = Some p ∧
    0 ≤ size ≤ Z.of_nat (count_nonzero p) ∧
    length sel = Z.to_nat size ∧
    Forall2 (λ i s, a !! i = Some s) idx sel ∧
    NoDup idx ∧
    (∀ i, i ∈ idx → ∃ x, p !! i = Some x ∧ (0 < x)%Qc) ∧
    (size = 0 → g' = g).
Proof.
  unfold np_choice. destruct (probabilities m_p) as [p|]; [|done].
  case_bool_decide as Hsz; [done|].
  case_bool_decide as H0.
  - intros [= <- <-]. exists p, []. subst size.
    repeat split; try done; try lia; try constructor.
    intros i Hi. by apply elem_of_nil in Hi.
  - destruct (rng_choice p (Z.to_nat size) g) as [idx g1] eqn:E.
    destruct (mapM (λ i, a !! i) idx) as [v|] eqn:Em; [|done].
    intros [= <- <-]. apply mapM_Some in Em.
    destruct (rng_choice_spec p (Z.to_nat size) g) as (Hlen & Hnd & Hpos).
    { unfold count_nonzero in Hsz. lia. }
    rewrite E in Hlen, Hnd, Hpos. simpl in *.
    exists p, idx. repeat split; try done; try lia.
    by rewrite <- (Forall2_length _ _ _ Em).
Qed.

Lemma m_p_of_lookup_Fin n slices_m avail_m i w :
  m_p_of n slices_m avail_m !! i = Some (Fin w) → w ≠ 0%Qc →
  ∃ s, slices_m !! i = Some s ∧ s ∈ avail_m.
Proof.
  unfold m_p_of. intros H Hw.
  apply lookup_zip_with_Some in H as (b & mk & Hf & Hb & Hmk).
  rewrite list_lookup_fmap in Hmk.
  destruct (slices_m !! i) as [s|] eqn:Es; simpl in Hmk; [|done].
  injection Hmk as <-. exists s. split; [done|].
  destruct (decide (s ∈ avail_m)) as [|Hin]; [done|].
  rewrite bool_decide_eq_false_2 in Hf by done.
  destruct b; simpl in Hf; try done. by injection Hf as ->.
Qed.

(** Whatever the draw returns was still available for the modality. *)
Lemma np_choice_available n slices_m avail_m size g sel g' :
  np_choice slices_m size (m_p_of n slices_m avail_m) g = Ok (sel, g') →
  (∀ s, s ∈ sel → s ∈ avail_m) ∧ (NoDup slices_m → NoDup sel) ∧
  length sel = Z.to_nat size ∧ 0 ≤ size.
Proof.
  intros (p & idx & Hp & Hsz & Hlen & Hf2 & Hnd & Hpos & _)%np_choice_Ok.
  split; [|split; [|split; [done|lia]]].
  - intros s Hs. apply list_elem_of_lookup in Hs as [j Hj].
    destruct (Forall2_lookup_r _ _ _ _ _ Hf2 Hj) as (i & Hi & Hsi).
    destruct (Hpos i) as (x & Hx & Hxpos); [by eapply list_elem_of_lookup_2|].
    destruct (probabilities_pos _ _ _ _ Hp Hx Hxpos) as (w & Hw & Hw0).
    destruct (m_p_of_lookup_Fin _ _ _ _ _ Hw Hw0) as (s' & Hs' & Hin).
    congruence.
  - intros Hnds. apply NoDup_alt. intros j1 j2 s Hj1 Hj2.
    destruct (Forall2_lookup_r _ _ _ _ _ Hf2 Hj1) as (i1 & Hi1 & Hs1).
    destruct (Forall2_lookup_r _ _ _ _ _ Hf2 Hj2) as (i2 & Hi2 & Hs2).
    assert (i1 = i2) as -> by (eapply NoDup_alt; eauto).
    assert (Hnd' := Hnd). rewrite NoDup_alt in Hnd'. by eapply Hnd'.
Qed.
End ChoiceFacts.

Section WorkerFacts.
Context `{RS : RandomSource}.
Variables (seq_len : Z) (mean_slices_per_mha : Qc) (max_slices_per_mha : Z).
Variable q : Qc.
Variable case : string.
Variable slices : list (list Z).

Local Abbreviation take_slices := (Sequencer.take_slices seq_len mean_slices_per_mha max_slices_per_mha slices).
Local Abbreviation advance_cursor := (Sequencer.advance_cursor).
Local Abbreviation candidate_step := (Sequencer.candidate_step seq_len mean_slices_per_mha max_slices_per_mha slices).
Local Abbreviation candidate_loop := (Sequencer.candidate_loop seq_len mean_slices_per_mha max_slices_per_mha slices).
Local Abbreviation generate_candidate := (Sequencer.generate_candidate seq_len mean_slices_per_mha max_slices_per_mha case slices).
Local Abbreviation generate_candidates := (Sequencer.generate_candidates seq_len mean_slices_per_mha max_slices_per_mha case slices).
Local Abbreviation greedy_loop := (Sequencer.greedy_loop seq_len mean_slices_per_mha max_slices_per_mha q case slices).

Lemma take_slices_Ok st len avail_m g st1 g' :
  take_slices st len avail_m g = Ok (st1, g') →
  ∃ slices_m selected picked avail_m',
    let z := (rng_normal mean_slices_per_mha g).1 in
    let n := n_slices_of seq_len max_slices_per_mha z avail_m len in
    let m_p := m_p_of n slices_m avail_m in
    slices !! cur_m st = Some slices_m ∧
    np_choice slices_m n m_p (rng_normal mean_slices_per_mha g).2 = Ok (selected, g') ∧
    mapM (np_index (if bool_decide (n = 1) then m_p else m_quality slices_m)) selected
      = Some picked ∧
    remove_each selected avail_m = Some avail_m' ∧
    st1 = {| c_quality := fadd (c_quality st) (fsum picked);
             c_sequence := dict_set (c_sequence st) (cur_loop st, cur_m st)
                             (dict_get (c_sequence st) (cur_loop st, cur_m st) [] ++ selected);
             c_available := <[cur_m st := avail_m']> (c_available st);
             cur_m := cur_m st;
             cur_loop := cur_loop st |}.
Proof.
  unfold Sequencer.take_slices. intros H.
  apply bind_Ok in H as (z & g1 & Hz & H). apply normal_Ok in Hz.
  apply bind_Ok in H as (slices_m & g2 & Hs & H).
  apply or_raise_Ok in Hs as (? & Hs & [= <- <-]).
  apply bind_Ok in H as (selected & g3 & Hc & H).
  apply bind_Ok in H as (picked & g4 & Hp & H).
  apply or_raise_Ok in Hp as (? & Hp & [= <- <-]).
  apply bind_Ok in H as (avail_m' & g5 & Hr & H).
  apply or_raise_Ok in Hr as (? & Hr & [= <- <-]).
  apply ret_Ok in H as [= -> ->].
  exists slices_m, selected, picked, avail_m'.
  destruct (rng_normal mean_slices_per_mha g) as [z' g1'] eqn:E.
  injection Hz as -> ->. simpl. done.
Qed.

Lemma advance_cursor_Ok st g st' g' :
  advance_cursor st g = Ok (st', g') →
  g' = g ∧ c_quality st' = c_quality st ∧ c_sequence st' = c_sequence st ∧
  c_available st' = c_available st ∧ c_available st ≠ [] ∧
  cur_m st' = ((cur_m st + 1) `mod` length (c_available st))%nat.
Proof.
  unfold Sequencer.advance_cursor. case_bool_decide as Hn; [done|].
  intros [= -> ->]%ret_Ok. simpl. repeat split; try done.
  intros E. by rewrite E in Hn.
Qed.

Lemma candidate_step_Ok st len g st' g' :
  candidate_step st len g = Ok (st', g') →
  ∃ avail_m st1,
    c_available st !! cur_m st = Some avail_m ∧
    (if bool_decide (0 < Z.of_nat (length avail_m))
     then take_slices st len avail_m g = Ok (st1, g')
     else st1 = st ∧ g' = g) ∧
    advance_cursor st1 g' = Ok (st', g').
Proof.
  unfold Sequencer.candidate_step. intros H.
  apply bind_Ok in H as (avail_m & g1 & Ha & H).
  apply or_raise_Ok in Ha as (? & Ha & [= <- <-]).
  apply bind_Ok in H as (st1 & g2 & Ht & H).
  assert (g' = g2) as -> by (by apply advance_cursor_Ok in H as [-> _]).
  exists avail_m, st1. split; [done|]. split; [|done].
  case_bool_decide; [done|]. by apply ret_Ok in Ht as [= -> ->].
Qed.

(** An invariant of the data of a candidate that every draw preserves is
    preserved by the whole loop, which ends with a full candidate. *)
Lemma candidate_loop_ind (P : cand_state → Prop) :
  (∀ st avail_m g st1 g',
     P st → _len_of_values (dict_values (c_sequence st)) < seq_len →
     c_available st !! cur_m st = Some avail_m → avail_m ≠ [] →
     take_slices st (_len_of_values (dict_values (c_sequence st))) avail_m g = Ok (st1, g') →
     P st1) →
  (∀ st g st', P st → advance_cursor st g = Ok (st', g) → P st') →
  ∀ fuel st g st' g',
    P st → candidate_loop fuel st g = Ok (st', g') →
    P st' ∧ seq_len ≤ _len_of_values (dict_values (c_sequence st')).
Proof.
  intros Htake Hadv fuel. induction fuel as [|fuel IH]; intros st g st' g' HP; simpl.
  - case_bool_decide as Hlen; [done|]. intros [= <- <-]%ret_Ok. split; [done|lia].
  - case_bool_decide as Hlen; [|intros [= <- <-]%ret_Ok; split; [done|lia]].
    intros H. apply bind_Ok in H as (st2 & g2 & Hstep & H).
    apply candidate_step_Ok in Hstep as (avail_m & st1 & Ha & Ht & Hadv').
    eapply IH; [|exact H]. eapply Hadv; [|exact Hadv'].
    case_bool_decide as Hne.
    + eapply Htake; eauto. intros ->. simpl in Hne. lia.
    + by destruct Ht as [-> _].
Qed.

Lemma len_of_values_insert (l : list (list Z)) m old v :
  l !! m = Some old →
  _len_of_values (<[m := v]> l)
  = _len_of_values l - Z.of_nat (length old) + Z.of_nat (length v).
Proof.
  revert m. induction l as [|x l IH]; intros m; [done|].
  destruct m as [|m]; simpl.
  - intros [= ->]. unfold _len_of_values. simpl. lia.
  - intros H. specialize (IH _ H). unfold _len_of_values in *. simpl. lia.
Qed.

Lemma len_dict_set (d : dict) k sel :
  _len_of_values (dict_values (dict_set d k (dict_get d k [] ++ sel)))
  = _len_of_values (dict_values d) + Z.of_nat (length sel).
Proof.
  rewrite !len_of_values_concat. fold (all_indices d).
  fold (all_indices (dict_set d k (dict_get d k [] ++ sel))).
  rewrite all_indices_dict_set, length_app. lia.
Qed.

Lemma fsum_not_nan l : Forall (λ w, is_nan w = false) l → is_nan (fsum l) = false.
Proof.
  induction 1 as [|w l Hw _ IH]; simpl; [done|].
  destruct w, (fsum l); done.
Qed.

Lemma fadd_not_nan a b : is_nan a = false → is_nan b = false → is_nan (fadd a b) = false.
Proof. by destruct a, b. Qed.

Lemma slice_quality_not_nan i : is_nan (slice_quality i) = false.
Proof. unfold slice_quality, np_true_divide1. by case_bool_decide. Qed.

Lemma np_index_elem {A} (arr : list A) s x : np_index arr s = Some x → x ∈ arr.
Proof.
  unfold np_index. repeat case_bool_decide; try done; apply list_elem_of_lookup_2.
Qed.

Lemma picked_not_nan n slices_m avail_m size g sel g' picked :
  np_choice slices_m size (m_p_of n slices_m avail_m) g = Ok (sel, g') →
  mapM (np_index (if bool_decide (n = 1) then m_p_of n slices_m avail_m
                  else m_quality slices_m)) sel = Some picked →
  is_nan (fsum picked) = false.
Proof.
  intros Hc Hp. apply fsum_not_nan. apply mapM_Some in Hp.
  apply Forall_forall. intros w Hw.
  apply list_elem_of_lookup in Hw as [j Hj].
  destruct (Forall2_lookup_r _ _ _ _ _ Hp Hj) as (s & _ & Hs).
  apply np_index_elem in Hs. case_bool_decide as Hn.
  - apply np_choice_Ok in Hc as (p & idx & Hpr & _).
    apply probabilities_Some in Hpr as (t & Hsum & _).
    apply fsum_Fin_inv in Hsum. rewrite Forall_forall in Hsum.
    specialize (Hsum _ Hs). by destruct w.
  - unfold m_quality in Hs. apply list_elem_of_fmap in Hs as (i & -> & _).
    apply slice_quality_not_nan.
Qed.

Lemma cand_inv_init available :
  cand_inv seq_len available
    {| c_quality := Fin 0%Qc; c_sequence := []; c_available := available;
       cur_m := 0; cur_loop := 0 |}.
Proof. split; simpl; try done. unfold _len_of_values; simpl; lia. Qed.

Lemma cand_inv_advance available st g st' g' :
  cand_inv seq_len available st → advance_cursor st g = Ok (st', g') →
  cand_inv seq_len available st'.
Proof.
  intros [H1 H2 H3 H4 H5] (_ & Hq & Hs & Ha & _)%advance_cursor_Ok.
  split; by rewrite ?Hq, ?Hs, ?Ha.
Qed.

Lemma cand_inv_take available st avail_m g st1 g' :
  cand_inv seq_len available st →
  _len_of_values (dict_values (c_sequence st)) < seq_len →
  c_available st !! cur_m st = Some avail_m →
  take_slices st (_len_of_values (dict_values (c_sequence st))) avail_m g = Ok (st1, g') →
  cand_inv seq_len available st1.
Proof.
  intros [H1 H2 H3 H4 H5] Hlt Ha
    (slices_m & sel & picked & avail_m' & Hs & Hc & Hp & Hr & ->)%take_slices_Ok.
  pose proof (np_choice_available _ _ _ _ _ _ _ Hc) as (Hsub & _ & Hlen & Hsz).
  pose proof (remove_each_perm _ _ _ Hr) as Hperm.
  assert (Hm : (cur_m st < length (c_available st))%nat) by (by eapply lookup_lt_Some).
  split; simpl.
  - by rewrite length_insert.
  - intros m. rewrite indices_of_dict_set. simpl.
    destruct (decide (cur_m st = m)) as [<-|Hne].
    + rewrite bool_decide_eq_true_2 by done.
      rewrite list_lookup_total_insert_eq by done.
      rewrite H2. rewrite (list_lookup_total_correct _ _ _ Ha).
      rewrite Hperm. by rewrite (assoc_L (++)).
    + rewrite bool_decide_eq_false_2 by done.
      rewrite list_lookup_total_insert_ne by done.
      rewrite app_nil_r. apply H2.
  - rewrite len_dict_set, (len_of_values_insert _ _ _ _ Ha).
    rewrite <- H3. rewrite Hperm, length_app. lia.
  - rewrite len_dict_set. rewrite Hlen.
    unfold n_slices_of, np_clip in *. lia.
  - apply fadd_not_nan; [done|]. by eapply picked_not_nan.
Qed.

(** The invariant holds of every candidate the loop returns, which is then
    at least [seq_len] long. *)
Lemma candidate_loop_inv available fuel st g st' g' :
  cand_inv seq_len available st →
  candidate_loop fuel st g = Ok (st', g') →
  cand_inv seq_len available st' ∧
  seq_len ≤ _len_of_values (dict_values (c_sequence st')).
Proof.
  apply (candidate_loop_ind (cand_inv seq_len available)).
  - intros. by eapply cand_inv_take.
  - intros. by eapply cand_inv_advance.
Qed.

(** A draw adds exactly the clamped count to the candidate. *)
Lemma take_slices_len st avail_m g st1 g' :
  take_slices st (_len_of_values (dict_values (c_sequence st))) avail_m g = Ok (st1, g') →
  let n := n_slices_of seq_len max_slices_per_mha
             (rng_normal mean_slices_per_mha g).1 avail_m
             (_len_of_values (dict_values (c_sequence st))) in
  0 ≤ n ∧
  _len_of_values (dict_values (c_sequence st1))
  = _len_of_values (dict_values (c_sequence st)) + n.
Proof.
  intros (slices_m & sel & picked & avail_m' & Hs & Hc & Hp & Hr & ->)%take_slices_Ok.
  pose proof (np_choice_available _ _ _ _ _ _ _ Hc) as (_ & _ & Hlen & Hsz).
  simpl. rewrite len_dict_set, Hlen. split; [done|lia].
Qed.

(** What is known of an accepted candidate. *)
Lemma generate_candidate_Ok fuel available g c g' :
  generate_candidate fuel available g = Ok (c, g') →
  _len_of_values (dict_values (seq_slices c.1.2)) = seq_len ∧
  seq_case c.1.2 = case ∧
  length c.2 = length available ∧
  (∀ m : nat, available !!! m ≡ₚ indices_of m (seq_slices c.1.2) ++ c.2 !!! m) ∧
  _len_of_values c.2 = _len_of_values available - seq_len ∧
  is_nan c.1.1 = false.
Proof.
  unfold Sequencer.generate_candidate. intros H.
  apply bind_Ok in H as (st & g1 & Hloop & H).
  case_bool_decide as Hlen; [|done].
  apply ret_Ok in H as [= -> ->]. simpl.
  apply (candidate_loop_inv available) in Hloop as [[H1 H2 H3 H4 H5] _];
    [|apply cand_inv_init].
  repeat split; try done. lia.
Qed.

Lemma generate_candidates_Ok n fuel available g cs g' :
  generate_candidates n fuel available g = Ok (cs, g') →
  length cs = n ∧
  ∀ c, c ∈ cs → ∃ g1 g2, generate_candidate fuel available g1 = Ok (c, g2).
Proof.
  revert g cs. induction n as [|n IH]; intros g cs; simpl.
  - intros [= -> ->]%ret_Ok. split; [done|]. by intros c ?%elem_of_nil.
  - intros H. apply bind_Ok in H as (c & g1 & Hc & H).
    apply bind_Ok in H as (cs' & g2 & Hcs & H).
    apply ret_Ok in H as [= -> ->].
    destruct (IH _ _ Hcs) as [Hlen Hall]. split; [simpl; by rewrite Hlen|].
    intros c' [->|Hin]%elem_of_cons; [by eauto|by apply Hall].
Qed.


(** One round of the greedy loop, once the batch has been generated. *)
Lemma greedy_loop_round fuel ifuel available sequences g cands g1 :
  ¬ _len_of_values available < seq_len →
  generate_candidates 100 ifuel available g = Ok (cands, g1) →
  ∃ w, head (sort_by (Sequencer.sort_key q) cands) = Some w ∧
    greedy_loop (S fuel) ifuel available sequences g
    = if flt w.1.1 (Fin q) then Ok (sequences, g1)
      else greedy_loop fuel ifuel w.2 (sequences ++ [w.1.2]) g1.
Proof.
  intros Hlen Hc. simpl. rewrite bool_decide_eq_false_2 by done.
  unfold mbind at 1, M_bind at 1. rewrite Hc.
  destruct (sort_by (Sequencer.sort_key q) cands) as [|[[cq cs] ca] rest] eqn:Es.
  - apply generate_candidates_Ok in Hc as [Hl _].
    pose proof (sort_by_perm (Sequencer.sort_key q) cands) as Hp.
    rewrite Es in Hp. apply Permutation_length in Hp. rewrite Hl in Hp. done.
  - exists (cq, cs, ca). split; [done|]. simpl. by destruct (flt cq (Fin q)).
Qed.

Lemma used_app m s1 s2 : used m (s1 ++ s2) = used m s1 ++ used m s2.
Proof. unfold used. by rewrite fmap_app, concat_app. Qed.

(** The sequences a run of the greedy loop adds, and the pool it leaves. *)
Lemma greedy_loop_Ok ifuel fuel available sequences g sequences' g' :
  greedy_loop fuel ifuel available sequences g = Ok (sequences', g') →
  ∃ new available',
    sequences' = sequences ++ new ∧
    length available' = length available ∧
    (∀ m : nat, available !!! m ≡ₚ used m new ++ available' !!! m) ∧
    Forall (λ s, _len_of_values (dict_values (seq_slices s)) = seq_len ∧
                 seq_case s = case) new ∧
    _len_of_values available' = _len_of_values available - seq_len * Z.of_nat (length new).
Proof.
  revert available sequences g. induction fuel as [|fuel IH]; intros available sequences g.
  - simpl. case_bool_decide; [|done]. intros [= <- <-]%ret_Ok.
    exists [], available. rewrite app_nil_r. repeat split; try done; first [by constructor|simpl; lia].
  - destruct (decide (_len_of_values available < seq_len)) as [Hlt|Hge].
    { simpl. rewrite bool_decide_eq_true_2 by done. intros [= <- <-]%ret_Ok.
      exists [], available. rewrite app_nil_r.
      repeat split; try done; first [by constructor|simpl; lia]. }
    destruct (generate_candidates 100 ifuel available g) as [[cands g1]| |] eqn:Ec.
    2,3: simpl; rewrite bool_decide_eq_false_2 by done;
         unfold mbind at 1, M_bind at 1; by rewrite Ec.
    destruct (greedy_loop_round fuel ifuel available sequences g cands g1 Hge Ec)
      as (w & Hw & ->).
    assert (Hin : w ∈ cands).
    { rewrite <- (sort_by_perm (Sequencer.sort_key q) cands).
      destruct (sort_by (Sequencer.sort_key q) cands); [done|].
      injection Hw as ->. by left. }
    apply generate_candidates_Ok in Ec as [_ Hall].
    destruct (Hall w Hin) as (g2 & g3 & Hgen).
    apply generate_candidate_Ok in Hgen as (Hl & Hcase & Hlen & Hperm & Htot & _).
    destruct (flt w.1.1 (Fin q)).
    + intros [= <- <-]. exists [], available. rewrite app_nil_r.
      repeat split; try done; first [by constructor|simpl; lia].
    + intros H. apply IH in H as (new & available' & -> & Hlen' & Hperm' & Hall' & Htot').
      exists (w.1.2 :: new), available'. rewrite <- (assoc_L (++)). simpl.
      repeat split; try done.
      * congruence.
      * intros m. unfold used. simpl. fold (used m new).
        rewrite Hperm, Hperm'. by rewrite (assoc_L (++)).
      * by constructor.
      * lia.
Qed.

(** Only the final check of a candidate raises [AssertionError]. *)
Lemma candidate_loop_no_assert fuel st g :
  candidate_loop fuel st g ≠ Raise AssertionError.
Proof.
  revert st g. induction fuel as [|fuel IH]; intros st g; simpl.
  - by case_bool_decide.
  - case_bool_decide as Hlen; [|done]. intros H.
    apply bind_Raise in H as [H|(st' & g1 & _ & H)]; [|by eapply IH].
    unfold Sequencer.candidate_step in H.
    apply bind_Raise in H as [H|(avail_m & g2 & _ & H)];
      [by apply or_raise_Raise in H as [_ ?]|].
    apply bind_Raise in H as [H|(st1 & g3 & _ & H)].
    + case_bool_decide as Hnz; [|done]. unfold Sequencer.take_slices in H.
      apply bind_Raise in H as [H|(z & g4 & _ & H)]; [done|].
      apply bind_Raise in H as [H|(? & ? & _ & H)];
        [by apply or_raise_Raise in H as [_ ?]|].
      apply bind_Raise in H as [H|(? & ? & _ & H)];
        [by apply np_choice_Raise in H as [?|?]|].
      apply bind_Raise in H as [H|(? & ? & _ & H)];
        [by apply or_raise_Raise in H as [_ ?]|].
      apply bind_Raise in H as [H|(? & ? & _ & H)];
        [by apply or_raise_Raise in H as [_ ?]|].
      done.
    + unfold Sequencer.advance_cursor in H. by case_bool_decide as Hz.
Qed.

Lemma generate_candidate_no_assert fuel available g :
  0 ≤ seq_len → generate_candidate fuel available g ≠ Raise AssertionError.
Proof.
  intros Hsl. unfold Sequencer.generate_candidate. intros H.
  apply bind_Raise in H as [H|(st & g1 & Hloop & H)];
    [by apply candidate_loop_no_assert in H|].
  apply (candidate_loop_inv available) in Hloop as [[_ _ _ Hb _] Hge];
    [|apply cand_inv_init].
  case_bool_decide as Hne; [done|]. lia.
Qed.

Lemma generate_candidates_no_assert n fuel available g :
  0 ≤ seq_len → generate_candidates n fuel available g ≠ Raise AssertionError.
Proof.
  intros Hsl. revert g. induction n as [|n IH]; intros g; [done|].
  intros H. change (generate_candidates (S n) fuel available) with
    (c ← generate_candidate fuel available;
     cs ← generate_candidates n fuel available; mret (M:=M) (c :: cs)) in H.
  apply bind_Raise in H as [H|(c & g1 & _ & H)];
    [by apply generate_candidate_no_assert in H|].
  apply bind_Raise in H as [H|(cs & g2 & _ & H)]; [by apply IH in H|done].
Qed.

Lemma greedy_loop_no_assert fuel ifuel available sequences g :
  0 ≤ seq_len → greedy_loop fuel ifuel available sequences g ≠ Raise AssertionError.
Proof.
  intros Hsl. revert available sequences g.
  induction fuel as [|fuel IH]; intros available sequences g; simpl.
  - by case_bool_decide.
  - case_bool_decide as Hlen; [done|]. intros H.
    apply bind_Raise in H as [H|(cands & g1 & _ & H)];
      [by apply generate_candidates_no_assert in H|].
    destruct (sort_by _ cands) as [|[[cq cs] ca] rest]; [done|].
    destruct (flt cq (Fin q)); [done|]. by apply IH in H.
Qed.


Lemma greedy_loop_exhausted fuel ifuel available sequences g :
  _len_of_values available < seq_len →
  greedy_loop fuel ifuel available sequences g = Ok (sequences, g).
Proof. intros Hlt. destruct fuel; simpl; by rewrite bool_decide_eq_true_2. Qed.

(** C5.  Once fewer than [seq_len] slices remain over all modalities the
  greedy loop returns the sequences it has, drawing nothing; the pool an
  accepted candidate leaves is a sub-multiset of the pool it started from,
  with [seq_len] slices fewer, so the pool never regrows; and a run adds at
  most as many sequences as the remaining slices allow. *)
Theorem exhausted_case_produces_nothing_more :
  (∀ fuel ifuel available sequences g,
     _len_of_values available < seq_len →
     greedy_loop fuel ifuel available sequences g = Ok (sequences, g)) ∧
  (∀ fuel available g c g',
     generate_candidate fuel available g = Ok (c, g') →
     (∀ m : nat, c.2 !!! m ⊆+ available !!! m) ∧
     _len_of_values c.2 = _len_of_values available - seq_len ∧
     _len_of_values c.2 ≤ _len_of_values available) ∧
  (∀ fuel ifuel available sequences g sequences' g',
     greedy_loop fuel ifuel available sequences g = Ok (sequences', g') →
     ∃ new, sequences' = sequences ++ new ∧
       seq_len * Z.of_nat (length new) ≤ _len_of_values available).
Proof.
  split; [|split].
  - intros. by apply greedy_loop_exhausted.
  - intros fuel available g c g' H.
    apply generate_candidate_Ok in H as (Hl & _ & _ & Hperm & Htot & _).
    split; [|split; [done|]].
    + intros m. rewrite (Hperm m). apply submseteq_inserts_l. done.
    + pose proof (len_of_values_nonneg (dict_values (seq_slices c.1.2))). lia.
  - intros fuel ifuel available sequences g sequences' g' H.
    apply greedy_loop_Ok in H as (new & available' & -> & _ & _ & _ & Htot).
    exists new. split; [done|].
    pose proof (len_of_values_nonneg available'). lia.
Qed.

End WorkerFacts.

Section CollectFacts.
Lemma collect_Ok fs order coll0 coll :
  collect fs order coll0 = Ok coll →
  ∀ key sequences, coll !! key = Some sequences →
    coll0 !! key = Some sequences ∨
    ∃ i : nat, i ∈ order ∧ fs !! i = Some (key, Ok sequences).
Proof.
  revert coll0. induction order as [|i order IH]; intros coll0; simpl.
  - intros [= <-]. by left.
  - destruct (fs !! i) as [[key' [v|e|]]|] eqn:E; try done.
    + intros H key sequences Hk.
      destruct (IH _ H key sequences Hk) as [Hl|(j & Hj & Hf)].
      * destruct (decide (key' = key)) as [->|Hne].
        -- rewrite lookup_insert_eq in Hl. injection Hl as ->.
           right. exists i. split; [by left|done].
        -- rewrite lookup_insert_ne in Hl by done. by left.
      * right. exists j. split; [by right|done].
    + intros H key sequences Hk.
      destruct (IH _ H key sequences Hk) as [Hl|(j & Hj & Hf)]; [by left|].
      right. exists j. split; [by right|done].
Qed.

Lemma collect_Raise fs order coll0 e :
  collect fs order coll0 = Raise e →
  ∃ (i : nat) key, i ∈ order ∧ fs !! i = Some (key, Raise e).
Proof.
  revert coll0. induction order as [|i order IH]; intros coll0; simpl; [done|].
  destruct (fs !! i) as [[key' [v|e'|]]|] eqn:E; try done.
  - intros (j & key & Hj & Hf)%IH. exists j, key. split; [by right|done].
  - intros [= ->]. exists i, key'. split; [by left|done].
  - intros (j & key & Hj & Hf)%IH. exists j, key. split; [by right|done].
Qed.
End CollectFacts.

Section CallFacts.
Context `{RS : RandomSource}.
Variable dataloader : DataLoader.
Variables (seed seq_len : Z) (mean_slices_per_mha : Qc) (max_slices_per_mha : Z).
Variable q : Qc.

Local Abbreviation _generate_sequences :=
  (Sequencer._generate_sequences dataloader seed seq_len mean_slices_per_mha
     max_slices_per_mha q).
Local Abbreviation futures :=
  (Sequencer.futures dataloader seed seq_len mean_slices_per_mha max_slices_per_mha q).
Local Abbreviation generate_sequences :=
  (Sequencer.generate_sequences dataloader seed seq_len mean_slices_per_mha
     max_slices_per_mha q).

Lemma futures_lookup fuel entropy (i : nat) key r :
  futures fuel entropy !! i = Some (key, r) ↔
  keys dataloader !! i = Some key ∧ r = _generate_sequences fuel (entropy i) key.
Proof.
  unfold Sequencer.futures. rewrite list_lookup_imap.
  destruct (keys dataloader !! i) as [k|]; simpl; [|naive_solver].
  split; [by intros [= -> <-]|by intros [[= ->] ->]].
Qed.

Lemma ranges_NoDup (shp : list Z) (m : nat) :
  NoDup (((λ n, seqZ 0 n) <$> shp) !!! m).
Proof.
  rewrite list_lookup_total_alt, list_lookup_fmap.
  destruct (shp !! m); simpl; [apply NoDup_seqZ|constructor].
Qed.

(** What a worker that returns has produced. *)
Lemma _generate_sequences_Ok fuel entropy case sequences :
  _generate_sequences fuel entropy case = Ok sequences →
  ∃ (shp : list Z) (pool : list (list Z)),
    shapes dataloader case = Some shp ∧
    (∀ m : nat, ((λ n, seqZ 0 n) <$> shp) !!! m ≡ₚ used m sequences ++ pool !!! m) ∧
    Forall (λ s, _len_of_values (dict_values (seq_slices s)) = seq_len ∧
                 seq_case s = case) sequences.
Proof.
  unfold Sequencer._generate_sequences.
  destruct (if bool_decide (0 ≤ seed) then _ else _) as [r| |]; try done.
  destruct (shapes dataloader case) as [shp|]; [|done].
  destruct (Sequencer.greedy_loop _ _ _ _ _ _ _ _ _ _ r) as [[seqs g']| |] eqn:E; try done.
  intros [= <-].
  apply greedy_loop_Ok in E as (new & pool & -> & _ & Hperm & Hall & _).
  exists shp, pool. by rewrite app_nil_l.
Qed.

Lemma generate_sequences_Ok fuel entropy order coll case sequences :
  generate_sequences fuel entropy order = Ok coll →
  coll !! case = Some sequences →
  ∃ i : nat, keys dataloader !! i = Some case ∧
    _generate_sequences fuel (entropy i) case = Ok sequences.
Proof.
  unfold Sequencer.generate_sequences.
  destruct (existsb _ _); [done|]. intros Hc Hl.
  destruct (collect_Ok _ _ _ _ Hc _ _ Hl) as [He|(i & _ & Hf)]; [done|].
  apply futures_lookup in Hf as [Hk Hr]. by exists i.
Qed.
End CallFacts.

Section CallFacts2.
Context `{RS : RandomSource}.
Variable dataloader : DataLoader.
Variables (seed seq_len : Z) (mean_slices_per_mha : Qc) (max_slices_per_mha : Z).
Variable q : Qc.

Local Abbreviation _generate_sequences :=
  (Sequencer._generate_sequences dataloader seed seq_len mean_slices_per_mha
     max_slices_per_mha q).
Local Abbreviation generate_sequences :=
  (Sequencer.generate_sequences dataloader seed seq_len mean_slices_per_mha
     max_slices_per_mha q).

Lemma _generate_sequences_no_assert fuel entropy case :
  0 ≤ seq_len → _generate_sequences fuel entropy case ≠ Raise AssertionError.
Proof.
  intros Hsl. unfold Sequencer._generate_sequences.
  destruct (if bool_decide (0 ≤ seed) then _ else _) as [r| |] eqn:Er.
  - destruct (shapes dataloader case) as [shp|]; [|done].
    destruct (Sequencer.greedy_loop _ _ _ _ _ _ _ _ _ _ r) as [[seqs g']| |] eqn:E; try done.
    intros [= ->]. by apply greedy_loop_no_assert in E.
  - case_bool_decide; [|done]. destruct (_ !! case); [done|]. by injection Er as <-.
  - done.
Qed.

(** C1.  Every sequence of the collection [generate_sequences] returns has
  exactly [seq_len] slice indices over all its [(round, modality)] entries;
  and for a sequence length in the documented range (it is not negative)
  the assertion on the length of a candidate never fires. *)
Theorem accepted_sequences_have_seq_len fuel entropy order :
  (∀ coll case sequences s,
     generate_sequences fuel entropy order = Ok coll →
     coll !! case = Some sequences → s ∈ sequences →
     _len_of_values (dict_values (seq_slices s)) = seq_len) ∧
  (0 ≤ seq_len → generate_sequences fuel entropy order ≠ Raise AssertionError).
Proof.
  split.
  - intros coll case sequences s Hg Hc Hs.
    destruct (generate_sequences_Ok _ _ _ _ _ _ _ _ _ _ _ _ Hg Hc) as (i & _ & Hw).
    apply _generate_sequences_Ok in Hw as (shp & pool & _ & _ & Hall).
    rewrite Forall_forall in Hall. by apply Hall.
  - intros Hsl. unfold Sequencer.generate_sequences.
    destruct (existsb _ _); [done|].
    intros (i & key & _ & Hf)%collect_Raise.
    apply futures_lookup in Hf as [_ Hr]. symmetry in Hr.
    by apply _generate_sequences_no_assert in Hr.
Qed.
End CallFacts2.

Section CallFacts3.
Context `{RS : RandomSource}.
Variable dataloader : DataLoader.
Variables (seed seq_len : Z) (mean_slices_per_mha : Qc) (max_slices_per_mha : Z).
Variable q : Qc.

Local Abbreviation generate_sequences :=
  (Sequencer.generate_sequences dataloader seed seq_len mean_slices_per_mha
     max_slices_per_mha q).

Lemma NoDup_concat_lookup {A} (ls : list (list A)) (i j : nat) a b x :
  NoDup (concat ls) → i ≠ j → ls !! i = Some a → ls !! j = Some b →
  x ∈ a → x ∉ b.
Proof.
  revert i j. induction ls as [|l ls IH]; intros i j Hnd Hij Hi Hj Ha Hb; [done|].
  simpl in Hnd. apply NoDup_app in Hnd as (Hl & Hdis & Hrest).
  destruct i as [|i], j as [|j]; simpl in *; simplify_eq.
  - eapply Hdis; [done|]. apply list_elem_of_In, in_concat.
    exists b. split; apply list_elem_of_In; [by eapply list_elem_of_lookup_2|done].
  - eapply Hdis; [done|]. apply list_elem_of_In, in_concat.
    exists a. split; apply list_elem_of_In; [by eapply list_elem_of_lookup_2|done].
  - eapply (IH i j); eauto.
Qed.

(** C2.  Within a case, the slice indices of a modality are used at most once
  over all accepted sequences: their concatenation has no duplicate, and
  two different accepted sequences share no index of the same modality. *)
Theorem no_slice_reused_across_sequences fuel entropy order coll case sequences :
  generate_sequences fuel entropy order = Ok coll →
  coll !! case = Some sequences →
  ∀ m : nat,
    NoDup (used m sequences) ∧
    ∀ (i j : nat) s1 s2 x,
      i ≠ j → sequences !! i = Some s1 → sequences !! j = Some s2 →
      x ∈ indices_of m (seq_slices s1) → x ∉ indices_of m (seq_slices s2).
Proof.
  intros Hg Hc m.
  destruct (generate_sequences_Ok _ _ _ _ _ _ _ _ _ _ _ _ Hg Hc) as (i & _ & Hw).
  apply _generate_sequences_Ok in Hw as (shp & pool & _ & Hperm & _).
  assert (Hnd : NoDup (used m sequences)).
  { pose proof (ranges_NoDup shp m) as Hnd. rewrite (Hperm m) in Hnd.
    by apply NoDup_app in Hnd as [? _]. }
  split; [done|]. intros i' j' s1 s2 x Hij H1 H2.
  eapply (NoDup_concat_lookup _ i' j'); [exact Hnd|done| |];
    rewrite list_lookup_fmap; [by rewrite H1|by rewrite H2].
Qed.
End CallFacts3.

Section SchedulerFacts.
Implicit Types (fs : list (string * res (list Sequence))) (order : list nat).

Lemma collect_is_Ok fs order coll0 :
  (∀ (i : nat) key r, i ∈ order → fs !! i = Some (key, r) → ∃ v, r = Ok v) →
  ∃ coll, collect fs order coll0 = Ok coll.
Proof.
  revert coll0. induction order as [|i order IH]; intros coll0 Hall; simpl; [by eexists|].
  destruct (fs !! i) as [[key r]|] eqn:E.
  - destruct (Hall i key r) as [v ->]; [by left|done|].
    apply IH. intros j key' r' Hj. apply Hall. by right.
  - apply IH. intros j key' r' Hj. apply Hall. by right.
Qed.

Lemma collect_Ok_all fs order coll0 coll :
  collect fs order coll0 = Ok coll →
  ∀ (i : nat) key r, i ∈ order → fs !! i = Some (key, r) → ∃ v, r = Ok v.
Proof.
  revert coll0. induction order as [|i order IH]; intros coll0; simpl.
  - intros _ j key r Hj. by apply elem_of_nil in Hj.
  - destruct (fs !! i) as [[key' [v|e|]]|] eqn:E; try done.
    + intros H j key r [->|Hj]%elem_of_cons Hf; [|by eapply IH].
      rewrite E in Hf. injection Hf as -> <-. by eexists.
    + intros H j key r [->|Hj]%elem_of_cons Hf; [congruence|by eapply IH].
Qed.

Lemma collect_key_stable fs order coll0 coll key v :
  collect fs order coll0 = Ok coll →
  coll0 !! key = Some v →
  (∀ (j : nat) v', j ∈ order → fs !! j = Some (key, Ok v') → v' = v) →
  coll !! key = Some v.
Proof.
  revert coll0. induction order as [|i order IH]; intros coll0; simpl.
  - by intros [= <-].
  - destruct (fs !! i) as [[key' [v'|e|]]|] eqn:E; try done.
    + intros H H0 Hsame. eapply IH; [exact H| |].
      * destruct (decide (key' = key)) as [->|Hne].
        -- rewrite lookup_insert_eq. f_equal. eapply Hsame; [by left|done].
        -- by rewrite lookup_insert_ne.
      * intros j v'' Hj. apply Hsame. by right.
    + intros H H0 Hsame. eapply IH; [exact H|done|].
      intros j v'' Hj. apply Hsame. by right.
Qed.

Lemma collect_lookup_intro fs order coll0 coll (i : nat) key v :
  functional fs →
  collect fs order coll0 = Ok coll →
  i ∈ order → fs !! i = Some (key, Ok v) → coll !! key = Some v.
Proof.
  intros Hfun. revert coll0. induction order as [|j order IH]; intros coll0; simpl.
  - intros _ Hi. by apply elem_of_nil in Hi.
  - intros H [->|Hi]%elem_of_cons Hf.
    + rewrite Hf in H. eapply collect_key_stable; [exact H|by rewrite lookup_insert_eq|].
      intros j' v' _ Hj. by injection (Hfun _ _ _ _ _ Hj Hf).
    + destruct (fs !! j) as [[key' [v'|e|]]|] eqn:E; try done; by eapply IH.
Qed.

(** The collection does not depend on the order of completion. *)
Lemma collect_perm fs order1 order2 coll :
  functional fs → order1 ≡ₚ order2 →
  collect fs order1 ∅ = Ok coll → collect fs order2 ∅ = Ok coll.
Proof.
  intros Hfun Hperm H1.
  destruct (collect_is_Ok fs order2 ∅) as [coll2 H2].
  { intros i key r Hi. eapply collect_Ok_all; [exact H1|]. by rewrite Hperm. }
  rewrite H2. f_equal. apply map_eq. intros key.
  destruct (coll !! key) as [v|] eqn:E1.
  - destruct (collect_Ok _ _ _ _ H1 _ _ E1) as [?|(i & Hi & Hf)]; [done|].
    eapply collect_lookup_intro; [done|exact H2| |exact Hf]. by rewrite <- Hperm.
  - destruct (coll2 !! key) as [v|] eqn:E2; [|done].
    destruct (collect_Ok _ _ _ _ H2 _ _ E2) as [?|(i & Hi & Hf)]; [done|].
    rewrite <- E1. symmetry.
    eapply collect_lookup_intro; [done|exact H1| |exact Hf]. by rewrite Hperm.
Qed.

(** The first future, in the order of completion, that did not return a
    list decides the outcome. *)
Lemma collect_not_Ok fs order coll0 (i : nat) key e :
  i ∈ order → fs !! i = Some (key, Raise e) →
  ∃ (j : nat) key' r, j ∈ order ∧ fs !! j = Some (key', r) ∧
    (∀ v, r ≠ Ok v) ∧
    collect fs order coll0 = match r with Raise e' => Raise e' | _ => OutOfFuel end.
Proof.
  revert coll0. induction order as [|j order IH]; intros coll0 Hi Hf; simpl.
  - by apply elem_of_nil in Hi.
  - destruct (fs !! j) as [[key' [v|e'|]]|] eqn:E.
    + apply elem_of_cons in Hi as [->|Hi]; [congruence|].
      destruct (IH (<[key' := v]> coll0) Hi Hf) as (j' & k' & r & Hj' & Hfj & Hr & Hc).
      exists j', k', r. split; [by right|done].
    + exists j, key', (Raise e'). split; [by left|done].
    + exists j, key', OutOfFuel. split; [by left|done].
    + apply elem_of_cons in Hi as [->|Hi]; [congruence|].
      destruct (IH coll0 Hi Hf) as (j' & k' & r & Hj' & Hfj & Hr & Hc).
      exists j', k', r. split; [by right|done].
Qed.

Lemma seeds_from_notin seed s ks d case :
  case ∉ ks → seeds_from seed s ks d !! case = d !! case.
Proof.
  revert s d. induction ks as [|k ks IH]; intros s d Hnin; simpl; [done|].
  apply not_elem_of_cons in Hnin as [Hne Hnin].
  rewrite IH by done. by rewrite lookup_insert_ne.
Qed.

Lemma seeds_from_lookup seed s ks d (i : nat) case :
  NoDup ks → ks !! i = Some case →
  seeds_from seed s ks d !! case = Some (seed + Z.of_nat (s + i)).
Proof.
  revert s d i. induction ks as [|k ks IH]; intros s d i Hnd Hi; [done|].
  apply NoDup_cons in Hnd as [Hk Hnd]. destruct i as [|i]; simpl in *.
  - injection Hi as ->. rewrite seeds_from_notin by done.
    rewrite lookup_insert_eq. do 2 f_equal. lia.
  - rewrite (IH _ _ i) by done. do 2 f_equal. lia.
Qed.

Lemma seeds_from_is_Some seed s ks d case :
  case ∈ ks → is_Some (seeds_from seed s ks d !! case).
Proof.
  revert s d. induction ks as [|k ks IH]; intros s d Hin; simpl.
  - by apply elem_of_nil in Hin.
  - destruct (decide (case ∈ ks)) as [Hin'|Hnin]; [by apply IH|].
    apply elem_of_cons in Hin as [->|?]; [|done].
    rewrite seeds_from_notin by done. rewrite lookup_insert_eq. by eexists.
Qed.
End SchedulerFacts.

Section CallFacts4.
Context `{RS : RandomSource}.
Variable dataloader : DataLoader.
Variables (seed seq_len : Z) (mean_slices_per_mha : Qc) (max_slices_per_mha : Z).
Variable q : Qc.

Local Abbreviation _generate_sequences :=
  (Sequencer._generate_sequences dataloader seed seq_len mean_slices_per_mha
     max_slices_per_mha q).
Local Abbreviation futures :=
  (Sequencer.futures dataloader seed seq_len mean_slices_per_mha max_slices_per_mha q).
Local Abbreviation generate_sequences :=
  (Sequencer.generate_sequences dataloader seed seq_len mean_slices_per_mha
     max_slices_per_mha q).

Lemma _generate_sequences_seeded fuel entropy1 entropy2 case :
  0 ≤ seed →
  _generate_sequences fuel entropy1 case = _generate_sequences fuel entropy2 case.
Proof. intros Hs. unfold Sequencer._generate_sequences. by rewrite bool_decide_eq_true_2. Qed.

Lemma futures_seeded fuel entropy1 entropy2 :
  0 ≤ seed → futures fuel entropy1 = futures fuel entropy2.
Proof.
  intros Hs. unfold Sequencer.futures. apply imap_ext. intros i key _.
  f_equal. by apply _generate_sequences_seeded.
Qed.

Lemma futures_functional fuel entropy :
  0 ≤ seed → functional (futures fuel entropy).
Proof.
  intros Hs i j key r1 r2 [_ ->]%futures_lookup [_ ->]%futures_lookup.
  by apply _generate_sequences_seeded.
Qed.

(** C3.  With a seed that is not negative: the seed of the case at position
  [i] of the enumeration is [seed + i]; the worker of that case is the
  greedy loop run from [default_rng (seed + i)], whatever the entropy of
  the host and the other cases; and two calls return the same collection,
  whatever the entropy and the order in which the futures complete. *)
Theorem seeded_generation_is_deterministic :
  0 ≤ seed →
  (∀ (i : nat) case,
     NoDup (keys dataloader) → keys dataloader !! i = Some case →
     Sequencer.seeds dataloader seed !! case = Some (seed + Z.of_nat i)) ∧
  (∀ fuel entropy (i : nat) case,
     NoDup (keys dataloader) → keys dataloader !! i = Some case →
     _generate_sequences fuel entropy case
     = match shapes dataloader case with
       | None => Raise LookupFailure
       | Some shp =>
           match Sequencer.greedy_loop seq_len mean_slices_per_mha max_slices_per_mha
                   (Sequencer.target seq_len q) case ((λ n, seqZ 0 n) <$> shp)
                   fuel fuel ((λ n, seqZ 0 n) <$> shp) []
                   (default_rng (seed + Z.of_nat i)) with
           | Ok (sequences, _) => Ok sequences
           | Raise e => Raise e
           | OutOfFuel => OutOfFuel
           end
       end) ∧
  (∀ fuel entropy1 entropy2 order1 order2 coll,
     order1 ≡ₚ seq 0 (length (keys dataloader)) →
     order2 ≡ₚ seq 0 (length (keys dataloader)) →
     generate_sequences fuel entropy1 order1 = Ok coll →
     generate_sequences fuel entropy2 order2 = Ok coll).
Proof.
  intros Hs. split; [|split].
  - intros i case Hnd Hi. unfold Sequencer.seeds.
    by rewrite (seeds_from_lookup _ _ _ _ i).
  - intros fuel entropy i case Hnd Hi. unfold Sequencer._generate_sequences.
    rewrite bool_decide_eq_true_2 by done.
    unfold Sequencer.seeds. by rewrite (seeds_from_lookup _ _ _ _ i).
  - intros fuel entropy1 entropy2 order1 order2 coll H1 H2.
    unfold Sequencer.generate_sequences.
    rewrite (futures_seeded fuel entropy1 entropy2) by done.
    destruct (existsb _ _); [done|].
    apply collect_perm; [by apply futures_functional|]. by rewrite H1, H2.
Qed.

Lemma existsb_out_of_fuel_false fuel entropy :
  (∀ (j : nat) key, keys dataloader !! j = Some key →
     _generate_sequences fuel (entropy j) key ≠ OutOfFuel) →
  existsb (λ f, is_out_of_fuel f.2) (futures fuel entropy) = false.
Proof.
  intros Hall. apply not_true_is_false. intros H.
  apply existsb_exists in H as ([key r] & Hin & Hr).
  apply list_elem_of_In, list_elem_of_lookup in Hin as [j Hj].
  apply futures_lookup in Hj as [Hk ->]. simpl in Hr.
  specialize (Hall j key Hk). by destruct (_generate_sequences _ _ _).
Qed.

(** C9.  When the worker of a case raises, the call returns no collection;
  when every worker returns or raises, the call raises the error of a
  failed worker, and the error of this one when it is the only one to fail.
  A case whose shapes cannot be looked up makes its worker raise. *)
Theorem failed_case_fails_the_call fuel entropy order :
  order ≡ₚ seq 0 (length (keys dataloader)) →
  (∀ (i : nat) case e,
     keys dataloader !! i = Some case →
     _generate_sequences fuel (entropy i) case = Raise e →
     (∀ coll, generate_sequences fuel entropy order ≠ Ok coll) ∧
     ((∀ (j : nat) key, keys dataloader !! j = Some key →
         _generate_sequences fuel (entropy j) key ≠ OutOfFuel) →
      ∃ (j : nat) key e',
        keys dataloader !! j = Some key ∧
        _generate_sequences fuel (entropy j) key = Raise e' ∧
        generate_sequences fuel entropy order = Raise e') ∧
     ((∀ (j : nat) key, j ≠ i → keys dataloader !! j = Some key →
         ∃ v, _generate_sequences fuel (entropy j) key = Ok v) →
      generate_sequences fuel entropy order = Raise e)) ∧
  (∀ (i : nat) case,
     keys dataloader !! i = Some case → shapes dataloader case = None →
     _generate_sequences fuel (entropy i) case = Raise LookupFailure).
Proof.
  intros Hperm. split.
  - intros i case e Hi Hr.
    assert (Hin : i ∈ order).
    { rewrite Hperm. apply elem_of_seq. apply lookup_lt_Some in Hi. lia. }
    assert (Hf : futures fuel entropy !! i = Some (case, Raise e)).
    { by apply futures_lookup. }
    destruct (collect_not_Ok _ order ∅ i case e Hin Hf) as (j & key & r & Hj & Hfj & Hr' & Hc).
    apply futures_lookup in Hfj as [Hkj Hrj].
    split; [|split].
    + intros coll. unfold Sequencer.generate_sequences.
      destruct (existsb _ _); [done|]. rewrite Hc. by destruct r.
    + intros Hall. unfold Sequencer.generate_sequences.
      rewrite existsb_out_of_fuel_false by done. rewrite Hc.
      destruct r as [v|e'|]; [by destruct (Hr' v)| |by destruct (Hall j key Hkj)].
      by exists j, key, e'.
    + intros Hothers. unfold Sequencer.generate_sequences.
      rewrite existsb_out_of_fuel_false.
      * rewrite Hc. destruct (decide (j = i)) as [->|Hne].
        -- assert (key = case) as -> by congruence. rewrite Hrj, Hr. done.
        -- destruct (Hothers j key Hne Hkj) as [v Hv]. rewrite Hrj, Hv in Hr'.
           by destruct (Hr' v).
      * intros j' key' Hk'. destruct (decide (j' = i)) as [->|Hne].
        -- assert (key' = case) as -> by congruence. by rewrite Hr.
        -- destruct (Hothers j' key' Hne Hk') as [v ->]. done.
  - intros i case Hi Hnone. unfold Sequencer._generate_sequences.
    rewrite Hnone. case_bool_decide; [|done].
    destruct (seeds_from_is_Some seed 0 (keys dataloader) ∅ case) as [s Hs];
      [by eapply list_elem_of_lookup_2|].
    unfold Sequencer.seeds. by rewrite Hs.
Qed.
End CallFacts4.

Section QualityFacts.
Lemma Qc_of_Z_pos z : 0 < z → (0 < Qc_of_Z z)%Qc.
Proof. intros Hz. unfold Qclt, Qc_of_Z, Qlt. simpl. lia. Qed.

Lemma Qc_recip_pos (x : Qc) : (0 < x)%Qc → (0 < 1 / x)%Qc.
Proof.
  intros Hx. unfold Qcdiv. rewrite Qcmult_1_l.
  unfold Qclt in *. unfold Qcinv. cbn [this Q2Qc].
  rewrite (Qred_correct (/ x)).
  apply Qinv_lt_0_compat. exact Hx.
Qed.

Lemma np_power2_small e : 0 ≤ e ≤ 62 → np_power2 e = 2 ^ e.
Proof.
  intros He. unfold np_power2, int64_wrap.
  assert (0 < 2 ^ e) by (apply Z.pow_pos_nonneg; lia).
  assert (2 ^ e ≤ 2 ^ 62) by (apply Z.pow_le_mono_r; lia).
  rewrite Z.mod_small; lia.
Qed.

Lemma ideal_quality_pos i : (0 < ideal_quality i)%Qc.
Proof.
  unfold ideal_quality. apply Qc_recip_pos, Qc_of_Z_pos.
  apply Z.pow_pos_nonneg; lia.
Qed.

(** Where [2^|i-2|] fits [int64], the quality is as documented. *)
Lemma slice_quality_small i : -60 ≤ i ≤ 64 → slice_quality i = Fin (ideal_quality i).
Proof.
  intros Hi. unfold slice_quality, np_true_divide1, ideal_quality.
  rewrite np_power2_small by lia.
  assert (0 < 2 ^ Z.abs (i - 2)) by (apply Z.pow_pos_nonneg; lia).
  rewrite bool_decide_eq_false_2 by lia. done.
Qed.

Lemma fmask_true a : fmask a true = a.
Proof. by destruct a. Qed.

Lemma fadd_comm a b : fadd a b = fadd b a.
Proof. destruct a, b; simpl; try done. by rewrite Qcplus_comm. Qed.

Lemma fadd_assoc a b c : fadd a (fadd b c) = fadd (fadd a b) c.
Proof. destruct a, b, c; simpl; try done. by rewrite Qcplus_assoc. Qed.

Lemma fadd_0_l a : fadd (Fin 0%Qc) a = a.
Proof. destruct a; simpl; try done. by rewrite Qcplus_0_l. Qed.

Lemma fsum_app l1 l2 : fsum (l1 ++ l2) = fadd (fsum l1) (fsum l2).
Proof.
  induction l1 as [|a l1 IH]; [symmetry; apply fadd_0_l|].
  cbn [app fsum]. by rewrite IH, fadd_assoc.
Qed.

Lemma fsum_perm l1 l2 : l1 ≡ₚ l2 → fsum l1 = fsum l2.
Proof.
  induction 1 as [|a l1 l2 _ IH|a b l|l1 l2 l3 _ IH1 _ IH2].
  - done.
  - cbn [fsum]. by rewrite IH.
  - cbn [fsum]. by rewrite !fadd_assoc, (fadd_comm a b).
  - by rewrite IH1.
Qed.

Lemma fsum_Fin l : fsum (Fin <$> l) = Fin (qsum l).
Proof. induction l as [|x l IH]; [done|]. cbn [fmap list_fmap fsum qsum]. by rewrite IH. Qed.

Lemma qsum_nonneg l : Forall (λ x, 0 ≤ x)%Qc l → (0 ≤ qsum l)%Qc.
Proof.
  induction 1 as [|x l Hx _ IH]; simpl; [done|]. by apply Qcplus_nonneg_nonneg.
Qed.

Lemma qsum_pos l x :
  Forall (λ x, 0 ≤ x)%Qc l → x ∈ l → (0 < x)%Qc → (0 < qsum l)%Qc.
Proof.
  intros Hall Hin Hx. induction Hall as [|y l Hy Hall IH]; simpl.
  - by apply elem_of_nil in Hin.
  - apply elem_of_cons in Hin as [<-|Hin].
    + apply Qcplus_pos_nonneg; [done|by apply qsum_nonneg].
    + apply Qcplus_nonneg_pos; [done|by apply IH].
Qed.
End QualityFacts.

Section DrawFacts.
Context `{RS : RandomSource}.

Lemma Qcdiv_pos (a s : Qc) : (0 < a)%Qc → (0 < s)%Qc → (0 < a / s)%Qc.
Proof.
  intros Ha Hs. unfold Qcdiv.
  assert (0 < / s)%Qc as Hi.
  { rewrite <- (Qcmult_1_l (/ s)). by apply Qc_recip_pos. }
  rewrite <- (Qcmult_0_l (/ s)). by apply Qcmult_lt_compat_r.
Qed.

Lemma Qcdiv_0_l (s : Qc) : (0 / s)%Qc = 0%Qc.
Proof. unfold Qcdiv. apply Qcmult_0_l. Qed.

Lemma count_nonzero_fmap (v : Z → Qc) (P : Z → Prop) `{!∀ x, Decision (P x)} l :
  (∀ x, x ∈ l → (0 < v x)%Qc ↔ P x) →
  count_nonzero (v <$> l) = length (filter P l).
Proof.
  unfold count_nonzero. induction l as [|x l IH]; intros Hiff; [done|].
  rewrite fmap_cons, !filter_cons.
  assert (Hl : ∀ y, y ∈ l → (0 < v y)%Qc ↔ P y) by (intros; apply Hiff; by right).
  destruct (decide (P x)) as [HP|HP].
  - rewrite decide_True by (apply Hiff; [by left|done]). simpl. by rewrite IH.
  - rewrite decide_False by (rewrite Hiff; [done|by left]). by apply IH.
Qed.

(** Positive finite weights on the available indices make valid
    probabilities, nonzero exactly on those indices. *)
Lemma weights_valid (h : Z → float) (w : Z → Qc) (slices_m avail_m : list Z) :
  (∀ x, x ∈ slices_m → h x = Fin (w x) ∧ (0 < w x)%Qc) →
  (∃ x, x ∈ slices_m ∧ x ∈ avail_m) →
  ∃ p,
    probabilities (zip_with fmask (h <$> slices_m)
                     ((λ x, bool_decide (x ∈ avail_m)) <$> slices_m)) = Some p ∧
    length p = length slices_m ∧
    count_nonzero p = length (filter (λ x, x ∈ avail_m) slices_m).
Proof.
  intros Hw (x0 & Hx0 & Hx0a).
  set (v := λ x : Z, if bool_decide (x ∈ avail_m) then w x else 0%Qc).
  assert (Hmp : zip_with fmask (h <$> slices_m)
                  ((λ x, bool_decide (x ∈ avail_m)) <$> slices_m)
                = Fin <$> (v <$> slices_m)).
  { rewrite zip_with_fmap_l, zip_with_fmap_r, zip_with_diag, <- list_fmap_compose.
    apply list_fmap_ext. intros i x Hx. simpl.
    destruct (Hw x) as [-> _]; [by eapply list_elem_of_lookup_2|]. done. }
  assert (Hnn : Forall (λ y, 0 ≤ y)%Qc (v <$> slices_m)).
  { apply Forall_fmap, Forall_forall. intros x Hx. unfold v. simpl.
    case_bool_decide; [|done]. apply Qclt_le_weak. by apply Hw. }
  assert (Hs : (0 < qsum (v <$> slices_m))%Qc).
  { apply (qsum_pos _ (v x0)); [done|by apply list_elem_of_fmap_2|].
    unfold v. rewrite bool_decide_eq_true_2 by done. by apply Hw. }
  set (s := qsum (v <$> slices_m)) in *.
  exists ((λ x, v x / s)%Qc <$> slices_m).
  rewrite Hmp. unfold probabilities. rewrite fsum_Fin. fold s.
  rewrite bool_decide_eq_false_2 by (by apply not_eq_sym, Qclt_not_eq).
  rewrite <- !list_fmap_compose.
  rewrite bool_decide_eq_true_2.
  - split; [done|]. split; [by rewrite length_fmap|].
    apply count_nonzero_fmap. intros x Hx. unfold v.
    case_bool_decide as Hin.
    + split; [done|]. intros _. apply Qcdiv_pos; [by apply Hw|done].
    + rewrite Qcdiv_0_l. split; [by intros ?%Qclt_not_eq|done].
  - apply Forall_fmap, Forall_forall. intros x Hx. simpl. unfold v.
    case_bool_decide.
    + apply Qclt_le_weak, Qcdiv_pos; [by apply Hw|done].
    + by rewrite Qcdiv_0_l.
Qed.

Lemma filter_available (slices_m avail_m : list Z) :
  NoDup slices_m → NoDup avail_m → (∀ x, x ∈ avail_m → x ∈ slices_m) →
  length (filter (λ x, x ∈ avail_m) slices_m) = length avail_m.
Proof.
  intros Hs Ha Hsub. apply Permutation_length, NoDup_Permutation; [by apply NoDup_filter|done|].
  intros x. rewrite list_elem_of_filter. naive_solver.
Qed.

(** A draw whose arguments pass NumPy's checks returns. *)
Lemma np_choice_succeeds (a : list Z) size m_p p g :
  probabilities m_p = Some p → length p = length a →
  0 ≤ size ≤ Z.of_nat (count_nonzero p) →
  ∃ sel g', np_choice a size m_p g = Ok (sel, g') ∧ (size = 0 → g' = g).
Proof.
  intros Hp Hlen Hsz. unfold np_choice. rewrite Hp.
  rewrite bool_decide_eq_false_2 by lia.
  case_bool_decide as H0; [by eexists _, _|].
  destruct (rng_choice p (Z.to_nat size) g) as [idx g'] eqn:E.
  destruct (rng_choice_spec p (Z.to_nat size) g) as (_ & _ & Hpos).
  { unfold count_nonzero in Hsz. lia. }
  rewrite E in Hpos. simpl in Hpos.
  destruct (mapM_is_Some_2 (λ i : nat, a !! i) idx) as [v ->].
  - apply Forall_forall. intros i Hi. destruct (Hpos i Hi) as (x & Hx & _).
    simpl. apply lookup_lt_is_Some. apply lookup_lt_Some in Hx. lia.
  - exists v, g'. split; [done|lia].
Qed.
End DrawFacts.

Section Progress.
Context `{RS : RandomSource}.
Variables (seq_len : Z) (mean_slices_per_mha : Qc) (max_slices_per_mha : Z).
Variable q : Qc.
Variable case : string.
Variable shp : list Z.

Local Abbreviation slices := ((λ n, seqZ 0 n) <$> shp).
Local Abbreviation take_slices :=
  (Sequencer.take_slices seq_len mean_slices_per_mha max_slices_per_mha slices).
Local Abbreviation candidate_step :=
  (Sequencer.candidate_step seq_len mean_slices_per_mha max_slices_per_mha slices).
Local Abbreviation candidate_loop :=
  (Sequencer.candidate_loop seq_len mean_slices_per_mha max_slices_per_mha slices).
Local Abbreviation c_len := (λ st, _len_of_values (dict_values (c_sequence st))).

Lemma pool_ok_lookup available (m : nat) avail_m :
  pool_ok shp available → available !! m = Some avail_m →
  ∃ n, shp !! m = Some n ∧ n ≤ 65 ∧ NoDup avail_m ∧ ∀ x, x ∈ avail_m → 0 ≤ x < n.
Proof.
  intros Hok Ha. destruct (Forall2_lookup_r _ _ _ _ _ Hok Ha) as (n & Hn & H).
  by exists n.
Qed.

Lemma weights_of_turn n_slices n avail_m :
  n ≤ 65 → avail_m ≠ [] → (∀ x, x ∈ avail_m → 0 ≤ x < n) → NoDup avail_m →
  ∃ p, probabilities (m_p_of n_slices (seqZ 0 n) avail_m) = Some p ∧
    length p = length (seqZ 0 n) ∧ count_nonzero p = length avail_m.
Proof.
  intros Hn Hne Hin Hnd.
  assert (Hex : ∃ x, x ∈ seqZ 0 n ∧ x ∈ avail_m).
  { destruct avail_m as [|x l]; [done|]. exists x. split; [|by left].
    apply elem_of_seqZ. specialize (Hin x ltac:(by left)). lia. }
  assert (Hsub : ∀ x, x ∈ avail_m → x ∈ seqZ 0 n).
  { intros x Hx. apply elem_of_seqZ. specialize (Hin x Hx). lia. }
  unfold m_p_of. case_bool_decide.
  - destruct (weights_valid slice_quality ideal_quality (seqZ 0 n) avail_m)
      as (p & Hp & Hl & Hc); [|done|].
    { intros x Hx%elem_of_seqZ. split; [apply slice_quality_small; lia|].
      apply ideal_quality_pos. }
    exists p. unfold m_quality. rewrite Hp, Hc.
    by rewrite filter_available by (done || apply NoDup_seqZ).
  - destruct (weights_valid (λ _, Fin 1%Qc) (λ _, 1%Qc) (seqZ 0 n) avail_m)
      as (p & Hp & Hl & Hc); [done|done|].
    exists p. rewrite Hp, Hc.
    by rewrite filter_available by (done || apply NoDup_seqZ).
Qed.

Lemma quality_array_length n_slices n avail_m :
  length (if bool_decide (n_slices = 1)
          then m_p_of n_slices (seqZ 0 n) avail_m
          else m_quality (seqZ 0 n)) = Z.to_nat n.
Proof.
  unfold m_p_of, m_quality. destruct (bool_decide (n_slices = 1));
    by rewrite ?length_zip_with, ?length_fmap, ?length_seqZ, ?Nat.min_id.
Qed.

(** The draw, with its binds unfolded. *)
Lemma take_slices_eq st len avail_m g :
  take_slices st len avail_m g =
  let n := n_slices_of seq_len max_slices_per_mha
             (rng_normal mean_slices_per_mha g).1 avail_m len in
  match slices !! cur_m st with
  | None => Raise KeyError
  | Some slices_m =>
      let m_p := m_p_of n slices_m avail_m in
      match np_choice slices_m n m_p (rng_normal mean_slices_per_mha g).2 with
      | Ok (sel, g2) =>
          match mapM (np_index (if bool_decide (n = 1) then m_p
                                else m_quality slices_m)) sel with
          | Some picked =>
              match remove_each sel avail_m with
              | Some avail_m' =>
                  Ok ({| c_quality := fadd (c_quality st) (fsum picked);
                         c_sequence :=
                           dict_set (c_sequence st) (cur_loop st, cur_m st)
                             (dict_get (c_sequence st) (cur_loop st, cur_m st) [] ++ sel);
                         c_available := <[cur_m st := avail_m']> (c_available st);
                         cur_m := cur_m st;
                         cur_loop := cur_loop st |}, g2)
              | None => Raise ValueError
              end
          | None => Raise IndexError
          end
      | Raise e => Raise e
      | OutOfFuel => OutOfFuel
      end
  end.
Proof.
  unfold Sequencer.take_slices, mbind, M_bind, normal.
  destruct (rng_normal mean_slices_per_mha g) as [z g1]. simpl.
  destruct (slices !! cur_m st) as [slices_m|]; simpl; [|done].
  unfold n_slices_of, m_p_of.
  destruct (np_choice _ _ _ g1) as [[sel g2]| |]; [|done|done].
  destruct (mapM _ sel) as [picked|]; simpl; [|done].
  by destruct (remove_each sel avail_m).
Qed.

(** With slices left for the modality, every operation of the draw is
    defined: the weights are valid probabilities, enough of them are
    nonzero, and the selected indices can be looked up and removed. *)
Lemma take_slices_succeeds st avail_m g :
  pool_ok shp (c_available st) →
  c_available st !! cur_m st = Some avail_m → avail_m ≠ [] →
  c_len st < seq_len → 0 ≤ max_slices_per_mha →
  ∃ st1 g',
    take_slices st (c_len st) avail_m g = Ok (st1, g') ∧
    pool_ok shp (c_available st1) ∧
    cur_m st1 = cur_m st ∧
    length (c_available st1) = length (c_available st) ∧
    (n_slices_of seq_len max_slices_per_mha (rng_normal mean_slices_per_mha g).1
       avail_m (c_len st) = 0 →
     g' = (rng_normal mean_slices_per_mha g).2).
Proof.
  intros Hok Ha Hne Hlt Hmax. cbv beta in *.
  destruct (pool_ok_lookup _ _ _ Hok Ha) as (n & Hn & Hn65 & Hnd & Hin).
  rewrite take_slices_eq.
  set (n_slices := n_slices_of _ _ _ _ _).
  assert (Hns : 0 ≤ n_slices ≤ Z.of_nat (length avail_m)).
  { unfold n_slices, n_slices_of, np_clip. destruct avail_m; [done|]. simpl length. lia. }
  cbv zeta. rewrite list_lookup_fmap, Hn. simpl.
  destruct (weights_of_turn n_slices n avail_m) as (p & Hp & Hl & Hc); try done.
  destruct (np_choice_succeeds (seqZ 0 n) n_slices _ p
              (rng_normal mean_slices_per_mha g).2 Hp Hl) as (sel & g' & Hch & Hg');
    [lia|].
  rewrite Hch.
  pose proof (np_choice_available _ _ _ _ _ _ _ Hch) as (Hsub & Hnds & Hlen & _).
  specialize (Hnds (NoDup_seqZ _ _)).
  destruct (mapM_is_Some_2
              (np_index (if bool_decide (n_slices = 1)
                         then m_p_of n_slices (seqZ 0 n) avail_m
                         else m_quality (seqZ 0 n))) sel) as [picked Hpk].
  { apply Forall_forall. intros s Hs. simpl. unfold np_index.
    specialize (Hin s (Hsub s Hs)).
    rewrite quality_array_length. rewrite bool_decide_eq_true_2 by lia.
    apply lookup_lt_is_Some. rewrite quality_array_length. lia. }
  rewrite Hpk.
  destruct (remove_each_is_Some sel avail_m Hnds Hsub) as [avail_m' Hrm].
  rewrite Hrm.
  eexists _, _. split; [reflexivity|]. simpl. split; [|split; [done|split]].
  - unfold pool_ok. rewrite <- (list_insert_id shp (cur_m st) n Hn).
    apply Forall2_insert; [done|].
    apply remove_each_perm in Hrm. split; [done|]. split.
    + rewrite Hrm in Hnd. by apply NoDup_app in Hnd as (_ & _ & ?).
    + intros x Hx. apply Hin. rewrite Hrm. apply elem_of_app. by right.
  - by rewrite length_insert.
  - intros H0. apply Hg'. exact H0.
Qed.

Lemma candidate_loop_done fuel st g :
  ¬ c_len st < seq_len → candidate_loop fuel st g = Ok (st, g).
Proof. intros H. destruct fuel; simpl; by rewrite bool_decide_eq_false_2. Qed.

Lemma advance_cursor_advanced st g :
  c_available st ≠ [] → Sequencer.advance_cursor st g = Ok (advanced st, g).
Proof.
  intros Hne. unfold Sequencer.advance_cursor.
  rewrite bool_decide_eq_false_2; [done|]. by destruct (c_available st).
Qed.

Lemma loop_ok_nonempty available st :
  loop_ok seq_len shp available st → c_available st ≠ [].
Proof. intros [_ _ Hc _] E. rewrite E in Hc. simpl in Hc. lia. Qed.

Lemma loop_ok_advanced available st :
  cand_inv seq_len available st → pool_ok shp (c_available st) →
  c_available st ≠ [] → seq_len ≤ _len_of_values available →
  loop_ok seq_len shp available (advanced st).
Proof.
  intros [H1 H2 H3 H4 H5] Hp Hne He. split; [by split|done| |done]. simpl.
  apply Nat.mod_upper_bound. by destruct (c_available st).
Qed.

Lemma skip_step available st g fuel :
  loop_ok seq_len shp available st → c_len st < seq_len →
  c_available st !! cur_m st = Some [] →
  candidate_loop (S fuel) st g = candidate_loop fuel (advanced st) g.
Proof.
  intros Hok Hlt Ha. simpl. rewrite bool_decide_eq_true_2 by done.
  unfold Sequencer.candidate_step, mbind, M_bind. rewrite Ha. simpl.
  by rewrite advance_cursor_advanced by (by eapply loop_ok_nonempty).
Qed.

Lemma draw_step available st g avail_m :
  loop_ok seq_len shp available st → c_len st < seq_len →
  c_available st !! cur_m st = Some avail_m → avail_m ≠ [] →
  0 ≤ max_slices_per_mha →
  let n := n_slices_of seq_len max_slices_per_mha
             (rng_normal mean_slices_per_mha g).1 avail_m (c_len st) in
  ∃ st' g',
    loop_ok seq_len shp available st' ∧
    c_len st' = c_len st + n ∧ 0 ≤ n ∧
    (n = 0 → g' = (rng_normal mean_slices_per_mha g).2) ∧
    ∀ fuel, candidate_loop (S fuel) st g = candidate_loop fuel st' g'.
Proof.
  intros Hok Hlt Ha Hne Hmax n. cbv beta in *.
  destruct Hok as [Hinv Hpool Hcur Hen].
  destruct (take_slices_succeeds st avail_m g Hpool Ha Hne Hlt Hmax)
    as (st1 & g' & Ht & Hpool1 & Hm1 & Hl1 & Hg').
  pose proof (cand_inv_take _ _ _ _ _ _ _ _ _ _ Hinv Hlt Ha Ht) as Hinv1.
  pose proof (take_slices_len _ _ _ _ _ _ _ _ _ Ht) as [Hn0 Hlen1].
  assert (Hne1 : c_available st1 ≠ []).
  { intros E. rewrite E in Hl1. simpl in Hl1. lia. }
  exists (advanced st1), g'. split; [by apply loop_ok_advanced|].
  split; [done|]. split; [done|]. split; [done|].
  intros fuel. simpl. rewrite bool_decide_eq_true_2 by done.
  unfold Sequencer.candidate_step, mbind, M_bind. rewrite Ha. simpl.
  rewrite bool_decide_eq_true_2 by (destruct avail_m; [done|simpl; lia]).
  rewrite Ht. by rewrite advance_cursor_advanced.
Qed.

Lemma some_nonempty (l : list (list Z)) :
  0 < _len_of_values l → ∃ (m : nat) av, l !! m = Some av ∧ av ≠ [].
Proof.
  unfold _len_of_values. induction l as [|x l IH]; simpl; [lia|].
  intros H. destruct x as [|y x].
  - destruct IH as (m & av & Hm & Hav); [simpl in H; lia|]. by exists (S m), av.
  - by exists 0%nat, (y :: x).
Qed.

(** The cursor reaches a modality that has slices left, drawing nothing
    on its way. *)
Lemma walk available (d : nat) : ∀ st,
  loop_ok seq_len shp available st → c_len st < seq_len →
  (∃ av, c_available st !! ((cur_m st + d) `mod` length (c_available st))%nat = Some av
         ∧ av ≠ []) →
  ∃ (d' : nat) st',
    loop_ok seq_len shp available st' ∧ c_len st' = c_len st ∧
    (∃ av, c_available st' !! cur_m st' = Some av ∧ av ≠ []) ∧
    ∀ fuel g, candidate_loop (d' + fuel) st g = candidate_loop fuel st' g.
Proof.
  induction d as [|d IH]; intros st Hok Hlt (av & Hav & Hne).
  - exists 0%nat, st. split; [done|]. split; [done|]. split; [|done].
    exists av. split; [|done].
    rewrite Nat.add_0_r, Nat.mod_small in Hav; [done|by destruct Hok].
  - destruct (c_available st !! cur_m st) as [[|y av0]|] eqn:Ecur.
    + pose proof (loop_ok_nonempty _ _ Hok) as Hnz.
      destruct Hok as [Hinv Hpool Hcur Hen].
      destruct (IH (advanced st)) as (d' & st' & Hok' & Hlen' & Hav' & Hrun).
      * by apply loop_ok_advanced.
      * done.
      * exists av. split; [|done]. simpl.
        rewrite Nat.Div0.add_mod_idemp_l.
        by replace (cur_m st + 1 + d)%nat with (cur_m st + S d)%nat by lia.
      * exists (S d'), st'. split; [done|]. split; [done|]. split; [done|].
        intros fuel g. simpl Nat.add.
        rewrite (skip_step available) by (done || by split). apply Hrun.
    + exists 0%nat, st. split; [done|]. split; [done|]. split; [|done].
      by exists (y :: av0).
    + apply lookup_ge_None in Ecur. destruct Hok. lia.
Qed.

(** From any unfinished state the loop reaches its next draw. *)
Lemma next_draw available st g :
  loop_ok seq_len shp available st → c_len st < seq_len →
  1 ≤ max_slices_per_mha →
  ∃ (d : nat) st' g' n,
    loop_ok seq_len shp available st' ∧
    c_len st' = c_len st + n ∧ 0 ≤ n ∧
    (1 ≤ (rng_normal mean_slices_per_mha g).1 → 1 ≤ n) ∧
    (n = 0 → g' = (rng_normal mean_slices_per_mha g).2) ∧
    ∀ fuel, candidate_loop (d + fuel) st g = candidate_loop fuel st' g'.
Proof.
  intros Hok Hlt Hmax. cbv beta in *.
  assert (Hpos : 0 < _len_of_values (c_available st)).
  { destruct Hok as [[_ _ Htot _ _] _ _ Hen]. lia. }
  destruct (some_nonempty _ Hpos) as (m0 & av0 & Hm0 & Hav0).
  pose proof (lookup_lt_Some _ _ _ Hm0) as Hm0lt.
  assert (Hcur : (cur_m st < length (c_available st))%nat) by (by destruct Hok).
  destruct (walk available (m0 + length (c_available st) - cur_m st) st Hok Hlt)
    as (d' & stw & Hokw & Hlenw & (av & Hav & Hne) & Hrun).
  { exists av0. split; [|done].
    replace (cur_m st + (m0 + length (c_available st) - cur_m st))%nat
      with (m0 + 1 * length (c_available st))%nat by lia.
    rewrite Nat.Div0.mod_add. by rewrite Nat.mod_small. }
  cbv beta in *.
  destruct (draw_step available stw g av Hokw) as (st' & g' & Hok' & Hlen' & Hn0 & Hg' & Hstep);
    [lia|done|done|lia|].
  cbv beta in *.
  exists (d' + 1)%nat, st', g',
    (n_slices_of seq_len max_slices_per_mha (rng_normal mean_slices_per_mha g).1 av
       (_len_of_values (dict_values (c_sequence stw)))).
  split; [done|]. split; [by rewrite Hlen', Hlenw|].
  split; [done|]. split; [|split; [done|]].
  - intros Hz. unfold n_slices_of, np_clip. destruct av; [done|]. simpl length. lia.
  - intros fuel. rewrite <- Nat.add_assoc, Hrun. apply Hstep.
Qed.

(** With a fair generator the candidate loop returns. *)
Lemma candidate_loop_terminates available :
  fair mean_slices_per_mha → 1 ≤ max_slices_per_mha →
  ∀ st g, loop_ok seq_len shp available st →
    ∃ (fuel0 : nat) st' g',
      ∀ fuel, (fuel0 ≤ fuel)%nat → candidate_loop fuel st g = Ok (st', g').
Proof.
  intros Hfair Hmax.
  assert (Hmain : ∀ (r : nat) st g,
    loop_ok seq_len shp available st → (Z.to_nat (seq_len - c_len st) ≤ r)%nat →
    ∃ (fuel0 : nat) st' g',
      ∀ fuel, (fuel0 ≤ fuel)%nat → candidate_loop fuel st g = Ok (st', g')).
  { induction r as [|r IHr]; intros st g Hok Hr.
    - exists 0%nat, st, g. intros fuel _. apply candidate_loop_done. cbv beta in *. lia.
    - destruct (decide (c_len st < seq_len)) as [Hlt|Hge];
        [|exists 0%nat, st, g; intros fuel _; by apply candidate_loop_done].
      revert st Hok Hr Hlt. induction (Hfair g) as [g Hz|g _ IHg]; intros st Hok Hr Hlt.
      + destruct (next_draw available st g Hok Hlt Hmax)
          as (d & st' & g' & n & Hok' & Hlen' & Hn0 & Hn1 & _ & Hrun).
        specialize (Hn1 Hz). cbv beta in *.
        destruct (IHr st' g' Hok') as (fuel1 & st'' & g'' & Hfin); [lia|].
        exists (d + fuel1)%nat, st'', g''. intros fuel Hfuel.
        replace fuel with (d + (fuel - d))%nat by lia. rewrite Hrun.
        apply Hfin. lia.
      + destruct (next_draw available st g Hok Hlt Hmax)
          as (d & st' & g' & n & Hok' & Hlen' & Hn0 & _ & Hg' & Hrun).
        cbv beta in *.
        destruct (decide (n = 0)) as [Hz|Hnz].
        * rewrite (Hg' Hz) in Hrun.
          destruct (IHg st' Hok') as (fuel1 & st'' & g'' & Hfin); [lia|lia|].
          exists (d + fuel1)%nat, st'', g''. intros fuel Hfuel.
          replace fuel with (d + (fuel - d))%nat by lia. rewrite Hrun.
          apply Hfin. lia.
        * destruct (IHr st' g' Hok') as (fuel1 & st'' & g'' & Hfin); [lia|].
          exists (d + fuel1)%nat, st'', g''. intros fuel Hfuel.
          replace fuel with (d + (fuel - d))%nat by lia. rewrite Hrun.
          apply Hfin. lia. }
  intros st g Hok. by eapply Hmain.
Qed.

Local Abbreviation generate_candidate :=
  (Sequencer.generate_candidate seq_len mean_slices_per_mha max_slices_per_mha case slices).
Local Abbreviation generate_candidates :=
  (Sequencer.generate_candidates seq_len mean_slices_per_mha max_slices_per_mha case slices).
Local Abbreviation greedy_loop :=
  (Sequencer.greedy_loop seq_len mean_slices_per_mha max_slices_per_mha q case slices).

Lemma generate_candidate_terminates available g :
  fair mean_slices_per_mha → 1 ≤ max_slices_per_mha → 1 ≤ seq_len →
  pool_ok shp available → seq_len ≤ _len_of_values available →
  ∃ (fuel0 : nat) c g',
    ∀ fuel, (fuel0 ≤ fuel)%nat → generate_candidate fuel available g = Ok (c, g').
Proof.
  intros Hfair Hmax Hsl Hpool Hen.
  set (st0 := {| c_quality := Fin 0%Qc; c_sequence := []; c_available := available;
                 cur_m := 0; cur_loop := 0 |}).
  assert (Hok : loop_ok seq_len shp available st0).
  { split; [apply cand_inv_init|done| |done]. simpl.
    destruct available; [|simpl; lia]. unfold _len_of_values in Hen. simpl in Hen. lia. }
  destruct (candidate_loop_terminates available Hfair Hmax st0 g Hok)
    as (fuel0 & st' & g' & Hfin).
  pose proof (Hfin fuel0 (le_n _)) as Hrun.
  apply (candidate_loop_inv _ _ _ _ available) in Hrun as [[_ _ _ Hb _] Hge];
    [|apply cand_inv_init].
  exists fuel0, (c_quality st', mkSequence case (c_sequence st'), c_available st'), g'.
  intros fuel Hfuel. unfold Sequencer.generate_candidate, mbind, M_bind.
  fold st0. rewrite (Hfin fuel Hfuel).
  rewrite bool_decide_eq_true_2 by lia. done.
Qed.

Lemma generate_candidates_terminates (n : nat) available g :
  fair mean_slices_per_mha → 1 ≤ max_slices_per_mha → 1 ≤ seq_len →
  pool_ok shp available → seq_len ≤ _len_of_values available →
  ∃ (fuel0 : nat) cs g',
    ∀ fuel, (fuel0 ≤ fuel)%nat → generate_candidates n fuel available g = Ok (cs, g').
Proof.
  intros Hfair Hmax Hsl Hpool Hen. revert g.
  induction n as [|n IH]; intros g.
  - by exists 0%nat, [], g.
  - destruct (generate_candidate_terminates available g) as (f1 & c & g1 & H1); try done.
    destruct (IH g1) as (f2 & cs & g2 & H2).
    exists (f1 `max` f2)%nat, (c :: cs), g2. intros fuel Hfuel.
    change (generate_candidates (S n) fuel available g) with
      ((c ← generate_candidate fuel available;
        cs ← generate_candidates n fuel available; mret (M:=M) (c :: cs)) g).
    unfold mbind, M_bind. rewrite H1 by lia. by rewrite H2 by lia.
Qed.

Lemma pool_ok_shrunk a b (idx : nat → list Z) :
  pool_ok shp a → length b = length a →
  (∀ m : nat, a !!! m ≡ₚ idx m ++ b !!! m) → pool_ok shp b.
Proof.
  intros Ha Hlen Hperm. unfold pool_ok in *.
  apply Forall2_same_length_lookup. split; [by rewrite Hlen; eapply Forall2_length|].
  intros m n bm Hn Hbm.
  destruct (lookup_lt_is_Some_2 a m) as [am Ham];
    [rewrite <- Hlen; by eapply lookup_lt_Some|].
  destruct (Forall2_lookup_lr _ _ _ _ _ _ Ha Hn Ham) as (Hn65 & Hnd & Hin).
  specialize (Hperm m).
  rewrite (list_lookup_total_correct _ _ _ Ham), (list_lookup_total_correct _ _ _ Hbm)
    in Hperm.
  split; [done|]. split.
  - rewrite Hperm in Hnd. by apply NoDup_app in Hnd as (_ & _ & ?).
  - intros x Hx. apply Hin. rewrite Hperm. apply elem_of_app. by right.
Qed.

(** With a fair generator the greedy loop of a case returns. *)
Lemma greedy_loop_terminates :
  fair mean_slices_per_mha → 1 ≤ max_slices_per_mha → 1 ≤ seq_len →
  ∀ available sequences g, pool_ok shp available →
    ∃ (F I : nat) sequences' g',
      ∀ fuel ifuel, (F ≤ fuel)%nat → (I ≤ ifuel)%nat →
        greedy_loop fuel ifuel available sequences g = Ok (sequences', g').
Proof.
  intros Hfair Hmax Hsl.
  assert (Hmain : ∀ (r : nat) available sequences g,
    pool_ok shp available → (Z.to_nat (_len_of_values available) ≤ r)%nat →
    ∃ (F I : nat) sequences' g',
      ∀ fuel ifuel, (F ≤ fuel)%nat → (I ≤ ifuel)%nat →
        greedy_loop fuel ifuel available sequences g = Ok (sequences', g')).
  { induction r as [|r IH]; intros available sequences g Hpool Hr.
    - exists 0%nat, 0%nat, sequences, g. intros fuel ifuel _ _.
      destruct fuel; simpl; rewrite bool_decide_eq_true_2; (done || lia).
    - destruct (decide (_len_of_values available < seq_len)) as [Hlt|Hge].
      { exists 0%nat, 0%nat, sequences, g. intros fuel ifuel _ _.
        destruct fuel; simpl; by rewrite bool_decide_eq_true_2. }
      destruct (generate_candidates_terminates 100 available g)
        as (I1 & cands & g1 & Hc); try done; [lia|].
      pose proof (Hc I1 (le_n _)) as Hc1.
      destruct (greedy_loop_round seq_len mean_slices_per_mha max_slices_per_mha q case
                  slices 0 I1 available sequences g cands g1 Hge Hc1) as (w & Hw & _).
      assert (Hin : w ∈ cands).
      { rewrite <- (sort_by_perm (Sequencer.sort_key q) cands).
        destruct (sort_by (Sequencer.sort_key q) cands); [done|].
        injection Hw as ->. by left. }
      apply generate_candidates_Ok in Hc1 as [_ Hall].
      destruct (Hall w Hin) as (g2 & g3 & Hgen).
      apply generate_candidate_Ok in Hgen as (Hl & _ & Hlen & Hperm & Htot & _).
      destruct (flt w.1.1 (Fin q)) eqn:Eflt.
      + exists 1%nat, I1, sequences, g1. intros fuel ifuel Hf Hi.
        destruct fuel as [|fuel]; [lia|].
        destruct (greedy_loop_round seq_len mean_slices_per_mha max_slices_per_mha q case
                    slices fuel ifuel available sequences g cands g1 Hge (Hc ifuel Hi))
          as (w' & Hw' & ->).
        assert (w' = w) as -> by congruence. by rewrite Eflt.
      + destruct (IH w.2 (sequences ++ [w.1.2]) g1) as (F2 & I2 & seqs' & g' & Hfin).
        { by apply (pool_ok_shrunk available _ (λ m, indices_of m (seq_slices w.1.2))). }
        { lia. }
        exists (S F2), (I1 `max` I2)%nat, seqs', g'. intros fuel ifuel Hf Hi.
        destruct fuel as [|fuel]; [lia|].
        destruct (greedy_loop_round seq_len mean_slices_per_mha max_slices_per_mha q case
                    slices fuel ifuel available sequences g cands g1 Hge
                    (Hc ifuel ltac:(lia))) as (w' & Hw' & ->).
        assert (w' = w) as -> by congruence. rewrite Eflt. apply Hfin; lia. }
  intros available sequences g Hpool. by eapply Hmain.
Qed.

(** *** The quality score of a candidate *)

Lemma pool_ok_in_range available : pool_ok shp available → in_range shp available.
Proof. intros H. eapply Forall2_impl; [exact H|]. naive_solver. Qed.

Lemma take_slices_picked st avail_m g st1 g' :
  in_range shp (c_available st) →
  c_available st !! cur_m st = Some avail_m →
  take_slices st (c_len st) avail_m g = Ok (st1, g') →
  in_range shp (c_available st1) ∧
  ∃ sel, c_quality st1 = fadd (c_quality st) (fsum (slice_quality <$> sel)) ∧
         all_indices (c_sequence st1) ≡ₚ all_indices (c_sequence st) ++ sel.
Proof.
  intros Hr Ha (slices_m & sel & picked & avail_m' & Hs & Hc & Hp & Hrm & ->)%take_slices_Ok.
  destruct (Forall2_lookup_r _ _ _ _ _ Hr Ha) as (n & Hn & Hin).
  rewrite list_lookup_fmap, Hn in Hs. injection Hs as <-.
  pose proof (np_choice_available _ _ _ _ _ _ _ Hc) as (Hsub & _ & _ & _).
  pose proof (remove_each_perm _ _ _ Hrm) as Hperm.
  simpl. split.
  - unfold in_range. rewrite <- (list_insert_id shp (cur_m st) n Hn).
    apply Forall2_insert; [done|]. intros x Hx. apply Hin. rewrite Hperm.
    apply elem_of_app. by right.
  - exists sel. split; [|apply all_indices_dict_set]. f_equal. f_equal.
    apply mapM_Some in Hp. apply list_eq. intros j.
    rewrite list_lookup_fmap.
    destruct (sel !! j) as [s|] eqn:Ej; simpl.
    + destruct (Forall2_lookup_l _ _ _ _ _ Hp Ej) as (w & Hw & Hidx).
      rewrite Hw. f_equal.
      assert (Hs : 0 ≤ s < n) by (apply Hin, Hsub; by eapply list_elem_of_lookup_2).
      unfold np_index in Hidx.
      set (n_slices := n_slices_of _ _ _ _ _) in *.
      rewrite quality_array_length in Hidx. rewrite bool_decide_eq_true_2 in Hidx by lia.
      assert (Hlk : seqZ 0 n !! Z.to_nat s = Some s).
      { rewrite lookup_seqZ_lt by lia. f_equal. lia. }
      unfold m_p_of in Hidx.
      destruct (decide (n_slices = 1)) as [E1|E1];
        [rewrite !(bool_decide_eq_true_2 _ E1) in Hidx
        |rewrite !(bool_decide_eq_false_2 _ E1) in Hidx].
      * apply lookup_zip_with_Some in Hidx as (a & b & -> & Hqa & Hmb).
        unfold m_quality in Hqa. rewrite list_lookup_fmap, Hlk in Hqa.
        rewrite list_lookup_fmap, Hlk in Hmb. simpl in *.
        injection Hqa as <-. injection Hmb as <-.
        rewrite bool_decide_eq_true_2; [by rewrite fmask_true|].
        apply Hsub. by eapply list_elem_of_lookup_2.
      * unfold m_quality in Hidx. rewrite list_lookup_fmap, Hlk in Hidx.
        by injection Hidx as <-.
    + apply Forall2_length in Hp. apply lookup_ge_None in Ej.
      apply lookup_ge_None. lia.
Qed.

(** The score of a candidate is the sum of the qualities the code gives
    to its indices. *)
Lemma candidate_quality_is_sum fuel available g c g' :
  in_range shp available →
  generate_candidate fuel available g = Ok (c, g') →
  c.1.1 = fsum (slice_quality <$> all_indices (seq_slices c.1.2)).
Proof.
  intros Hr. unfold Sequencer.generate_candidate. intros H.
  apply bind_Ok in H as (st & g1 & Hloop & H).
  case_bool_decide as Hlen; [|done]. apply ret_Ok in H as [= -> ->]. simpl.
  apply (candidate_loop_ind seq_len mean_slices_per_mha max_slices_per_mha slices
           (λ st, in_range shp (c_available st) ∧
                  c_quality st = fsum (slice_quality <$> all_indices (c_sequence st))))
    in Hloop as [[_ ?] _]; [done| | |by split].
  - intros st0 avail_m g0 st1 g0' [Hr0 Hq0] _ Ha _ Ht.
    destruct (take_slices_picked _ _ _ _ _ Hr0 Ha Ht) as (Hr1 & sel & Hq1 & Hp1).
    split; [done|]. rewrite Hq1, Hq0, <- fsum_app, <- fmap_app.
    apply fsum_perm. by rewrite Hp1.
  - intros st0 g0 st0' [Hr0 Hq0] (_ & Hq & Hs & Ha & _)%advance_cursor_Ok.
    by rewrite Hq, Hs, Ha.
Qed.
End Progress.

Section Scenario.
Context `{RS : RandomSource}.

Lemma indices_of_submseteq m d : indices_of m d ⊆+ all_indices d.
Proof.
  unfold all_indices, dict_values. induction d as [|[k v] d IH]; simpl; [done|].
  destruct (bool_decide (k.2 = m)).
  - by apply submseteq_app.
  - by apply submseteq_inserts_l.
Qed.

Lemma len_zero_lookup (l : list (list Z)) (m : nat) :
  _len_of_values l = 0 → l !!! m = [].
Proof.
  unfold _len_of_values. revert m. induction l as [|x l IH]; intros m H; [done|].
  simpl in H. destruct x; [|simpl in H; lia].
  destruct m; [done|]. apply IH. simpl in H. lia.
Qed.

Lemma Qc_clip_le (x lo hi b : Qc) : (lo ≤ b)%Qc → (x ≤ b)%Qc → (Qc_clip x lo hi ≤ b)%Qc.
Proof.
  intros Hlo Hx. unfold Qc_clip.
  destruct (bool_decide (x < lo)%Qc); case_bool_decide as H; try done.
  - apply Qclt_le_weak in H. by etrans.
  - apply Qclt_le_weak in H. by etrans.
Qed.

Lemma quality_of_five :
  fsum (slice_quality <$> [0; 1; 2; 3; 4]) = Fin (Q2Qc (5 # 2)).
Proof.
  rewrite (list_fmap_ext slice_quality (λ i, Fin (ideal_quality i))).
  - simpl. f_equal. apply Qc_is_canon. reflexivity.
  - intros i x Hx. apply slice_quality_small.
    apply list_elem_of_lookup_2 in Hx.
    repeat (apply elem_of_cons in Hx as [->|Hx]; [lia|]). by apply elem_of_nil in Hx.
Qed.

(** C6.  One case with one modality of five slices, [seq_len = 5] and
  [max_slices_per_mha = 3], with a quality preference of at most one half
  (the default) and a generator that does not draw below one forever: for
  every fuel large enough the call returns exactly one sequence for the
  case, whose slice indices are a permutation of [0..4]. *)
Theorem five_slices_give_one_sequence (dataloader : DataLoader) (case : string)
    (seed : Z) (mean_slices_per_mha q : Qc) (entropy : nat → G) :
  keys dataloader = [case] →
  shapes dataloader case = Some [5] →
  fair mean_slices_per_mha →
  (q ≤ Q2Qc (1 # 2))%Qc →
  ∃ (F : nat) (s : Sequence),
    (∀ fuel, (F ≤ fuel)%nat →
       Sequencer.generate_sequences dataloader seed 5 mean_slices_per_mha 3 q
         fuel entropy [0%nat] = Ok {[case := [s]]}) ∧
    seq_case s = case ∧
    _len_of_values (dict_values (seq_slices s)) = 5 ∧
    all_indices (seq_slices s) ≡ₚ [0; 1; 2; 3; 4].
Proof.
  intros Hkeys Hshape Hfair Hq.
  set (t := Sequencer.target 5 q).
  set (pool := (λ n : Z, seqZ 0 n) <$> [5]).
  assert (Ht : (t ≤ Q2Qc (5 # 2))%Qc).
  { unfold t, Sequencer.target.
    replace (Q2Qc (5 # 2)) with (Q2Qc (1 # 2) * Qc_of_Z 5)%Qc
      by (apply Qc_is_canon; reflexivity).
    apply Qcmult_le_compat_r; [|done]. by apply Qc_clip_le. }
  assert (Hr : ∃ r, ∀ fuel,
    Sequencer._generate_sequences dataloader seed 5 mean_slices_per_mha 3 q
      fuel (entropy 0%nat) case
    = match Sequencer.greedy_loop 5 mean_slices_per_mha 3 t case pool fuel fuel pool [] r with
      | Ok (sequences, _) => Ok sequences
      | Raise e => Raise e
      | OutOfFuel => OutOfFuel
      end).
  { unfold Sequencer._generate_sequences, Sequencer.seeds. rewrite Hkeys, Hshape. simpl.
    rewrite lookup_insert_eq. destruct (bool_decide (0 ≤ seed)); by eexists. }
  destruct Hr as [r Hr].
  assert (Hpool : pool_ok [5] pool).
  { constructor; [|constructor]. split; [lia|]. split; [apply NoDup_seqZ|].
    intros x Hx%elem_of_seqZ. lia. }
  assert (Hge : ¬ _len_of_values pool < 5) by (by vm_compute).
  destruct (greedy_loop_terminates 5 mean_slices_per_mha 3 t case [5]
              Hfair ltac:(lia) ltac:(lia) pool [] r Hpool) as (F & I & seqs & g' & Hfin).
  destruct (generate_candidates_terminates 5 mean_slices_per_mha 3 case [5] 100 pool r
              Hfair ltac:(lia) ltac:(lia) Hpool ltac:(by vm_compute))
    as (I1 & cands & g1 & Hc).
  set (N := ((F `max` I) `max` I1)%nat).
  pose proof (Hfin (S N) N ltac:(lia) ltac:(lia)) as Hrun.
  destruct (greedy_loop_round 5 mean_slices_per_mha 3 t case pool N N pool [] r cands g1
              Hge (Hc N ltac:(lia))) as (w & Hw & Heq).
  clearbody t. subst pool. rewrite Heq in Hrun.
  assert (Hin : w ∈ cands).
  { rewrite <- (sort_by_perm (Sequencer.sort_key t) cands).
    destruct (sort_by (Sequencer.sort_key t) cands); [done|].
    injection Hw as ->. by left. }
  destruct (generate_candidates_Ok _ _ _ _ _ _ _ _ _ _ _ (Hc N ltac:(lia))) as [_ Hall].
  destruct (Hall w Hin) as (g2 & g3 & Hgen).
  pose proof (candidate_quality_is_sum _ _ _ _ [5] _ _ _ _ _
                (pool_ok_in_range _ _ Hpool) Hgen) as Hqual.
  apply generate_candidate_Ok in Hgen as (Hl & Hcase & Hlen & Hperm & Htot & _).
  assert (Hempty : _len_of_values w.2 = 0) by (rewrite Htot; by vm_compute).
  assert (Hidx : all_indices (seq_slices w.1.2) ≡ₚ [0; 1; 2; 3; 4]).
  { specialize (Hperm 0%nat). rewrite (len_zero_lookup _ _ Hempty), app_nil_r in Hperm.
    change (((λ n : Z, seqZ 0 n) <$> [5]) !!! 0%nat) with (seqZ 0 5) in Hperm.
    rewrite <- (submseteq_length_Permutation _ _ (indices_of_submseteq 0 _)).
    - by rewrite <- Hperm.
    - rewrite <- Hperm. rewrite len_of_values_concat in Hl.
      unfold all_indices. rewrite length_seqZ. lia. }
  assert (Hnot : flt w.1.1 (Fin t) = false).
  { rewrite Hqual, (fsum_perm _ (slice_quality <$> [0; 1; 2; 3; 4]))
      by (by apply fmap_Permutation).
    rewrite quality_of_five. simpl. apply bool_decide_eq_false.
    by apply Qcle_not_lt. }
  rewrite Hnot in Hrun.
  rewrite greedy_loop_exhausted in Hrun by lia.
  injection Hrun as <- <-.
  exists (S N), w.1.2. split; [|done].
  intros fuel Hfuel. unfold Sequencer.generate_sequences, Sequencer.futures.
  rewrite Hkeys. simpl. rewrite Hr, (Hfin fuel fuel) by lia. simpl.
  by rewrite insert_empty.
Qed.
End Scenario.

Section Returns.
Context `{RS : RandomSource}.

Lemma ranges_pool_ok (shp : list Z) :
  Forall (λ n, n ≤ 65) shp → pool_ok shp ((λ n, seqZ 0 n) <$> shp).
Proof.
  induction 1 as [|n shp Hn _ IH]; [constructor|].
  rewrite fmap_cons. constructor; [|done].
  split; [done|]. split; [apply NoDup_seqZ|]. intros x Hx%elem_of_seqZ. lia.
Qed.

(** With a fair generator, and no modality longer than 65 slices, the
    worker of a listed case returns the same list for any fuel that is
    large enough. *)
Lemma worker_returns (dataloader : DataLoader) (seed seq_len : Z)
    (mean_slices_per_mha : Qc) (max_slices_per_mha : Z) (q : Qc)
    (entropy : G) (case : string) (shp : list Z) :
  case ∈ keys dataloader → shapes dataloader case = Some shp →
  Forall (λ n, n ≤ 65) shp →
  fair mean_slices_per_mha → 1 ≤ max_slices_per_mha → 1 ≤ seq_len →
  ∃ (F : nat) sequences,
    ∀ fuel, (F ≤ fuel)%nat →
      Sequencer._generate_sequences dataloader seed seq_len mean_slices_per_mha
        max_slices_per_mha q fuel entropy case = Ok sequences.
Proof.
  intros Hin Hshape Hshp Hfair Hmax Hsl.
  destruct (seeds_from_is_Some seed 0 (keys dataloader) ∅ case Hin) as [s Hs].
  set (r := if bool_decide (0 ≤ seed) then default_rng s else entropy).
  destruct (greedy_loop_terminates seq_len mean_slices_per_mha max_slices_per_mha
              (Sequencer.target seq_len q) case shp Hfair Hmax Hsl
              ((λ n, seqZ 0 n) <$> shp) [] r (ranges_pool_ok shp Hshp))
    as (F & I & sequences & g' & Hfin).
  exists (F `max` I)%nat, sequences. intros fuel Hfuel.
  unfold Sequencer._generate_sequences, Sequencer.seeds. rewrite Hs, Hshape.
  assert (Hr : (if bool_decide (0 ≤ seed) then Ok (default_rng s) else Ok entropy)
               = Ok r) by (unfold r; by destruct (bool_decide (0 ≤ seed))).
  rewrite Hr. by rewrite (Hfin fuel fuel) by lia.
Qed.
End Returns.

(** ** Beyond 65 slices: [2^|i-2|] leaves [int64] *)

Section Overflow.
Context `{RS : RandomSource}.

Lemma np_power2_63 : np_power2 63 = - 2 ^ 63.
Proof. reflexivity. Qed.

Lemma np_power2_large e : 64 ≤ e → np_power2 e = 0.
Proof.
  intros He. unfold np_power2, int64_wrap.
  replace e with (64 + (e - 64)) by lia. rewrite Z.pow_add_r by lia.
  rewrite Z.add_comm, Z.mul_comm, Z.mod_add by lia. reflexivity.
Qed.

Lemma slice_quality_large i : 66 ≤ i → slice_quality i = PInf.
Proof.
  intros Hi. unfold slice_quality. rewrite np_power2_large by lia. reflexivity.
Qed.

(** C8.  The quality of slice 65: [np.power(2, 63)] wraps around in [int64]
  to [-2^63], so the code computes [-1/2^63] where the documented quality
  is [1/2^63]; from slice 66 on the power is zero and the quality is
  [+inf]. *)
Theorem quality_of_slice_65_is_negative :
  slice_quality 65 = Fin (Q2Qc (-1 # 2 ^ 63)) ∧
  ideal_quality 65 = Q2Qc (1 # 2 ^ 63) ∧
  slice_quality 65 ≠ Fin (ideal_quality 65) ∧
  slice_quality 66 = PInf.
Proof.
  assert (H1 : slice_quality 65 = Fin (Q2Qc (-1 # 2 ^ 63))).
  { unfold slice_quality, np_true_divide1.
    change (Z.abs (65 - 2)) with 63. rewrite np_power2_63.
    rewrite bool_decide_eq_false_2 by done.
    apply (f_equal Fin), Qc_is_canon. reflexivity. }
  assert (H2 : ideal_quality 65 = Q2Qc (1 # 2 ^ 63)).
  { unfold ideal_quality. apply Qc_is_canon. reflexivity. }
  split; [exact H1|]. split; [exact H2|]. split; [|apply slice_quality_large; lia].
  rewrite H1, H2. intros H. injection H as H. discriminate H.
Qed.

Lemma probabilities_overflow n avail_m :
  67 ≤ n → probabilities (m_p_of 1 (seqZ 0 n) avail_m) = None.
Proof.
  intros Hn. unfold probabilities.
  destruct (fsum (m_p_of 1 (seqZ 0 n) avail_m)) as [s| |] eqn:E; [|done|done].
  apply fsum_Fin_inv in E. rewrite Forall_forall in E.
  assert (Hin : fmask (slice_quality 66) (bool_decide (66 ∈ avail_m))
                ∈ m_p_of 1 (seqZ 0 n) avail_m).
  { apply list_elem_of_lookup. exists 66%nat. unfold m_p_of, m_quality.
    rewrite bool_decide_eq_true_2 by done.
    apply lookup_zip_with_Some. eexists _, _. split; [done|].
    rewrite !list_lookup_fmap, lookup_seqZ_lt by lia. done. }
  apply E in Hin. rewrite slice_quality_large in Hin by lia.
  by destruct (bool_decide (66 ∈ avail_m)).
Qed.

Lemma bind_Raise_l {A B} (c : M A) (f : A → M B) g e :
  c g = Raise e → (c ≫= f) g = Raise e.
Proof. intros H. unfold mbind, M_bind. by rewrite H. Qed.

(** C10.  A modality of 67 slices or more: when the first draw of a case
  rounds to one slice, the weights are the qualities, one of which is
  [+inf]; the probabilities then contain [nan], the choice raises
  [ValueError], and so does the greedy loop of the case. *)
Theorem single_draw_fails_on_long_modality
    (n seq_len : Z) (mean_slices_per_mha : Qc) (max_slices_per_mha : Z) (q : Qc)
    (case : string) (fuel ifuel : nat) (r : G) :
  67 ≤ n → 1 ≤ seq_len ≤ n → 1 ≤ max_slices_per_mha →
  (rng_normal mean_slices_per_mha r).1 = 1 →
  Sequencer.greedy_loop seq_len mean_slices_per_mha max_slices_per_mha q case
    ((λ n, seqZ 0 n) <$> [n]) (S fuel) (S ifuel) ((λ n, seqZ 0 n) <$> [n]) [] r
  = Raise ValueError.
Proof.
  intros Hn Hsl Hmax Hz.
  set (pool := (λ n, seqZ 0 n) <$> [n]).
  set (st0 := {| c_quality := Fin 0%Qc; c_sequence := []; c_available := pool;
                 cur_m := 0; cur_loop := 0 |}).
  assert (Hlen : _len_of_values pool = n).
  { unfold _len_of_values. simpl. rewrite length_seqZ. lia. }
  assert (Htake :
    Sequencer.take_slices seq_len mean_slices_per_mha max_slices_per_mha pool
      st0 0 (seqZ 0 n) r = Raise ValueError).
  { rewrite (take_slices_eq seq_len mean_slices_per_mha max_slices_per_mha [n]).
    assert (Hn1 : n_slices_of seq_len max_slices_per_mha
                    (rng_normal mean_slices_per_mha r).1 (seqZ 0 n) 0 = 1).
    { unfold n_slices_of, np_clip. rewrite Hz, length_seqZ. lia. }
    cbv zeta. rewrite Hn1. simpl.
    unfold np_choice. by rewrite probabilities_overflow. }
  assert (Hstep :
    Sequencer.candidate_step seq_len mean_slices_per_mha max_slices_per_mha pool
      st0 0 r = Raise ValueError).
  { unfold Sequencer.candidate_step.
    change (c_available st0 !! cur_m st0) with (Some (seqZ 0 n)).
    unfold mbind at 1, M_bind at 1. simpl or_raise. unfold mret at 1, M_ret at 1.
    apply bind_Raise_l. rewrite bool_decide_eq_true_2 by (rewrite length_seqZ; lia).
    exact Htake. }
  assert (Hcand :
    Sequencer.generate_candidate seq_len mean_slices_per_mha max_slices_per_mha case pool
      (S ifuel) pool r = Raise ValueError).
  { unfold Sequencer.generate_candidate. apply bind_Raise_l. fold st0.
    cbn [Sequencer.candidate_loop].
    change (_len_of_values (dict_values (c_sequence st0))) with 0.
    rewrite bool_decide_eq_true_2 by lia. by apply bind_Raise_l. }
  cbn [Sequencer.greedy_loop]. rewrite bool_decide_eq_false_2 by lia.
  apply bind_Raise_l.
  change (Sequencer.generate_candidates seq_len mean_slices_per_mha max_slices_per_mha case
            pool 100 (S ifuel) pool)
    with (c ← Sequencer.generate_candidate seq_len mean_slices_per_mha max_slices_per_mha
                case pool (S ifuel) pool;
          cs ← Sequencer.generate_candidates seq_len mean_slices_per_mha max_slices_per_mha
                 case pool 99 (S ifuel) pool;
          mret (M:=M) (c :: cs)).
  by apply bind_Raise_l.
Qed.
End Overflow.

(** ** The concrete generator is a [RandomSource] *)

Section CycleFacts.
Lemma positive_positions_spec p : ∀ i0,
  length (Cycle.positive_positions i0 p) = length (filter (λ x, 0 < x)%Qc p) ∧
  NoDup (Cycle.positive_positions i0 p) ∧
  ∀ i, i ∈ Cycle.positive_positions i0 p →
    (i0 ≤ i)%nat ∧ ∃ x, p !! (i - i0)%nat = Some x ∧ (0 < x)%Qc.
Proof.
  induction p as [|x p IH]; intros i0; simpl.
  - split; [done|]. split; [constructor|]. intros i Hi. by apply elem_of_nil in Hi.
  - destruct (IH (S i0)) as (Hlen & Hnd & Hin).
    rewrite filter_cons. destruct (decide (0 < x)%Qc) as [Hx|Hx].
    + rewrite bool_decide_eq_true_2 by done. simpl. split; [by rewrite Hlen|]. split.
      * constructor; [|done]. intros Hi. apply Hin in Hi. lia.
      * intros i Hi. apply elem_of_cons in Hi as [->|Hi].
        -- split; [lia|]. exists x. by rewrite Nat.sub_diag.
        -- destruct (Hin i Hi) as (Hle & y & Hy & Hpos). split; [lia|].
           exists y. split; [|done].
           by replace (i - i0)%nat with (S (i - S i0)) by lia.
    + rewrite bool_decide_eq_false_2 by done. split; [done|]. split; [done|].
      intros i Hi. destruct (Hin i Hi) as (Hle & y & Hy & Hpos). split; [lia|].
      exists y. split; [|done].
      by replace (i - i0)%nat with (S (i - S i0)) by lia.
Qed.

Lemma cycle_choice_spec (p : list Qc) (n : nat) (g : nat) :
  (0 < n ≤ length (filter (λ x, 0 < x)%Qc p))%nat →
  length (Cycle.choice p n g).1 = n ∧
  NoDup (Cycle.choice p n g).1 ∧
  ∀ i, i ∈ (Cycle.choice p n g).1 → ∃ x, p !! i = Some x ∧ (0 < x)%Qc.
Proof.
  intros [Hn Hle]; simpl.
  destruct (positive_positions_spec p 0%nat) as (Hlen & Hnd & Hin).
  assert (Hperm : rotate g (Cycle.positive_positions 0 p) ≡ₚ Cycle.positive_positions 0 p).
  { unfold rotate. rewrite Permutation_app_comm. by rewrite take_drop. }
  split; [|split].
  - rewrite length_take, length_rotate. lia.
  - eapply sublist_NoDup; [|apply sublist_take]. by rewrite Hperm.
  - intros i Hi. apply elem_of_take in Hi as (j & Hj & _).
    apply list_elem_of_lookup_2 in Hj. rewrite Hperm in Hj.
    destruct (Hin i Hj) as (_ & x & Hx & Hpos). exists x. by rewrite Nat.sub_0_r in Hx.
Qed.
End CycleFacts.

#[export] Instance cycle_rng : RandomSource := {|
  G := nat;
  default_rng := Z.to_nat;
  rng_normal := Cycle.normal;
  rng_choice := Cycle.choice;
  rng_choice_spec := cycle_choice_spec
|}.

Section CycleFair.
Lemma cycle_eventually_positive loc (k : nat) : ∀ g : nat,
  1 ≤ Cycle.round_half_up loc → ((g + k) `mod` 4 = 0)%nat →
  eventually_positive (RS:=cycle_rng) loc g.
Proof.
  induction k as [|k IH]; intros g Hloc Hk.
  - apply ep_now.
    change (1 ≤ Cycle.round_half_up loc + nth (g `mod` 4)%nat [0; -1; 1; -2] 0).
    rewrite Nat.add_0_r in Hk. rewrite Hk. simpl. lia.
  - apply ep_later.
    change (eventually_positive (RS:=cycle_rng) loc (S g)). apply IH; [done|].
    by replace (S g + k)%nat with (g + S k)%nat by lia.
Qed.

(** Around a mean that rounds to one or more, the cycle is fair. *)
Lemma cycle_fair loc : 1 ≤ Cycle.round_half_up loc → fair (RS:=cycle_rng) loc.
Proof.
  intros Hloc g. apply (cycle_eventually_positive loc (4 - g `mod` 4)); [done|].
  pose proof (Nat.mod_upper_bound g 4 ltac:(lia)) as Hlt.
  rewrite (Nat.div_mod_eq g 4) at 1.
  replace (4 * (g `div` 4) + g `mod` 4 + (4 - g `mod` 4))%nat
    with ((g `div` 4 + 1) * 4)%nat by lia.
  apply Nat.Div0.mod_mul.
Qed.
End CycleFair.

(** ** Further properties of a call *)

Section Acceptance.
Context `{RS : RandomSource}.
Variables (seq_len : Z) (mean_slices_per_mha : Qc) (max_slices_per_mha : Z).
Variable q : Qc.
Variable case : string.
Variable slices : list (list Z).

Local Abbreviation generate_candidate :=
  (Sequencer.generate_candidate seq_len mean_slices_per_mha max_slices_per_mha case slices).
Local Abbreviation generate_candidates :=
  (Sequencer.generate_candidates seq_len mean_slices_per_mha max_slices_per_mha case slices).
Local Abbreviation greedy_loop :=
  (Sequencer.greedy_loop seq_len mean_slices_per_mha max_slices_per_mha q case slices).

(** A run of the greedy loop that returns: every sequence it added was an
    accepted candidate, and it stopped on an exhausted pool or on a
    rejected candidate. *)
Lemma greedy_loop_run (P : list (list Z) → Prop) (Q : Sequence → Prop) ifuel :
  (∀ available g c g',
     P available → seq_len ≤ _len_of_values available →
     generate_candidate ifuel available g = Ok (c, g') →
     flt c.1.1 (Fin q) = false → P c.2 ∧ Q c.1.2) →
  ∀ fuel available sequences g sequences' g',
    P available →
    greedy_loop fuel ifuel available sequences g = Ok (sequences', g') →
    ∃ new available',
      sequences' = sequences ++ new ∧ Forall Q new ∧ P available' ∧
      _len_of_values available'
      = _len_of_values available - seq_len * Z.of_nat (length new) ∧
      (_len_of_values available' < seq_len ∨
       ∃ c g1 g2, generate_candidate ifuel available' g1 = Ok (c, g2) ∧
                  flt c.1.1 (Fin q) = true).
Proof.
  intros Hacc fuel. induction fuel as [|fuel IH]; intros available sequences g sequences' g' HP.
  - simpl. case_bool_decide as Hlt; [|done]. intros [= <- <-]%ret_Ok.
    exists [], available. rewrite app_nil_r. simpl.
    repeat split; try done; [lia|by left].
  - destruct (decide (_len_of_values available < seq_len)) as [Hlt|Hge].
    { simpl. rewrite bool_decide_eq_true_2 by done. intros [= <- <-]%ret_Ok.
      exists [], available. rewrite app_nil_r. simpl.
      repeat split; try done; [lia|by left]. }
    destruct (generate_candidates 100 ifuel available g) as [[cands g1]| |] eqn:Ec.
    2,3: simpl; rewrite bool_decide_eq_false_2 by done;
         unfold mbind at 1, M_bind at 1; by rewrite Ec.
    destruct (greedy_loop_round seq_len mean_slices_per_mha max_slices_per_mha q case slices
                fuel ifuel available sequences g cands g1 Hge Ec) as (w & Hw & ->).
    assert (Hin : w ∈ cands).
    { rewrite <- (sort_by_perm (Sequencer.sort_key q) cands).
      destruct (sort_by (Sequencer.sort_key q) cands); [done|].
      injection Hw as ->. by left. }
    apply generate_candidates_Ok in Ec as [_ Hall].
    destruct (Hall w Hin) as (g2 & g3 & Hgen).
    pose proof (generate_candidate_Ok _ _ _ _ _ _ _ _ _ _ Hgen) as (_ & _ & _ & _ & Htot & _).
    destruct (flt w.1.1 (Fin q)) eqn:Eflt.
    + intros [= <- <-]. exists [], available. rewrite app_nil_r. simpl.
      repeat split; try done; [lia|]. right. by exists w, g2, g3.
    + intros H. destruct (Hacc available g2 w g3 HP ltac:(lia) Hgen Eflt) as [HP' HQ].
      apply IH in H as (new & available' & -> & HallQ & HP'' & Htot' & Hstop); [|done].
      exists (w.1.2 :: new), available'. rewrite <- (assoc_L (++)). simpl.
      repeat split; try done; [by constructor|lia].
Qed.
End Acceptance.

Section Scores.
Context `{RS : RandomSource}.

Lemma all_indices_elem (d : dict) x :
  x ∈ all_indices d → ∃ m : nat, x ∈ indices_of m d.
Proof.
  unfold all_indices, dict_values. induction d as [|[k v] d IH]; simpl.
  - by intros ?%elem_of_nil.
  - intros [Hx|Hx]%elem_of_app.
    + exists k.2. rewrite bool_decide_eq_true_2 by done. apply elem_of_app. by left.
    + destruct (IH Hx) as [m Hm]. exists m.
      case_bool_decide; [apply elem_of_app; by right|done].
Qed.

Lemma used_elem (m : nat) (sequences : list Sequence) x :
  x ∈ used m sequences ↔ ∃ s, s ∈ sequences ∧ x ∈ indices_of m (seq_slices s).
Proof.
  unfold used. induction sequences as [|s l IH]; simpl.
  - split; [by intros ?%elem_of_nil|]. by intros (s & ?%elem_of_nil & _).
  - rewrite elem_of_app, IH. split.
    + intros [Hx|(s' & Hs' & Hx)]; [exists s; split; [by left|done]|].
      exists s'. split; [by right|done].
    + intros (s' & [->|Hs']%elem_of_cons & Hx); [by left|]. right. by exists s'.
Qed.

Lemma in_range_lookup shp (pool : list (list Z)) (m : nat) x :
  in_range shp pool → x ∈ pool !!! m → ∃ n, shp !! m = Some n ∧ 0 ≤ x < n.
Proof.
  intros Hr Hx. rewrite list_lookup_total_alt in Hx.
  destruct (pool !! m) as [av|] eqn:E; simpl in Hx; [|by apply elem_of_nil in Hx].
  destruct (Forall2_lookup_r _ _ _ _ _ Hr E) as (n & Hn & Hin).
  exists n. split; [done|]. by apply Hin.
Qed.

Lemma in_range_shrunk shp a b (idx : nat → list Z) :
  in_range shp a → length b = length a →
  (∀ m : nat, a !!! m ≡ₚ idx m ++ b !!! m) → in_range shp b.
Proof.
  intros Ha Hlen Hperm. unfold in_range in *.
  apply Forall2_same_length_lookup. split; [by rewrite Hlen; eapply Forall2_length|].
  intros m n bm Hn Hbm.
  destruct (lookup_lt_is_Some_2 a m) as [am Ham];
    [rewrite <- Hlen; by eapply lookup_lt_Some|].
  pose proof (Forall2_lookup_lr _ _ _ _ _ _ Ha Hn Ham) as Hin.
  specialize (Hperm m).
  rewrite (list_lookup_total_correct _ _ _ Ham), (list_lookup_total_correct _ _ _ Hbm)
    in Hperm.
  intros x Hx. apply Hin. rewrite Hperm. apply elem_of_app. by right.
Qed.

Lemma ranges_in_range (shp : list Z) : in_range shp ((λ n, seqZ 0 n) <$> shp).
Proof.
  unfold in_range. induction shp as [|n shp IH]; [constructor|].
  rewrite fmap_cons. constructor; [|done]. intros x Hx%elem_of_seqZ. lia.
Qed.

(** Where every index is below 65 the score is the exact sum of the
    documented qualities. *)
Lemma fsum_quality_short (l : list Z) :
  Forall (λ x, 0 ≤ x ≤ 64) l →
  fsum (slice_quality <$> l) = Fin (qsum (ideal_quality <$> l)).
Proof.
  induction 1 as [|x l Hx _ IH]; [done|].
  cbn [fmap list_fmap fsum qsum]. rewrite IH.
  rewrite slice_quality_small by lia. done.
Qed.

Lemma qsum_ideal_nonneg (l : list Z) : (0 ≤ qsum (ideal_quality <$> l))%Qc.
Proof.
  apply qsum_nonneg. apply Forall_fmap, Forall_forall. intros x _. simpl.
  apply Qclt_le_weak, ideal_quality_pos.
Qed.

(** The indices of a candidate come from the pool it was drawn from. *)
Lemma candidate_indices_in_range seq_len mean_slices_per_mha max_slices_per_mha case
    slices shp fuel available g c g' :
  in_range shp available →
  Sequencer.generate_candidate seq_len mean_slices_per_mha max_slices_per_mha case slices
    fuel available g = Ok (c, g') →
  in_range shp c.2 ∧
  ∀ x, x ∈ all_indices (seq_slices c.1.2) → ∃ (m : nat) n, shp !! m = Some n ∧ 0 ≤ x < n.
Proof.
  intros Hr Hgen.
  apply generate_candidate_Ok in Hgen as (_ & _ & Hlen & Hperm & _ & _).
  split; [exact (in_range_shrunk shp available c.2 _ Hr Hlen Hperm)|].
  intros x [m Hm]%all_indices_elem.
  destruct (in_range_lookup shp available m x Hr) as (n & Hn & Hx).
  { rewrite (Hperm m). apply elem_of_app. by left. }
  by exists m, n.
Qed.

(** What a worker that returned went through. *)
Lemma worker_run (dataloader : DataLoader) (seed seq_len : Z) (mean_slices_per_mha : Qc)
    (max_slices_per_mha : Z) (q : Qc) fuel entropy case sequences :
  Sequencer._generate_sequences dataloader seed seq_len mean_slices_per_mha
    max_slices_per_mha q fuel entropy case = Ok sequences →
  ∃ (shp : list Z) (pool : list (list Z)),
    shapes dataloader case = Some shp ∧ in_range shp pool ∧
    Forall (λ s, flt (score s) (Fin (Sequencer.target seq_len q)) = false ∧
                 is_nan (score s) = false ∧
                 ∀ x, x ∈ all_indices (seq_slices s) →
                   ∃ (m : nat) n, shp !! m = Some n ∧ 0 ≤ x < n) sequences ∧
    _len_of_values pool
    = _len_of_values ((λ n, seqZ 0 n) <$> shp) - seq_len * Z.of_nat (length sequences) ∧
    (_len_of_values pool < seq_len ∨
     ∃ c g1 g2,
       Sequencer.generate_candidate seq_len mean_slices_per_mha max_slices_per_mha case
         ((λ n, seqZ 0 n) <$> shp) fuel pool g1 = Ok (c, g2) ∧
       flt c.1.1 (Fin (Sequencer.target seq_len q)) = true).
Proof.
  unfold Sequencer._generate_sequences.
  destruct (if bool_decide (0 ≤ seed) then _ else _) as [r| |]; try done.
  destruct (shapes dataloader case) as [shp|]; [|done].
  destruct (Sequencer.greedy_loop _ _ _ _ _ _ _ _ _ _ r) as [[seqs g']| |] eqn:E; try done.
  intros [= <-].
  eapply (greedy_loop_run _ _ _ _ _ _ (in_range shp)
            (λ s, flt (score s) (Fin (Sequencer.target seq_len q)) = false ∧
                  is_nan (score s) = false ∧
                  ∀ x, x ∈ all_indices (seq_slices s) →
                    ∃ (m : nat) n, shp !! m = Some n ∧ 0 ≤ x < n)) in E
    as (new & pool & -> & Hall & Hr & Htot & Hstop).
  - exists shp, pool. rewrite app_nil_l. by split_and!.
  - intros available g c g1 Hr _ Hgen Hflt.
    destruct (candidate_indices_in_range _ _ _ _ _ shp _ _ _ _ _ Hr Hgen) as [Hr' Hidx].
    pose proof (candidate_quality_is_sum _ _ _ _ _ _ _ _ _ _ Hr Hgen) as Hq.
    pose proof (generate_candidate_Ok _ _ _ _ _ _ _ _ _ _ Hgen) as (_ & _ & _ & _ & _ & Hnan).
    split; [done|]. unfold score. rewrite <- Hq. done.
  - apply ranges_in_range.
Qed.
End Scores.

Section QualityBounds.

Lemma Qc_recip_mult (z : Qc) : z ≠ 0%Qc → (1 / z * z)%Qc = 1%Qc.
Proof. intros Hz. field. exact Hz. Qed.

Lemma Qc_of_Z_neq_0 z : 0 < z → Qc_of_Z z ≠ 0%Qc.
Proof. intros Hz E. rewrite <- Z2Qc_inj_0 in E. apply Z2Qc_inj in E. lia. Qed.

Lemma Qc_recip_le_1 z : 1 ≤ z → (1 / Qc_of_Z z ≤ 1)%Qc.
Proof.
  intros Hz. apply (Qcmult_le_mono_pos_r _ _ (Qc_of_Z z)); [apply Qc_of_Z_pos; lia|].
  rewrite Qc_recip_mult by (apply Qc_of_Z_neq_0; lia).
  rewrite Qcmult_1_l. rewrite <- Z2Qc_inj_1. apply (proj1 (Z2Qc_inj_le 1 z)). lia.
Qed.

Lemma Qc_recip_lt_1 z : 2 ≤ z → (1 / Qc_of_Z z < 1)%Qc.
Proof.
  intros Hz. apply Qcnot_le_lt. intros Hle.
  apply (Qcmult_le_mono_pos_r _ _ (Qc_of_Z z)) in Hle; [|apply Qc_of_Z_pos; lia].
  rewrite Qc_recip_mult in Hle by (apply Qc_of_Z_neq_0; lia).
  rewrite Qcmult_1_l in Hle. rewrite <- Z2Qc_inj_1 in Hle.
  apply (proj2 (Z2Qc_inj_le z 1)) in Hle. lia.
Qed.

Lemma ideal_quality_le_1 i : (ideal_quality i ≤ 1)%Qc.
Proof.
  unfold ideal_quality. apply Qc_recip_le_1.
  change 1 with (2 ^ 0) at 1. apply Z.pow_le_mono_r; lia.
Qed.

Lemma ideal_quality_lt_1 i : i ≠ 2 → (ideal_quality i < 1)%Qc.
Proof.
  intros Hi. unfold ideal_quality. apply Qc_recip_lt_1.
  change 2 with (2 ^ 1) at 1. apply Z.pow_le_mono_r; lia.
Qed.

Lemma qsum_le_length (l : list Qc) :
  Forall (λ v, v ≤ 1)%Qc l → (qsum l ≤ Qc_of_Z (Z.of_nat (length l)))%Qc.
Proof.
  induction 1 as [|v l Hv _ IH]; simpl qsum; simpl length.
  - change (Z.of_nat 0) with 0. rewrite Z2Qc_inj_0. apply Qcle_refl.
  - rewrite Nat2Z.inj_succ, <- Z.add_1_l, Z2Qc_inj_add, Z2Qc_inj_1.
    by apply Qcplus_le_compat.
Qed.

Lemma qsum_full (l : list Qc) :
  Forall (λ v, v ≤ 1)%Qc l → (Qc_of_Z (Z.of_nat (length l)) ≤ qsum l)%Qc →
  Forall (λ v, ¬ (v < 1)%Qc) l.
Proof.
  induction 1 as [|v l Hv Hall IH]; [constructor|].
  simpl qsum; simpl length.
  rewrite Nat2Z.inj_succ, <- Z.add_1_l, Z2Qc_inj_add, Z2Qc_inj_1. intros Hge.
  pose proof (qsum_le_length l Hall) as Hle.
  constructor.
  - intros Hlt. apply (Qcle_not_lt _ _ Hge).
    apply Qclt_le_trans with (1 + qsum l)%Qc.
    + by apply Qcplus_lt_mono_r.
    + by apply Qcplus_le_mono_l.
  - apply IH. apply (Qcplus_le_mono_l _ _ 1).
    apply Qcle_trans with (v + qsum l)%Qc; [done|]. by apply Qcplus_le_mono_r.
Qed.

Lemma Qc_clip_low (x : Qc) : (x ≤ 0)%Qc → Qc_clip x 0 1 = 0%Qc.
Proof.
  intros Hx. unfold Qc_clip.
  destruct (decide (x < 0)%Qc) as [Hl|Hl].
  - rewrite (bool_decide_eq_true_2 _ Hl). by rewrite bool_decide_eq_false_2.
  - rewrite (bool_decide_eq_false_2 _ Hl).
    assert (x = 0%Qc) as -> by (apply Qcle_antisym; [done|by apply Qcnot_lt_le]).
    by rewrite bool_decide_eq_false_2.
Qed.

Lemma Qc_clip_high (x : Qc) : (1 ≤ x)%Qc → Qc_clip x 0 1 = 1%Qc.
Proof.
  intros Hx. unfold Qc_clip.
  rewrite (bool_decide_eq_false_2 (x < 0)%Qc).
  - destruct (decide (1 < x)%Qc) as [Hl|Hl].
    + by rewrite (bool_decide_eq_true_2 _ Hl).
    + rewrite (bool_decide_eq_false_2 _ Hl).
      apply Qcle_antisym; [by apply Qcnot_lt_le|done].
  - apply Qcle_not_lt. apply Qcle_trans with 1%Qc; [done|exact Hx].
Qed.

Lemma len_of_ranges (shp : list Z) :
  _len_of_values ((λ n, seqZ 0 n) <$> shp) = Z.of_nat (sum_list_with Z.to_nat shp).
Proof.
  unfold _len_of_values. f_equal.
  induction shp as [|n shp IH]; [done|]. rewrite fmap_cons. simpl.
  by rewrite IH, length_seqZ.
Qed.

Lemma len_all_indices (d : dict) :
  Z.of_nat (length (all_indices d)) = _len_of_values (dict_values d).
Proof.
  unfold all_indices, _len_of_values. f_equal.
  induction (dict_values d) as [|v vs IH]; [done|].
  simpl. by rewrite length_app, IH.
Qed.
End QualityBounds.

Section Preference.
Context `{RS : RandomSource}.
Variable dataloader : DataLoader.
Variables (seed seq_len : Z) (mean_slices_per_mha : Qc) (max_slices_per_mha : Z).
Variable q : Qc.

Local Abbreviation _generate_sequences :=
  (Sequencer._generate_sequences dataloader seed seq_len mean_slices_per_mha max_slices_per_mha q).
Local Abbreviation generate_sequences :=
  (Sequencer.generate_sequences dataloader seed seq_len mean_slices_per_mha max_slices_per_mha q).

Lemma short_indices (shp : list Z) (l : list Z) :
  Forall (λ n, n ≤ 65) shp →
  (∀ x, x ∈ l → ∃ (m : nat) n, shp !! m = Some n ∧ 0 ≤ x < n) →
  Forall (λ x, 0 ≤ x ≤ 64) l.
Proof.
  intros Hshp Hl. apply Forall_forall. intros x Hx.
  destruct (Hl x Hx) as (m & n & Hn & Hr).
  pose proof (Forall_lookup_1 _ _ _ _ Hshp Hn) as H65. simpl in H65. lia.
Qed.

Lemma flt_Fin_false (a b : Qc) : flt (Fin a) (Fin b) = false → (b ≤ a)%Qc.
Proof.
  simpl. intros H. apply Qcnot_lt_le. intros Hlt.
  by rewrite bool_decide_eq_true_2 in H.
Qed.

(** In exact arithmetic a score that is not below the target reaches it. *)
Lemma short_score (shp : list Z) (s : Sequence) (t : Qc) :
  Forall (λ n, n ≤ 65) shp →
  (∀ x, x ∈ all_indices (seq_slices s) → ∃ (m : nat) n, shp !! m = Some n ∧ 0 ≤ x < n) →
  flt (score s) (Fin t) = false →
  score s = Fin (qsum (ideal_quality <$> all_indices (seq_slices s))) ∧
  (t ≤ qsum (ideal_quality <$> all_indices (seq_slices s)))%Qc.
Proof.
  intros Hshort Hidx Hflt.
  assert (Hsc : score s = Fin (qsum (ideal_quality <$> all_indices (seq_slices s)))).
  { apply fsum_quality_short. by eapply short_indices. }
  split; [done|]. rewrite Hsc in Hflt. by apply flt_Fin_false.
Qed.


(** X7.  With a quality preference of zero or less the target is zero and
  no candidate is ever rejected: a case whose modalities have at most 65
  slices yields as many sequences as its slices allow, the total number of
  slices divided by [seq_len], rounded down. *)
Theorem zero_preference_takes_every_full_sequence fuel entropy order coll case sequences shp :
  (q ≤ 0)%Qc → 1 ≤ seq_len →
  shapes dataloader case = Some shp → Forall (λ n, n ≤ 65) shp →
  generate_sequences fuel entropy order = Ok coll →
  coll !! case = Some sequences →
  Z.of_nat (length sequences) = Z.of_nat (sum_list_with Z.to_nat shp) `div` seq_len.
Proof.
  intros Hq Hsl Hshape Hshort Hg Hc.
  destruct (generate_sequences_Ok _ _ _ _ _ _ _ _ _ _ _ _ Hg Hc) as (i & _ & Hw).
  apply worker_run in Hw as (shp' & pool & Hshape' & Hr & _ & Htot & Hstop).
  assert (shp' = shp) as -> by congruence.
  rewrite len_of_ranges in Htot.
  destruct Hstop as [Hlt|(c & g1 & g2 & Hgen & Hflt)].
  - pose proof (len_of_values_nonneg pool).
    apply (Z.div_unique_pos _ _ _ (_len_of_values pool)); lia.
  - exfalso.
    destruct (candidate_indices_in_range _ _ _ _ _ shp _ _ _ _ _ Hr Hgen) as [_ Hidx].
    pose proof (candidate_quality_is_sum _ _ _ _ _ _ _ _ _ _ Hr Hgen) as Hsum.
    rewrite Hsum, fsum_quality_short in Hflt by (by eapply short_indices).
    unfold Sequencer.target in Hflt. rewrite Qc_clip_low, Qcmult_0_l in Hflt by done.
    simpl in Hflt. apply bool_decide_eq_true_1 in Hflt.
    by apply (Qcle_not_lt _ _ (qsum_ideal_nonneg (all_indices (seq_slices c.1.2)))).
Qed.

(** X8.  With a quality preference of one or more the target is [seq_len],
  which only slices of quality one reach: every index of every accepted
  sequence is the center index 2, and over all the sequences of a case at
  most one slice is taken from a modality. *)
Theorem full_preference_takes_center_slices_only fuel entropy order coll case sequences shp :
  (1 ≤ q)%Qc →
  shapes dataloader case = Some shp → Forall (λ n, n ≤ 65) shp →
  generate_sequences fuel entropy order = Ok coll →
  coll !! case = Some sequences →
  (∀ s x, s ∈ sequences → x ∈ all_indices (seq_slices s) → x = 2) ∧
  (∀ m : nat, (length (used m sequences) ≤ 1)%nat).
Proof.
  intros Hq Hshape Hshort Hg Hc.
  assert (Hcenter : ∀ s x, s ∈ sequences → x ∈ all_indices (seq_slices s) → x = 2).
  { intros s x Hs Hx.
    destruct (generate_sequences_Ok _ _ _ _ _ _ _ _ _ _ _ _ Hg Hc) as (i & _ & Hw).
    pose proof (worker_run _ _ _ _ _ _ _ _ _ _ Hw)
      as (shp' & pool & Hshape' & _ & Hrun & _ & _).
    assert (shp' = shp) as -> by congruence.
    rewrite Forall_forall in Hrun. destruct (Hrun s Hs) as (Hflt & _ & Hidx).
    destruct (short_score shp s _ Hshort Hidx Hflt) as [_ Hge].
    apply _generate_sequences_Ok in Hw as (_ & _ & _ & _ & Hall).
    rewrite Forall_forall in Hall. destruct (Hall s Hs) as [Hlen _].
    unfold Sequencer.target in Hge. rewrite Qc_clip_high, Qcmult_1_l in Hge by done.
    rewrite <- Hlen, <- len_all_indices in Hge.
    rewrite <- (length_fmap ideal_quality) in Hge.
    apply qsum_full in Hge.
    - rewrite Forall_fmap, Forall_forall in Hge. specialize (Hge x Hx). simpl in Hge.
      destruct (decide (x = 2)) as [|Hne]; [done|].
      by destruct (Hge (ideal_quality_lt_1 x Hne)).
    - apply Forall_fmap, Forall_forall. intros y _. apply ideal_quality_le_1. }
  split; [done|]. intros m.
  destruct (generate_sequences_Ok _ _ _ _ _ _ _ _ _ _ _ _ Hg Hc) as (i & _ & Hw).
  apply _generate_sequences_Ok in Hw as (shp' & pool & _ & Hperm & _).
  assert (Hnd : NoDup (used m sequences)).
  { pose proof (ranges_NoDup shp' m) as Hnd. rewrite (Hperm m) in Hnd.
    by apply NoDup_app in Hnd as [? _]. }
  assert (Hall2 : ∀ x, x ∈ used m sequences → x = 2).
  { intros x (s & Hs & Hx)%used_elem. apply (Hcenter s x Hs).
    eapply elem_of_submseteq; [exact Hx|apply indices_of_submseteq]. }
  destruct (used m sequences) as [|a [|b l]]; simpl; [lia|lia|].
  exfalso. apply NoDup_cons in Hnd as [Hnin _]. apply Hnin.
  rewrite (Hall2 a) by (by left). rewrite <- (Hall2 b) by (right; by left). by left.
Qed.
End Preference.

Section CallShape.
Context `{RS : RandomSource}.
Variable dataloader : DataLoader.
Variables (seed seq_len : Z) (mean_slices_per_mha : Qc) (max_slices_per_mha : Z).
Variable q : Qc.

Local Abbreviation _generate_sequences :=
  (Sequencer._generate_sequences dataloader seed seq_len mean_slices_per_mha max_slices_per_mha q).
Local Abbreviation futures :=
  (Sequencer.futures dataloader seed seq_len mean_slices_per_mha max_slices_per_mha q).
Local Abbreviation generate_sequences :=
  (Sequencer.generate_sequences dataloader seed seq_len mean_slices_per_mha max_slices_per_mha q).

Lemma collect_dom fs order coll0 coll :
  collect fs order coll0 = Ok coll →
  ∀ key, is_Some (coll !! key) ↔
    is_Some (coll0 !! key) ∨ ∃ (i : nat) r, i ∈ order ∧ fs !! i = Some (key, r).
Proof.
  revert coll0. induction order as [|i order IH]; intros coll0; simpl.
  - intros [= <-] key. split; [by left|]. intros [?|(i & r & Hi & _)]; [done|].
    by apply elem_of_nil in Hi.
  - destruct (fs !! i) as [[key' [v|e|]]|] eqn:E; try done.
    + intros H key. rewrite (IH _ H key). split.
      * intros [Hl|(j & r & Hj & Hf)].
        -- destruct (decide (key' = key)) as [->|Hne].
           ++ right. exists i, (Ok v). split; [by left|done].
           ++ rewrite lookup_insert_ne in Hl by done. by left.
        -- right. exists j, r. split; [by right|done].
      * intros [Hl|(j & r & Hj & Hf)].
        -- left. destruct (decide (key' = key)) as [->|Hne].
           ++ rewrite lookup_insert_eq. by eexists.
           ++ by rewrite lookup_insert_ne.
        -- apply elem_of_cons in Hj as [->|Hj].
           ++ left. rewrite E in Hf. injection Hf as -> _.
              rewrite lookup_insert_eq. by eexists.
           ++ right. by exists j, r.
    + intros H key. rewrite (IH _ H key). split.
      * intros [Hl|(j & r & Hj & Hf)]; [by left|].
        right. exists j, r. split; [by right|done].
      * intros [Hl|(j & r & Hj & Hf)]; [by left|].
        apply elem_of_cons in Hj as [->|Hj]; [congruence|].
        right. by exists j, r.
Qed.

(** X3.  The collection a call returns has an entry for exactly the keys of
  the loader, a case without any accepted sequence included (its list is
  empty); and every sequence stored under a key carries that key as its
  case. *)
Theorem collection_has_every_case fuel entropy order coll :
  order ≡ₚ seq 0 (length (keys dataloader)) →
  generate_sequences fuel entropy order = Ok coll →
  (∀ case, is_Some (coll !! case) ↔ case ∈ keys dataloader) ∧
  (∀ case sequences s, coll !! case = Some sequences → s ∈ sequences → seq_case s = case).
Proof.
  intros Hperm Hg. split.
  - intros case. unfold Sequencer.generate_sequences in Hg.
    destruct (existsb _ _); [done|].
    rewrite (collect_dom _ _ _ _ Hg case). rewrite lookup_empty. split.
    + intros [[? [=]]|(i & r & _ & Hf)].
      apply futures_lookup in Hf as [Hk _]. by eapply list_elem_of_lookup_2.
    + intros (i & Hi)%list_elem_of_lookup. right.
      exists i, (_generate_sequences fuel (entropy i) case). split.
      * rewrite Hperm. apply elem_of_seq. apply lookup_lt_Some in Hi. lia.
      * by apply futures_lookup.
  - intros case sequences s Hc Hs.
    destruct (generate_sequences_Ok _ _ _ _ _ _ _ _ _ _ _ _ Hg Hc) as (i & _ & Hw).
    apply _generate_sequences_Ok in Hw as (shp & pool & _ & _ & Hall).
    rewrite Forall_forall in Hall. by apply Hall.
Qed.
End CallShape.

Section Entries.
Context `{RS : RandomSource}.
Variables (seq_len : Z) (mean_slices_per_mha : Qc) (max_slices_per_mha : Z).
Variable case : string.
Variable slices : list (list Z).

Local Abbreviation take_slices :=
  (Sequencer.take_slices seq_len mean_slices_per_mha max_slices_per_mha slices).
Local Abbreviation candidate_step :=
  (Sequencer.candidate_step seq_len mean_slices_per_mha max_slices_per_mha slices).
Local Abbreviation candidate_loop :=
  (Sequencer.candidate_loop seq_len mean_slices_per_mha max_slices_per_mha slices).
Local Abbreviation generate_candidate :=
  (Sequencer.generate_candidate seq_len mean_slices_per_mha max_slices_per_mha case slices).

Lemma key_lt_irrefl k : ¬ key_lt k k.
Proof. unfold key_lt. lia. Qed.

Lemma key_lt_trans a b c : key_lt a b → key_lt b c → key_lt a c.
Proof. unfold key_lt. lia. Qed.

(** An id not yet in the [dict]: [get] gives the default and the
    assignment appends. *)
Lemma dict_get_fresh (d : dict) k default :
  Forall (λ kv : key * list Z, kv.1 ≠ k) d → dict_get d k default = default.
Proof.
  induction 1 as [|[k' v] d Hk _ IH]; simpl; [done|].
  by rewrite bool_decide_eq_false_2.
Qed.

Lemma dict_set_fresh (d : dict) k v :
  Forall (λ kv : key * list Z, kv.1 ≠ k) d → dict_set d k v = d ++ [(k, v)].
Proof.
  induction 1 as [|[k' v'] d Hk _ IH]; simpl; [done|].
  rewrite bool_decide_eq_false_2 by done. by rewrite IH.
Qed.

Lemma in_cursor_order_snoc (d : dict) k v :
  in_cursor_order d → Forall (λ kv : key * list Z, key_lt kv.1 k) d → in_cursor_order (d ++ [(k, v)]).
Proof.
  intros Ho Hb i j a b Hi Hj Hij. unfold dict in *.
  assert (Hjl : (j < length (d ++ [(k, v)]))%nat) by (by eapply lookup_lt_Some).
  rewrite length_app in Hjl. simpl in Hjl.
  rewrite lookup_app_l in Hi by lia.
  destruct (decide (j < length d)%nat) as [Hjd|Hjd].
  - rewrite lookup_app_l in Hj by done. by eapply Ho.
  - rewrite lookup_app_r in Hj by lia.
    replace (j - length d)%nat with 0%nat in Hj by lia. injection Hj as <-. simpl.
    rewrite Forall_forall in Hb. apply (Hb a). by eapply list_elem_of_lookup_2.
Qed.

(** The cursor moves forward. *)
Lemma cursor_advances (st : cand_state) :
  (cur_m st < length (c_available st))%nat →
  key_lt (cur_loop st, cur_m st) (cur_loop (advanced st), cur_m (advanced st)).
Proof.
  intros Hm. unfold advanced, key_lt. simpl.
  destruct (decide (cur_m st + 1 = length (c_available st))%nat) as [E|E].
  - rewrite E, Nat.Div0.mod_same. rewrite bool_decide_eq_true_2 by done. lia.
  - rewrite Nat.mod_small by lia. rewrite bool_decide_eq_false_2 by lia. lia.
Qed.

Lemma entries_inv_step modalities st len g st' g' :
  entries_inv max_slices_per_mha modalities st →
  candidate_step st len g = Ok (st', g') →
  entries_inv max_slices_per_mha modalities st'.
Proof.
  intros [Ho Hb He Hl] (avail_m & st1 & Ha & Ht & Hadv)%candidate_step_Ok.
  pose proof (lookup_lt_Some _ _ _ Ha) as Hm.
  assert (H1 : in_cursor_order (c_sequence st1) ∧
               Forall (λ kv : key * list Z, kv.1 = (cur_loop st, cur_m st) ∨
                             key_lt kv.1 (cur_loop st, cur_m st)) (c_sequence st1) ∧
               Forall (λ kv, (kv.1.2 < modalities)%nat ∧
                             Z.of_nat (length kv.2) ≤ max_slices_per_mha) (c_sequence st1) ∧
               length (c_available st1) = modalities ∧
               cur_m st1 = cur_m st ∧ cur_loop st1 = cur_loop st).
  { case_bool_decide.
    - apply take_slices_Ok in Ht
        as (slices_m & sel & picked & avail_m' & Hs & Hc & Hp & Hr & ->).
      pose proof (np_choice_available _ _ _ _ _ _ _ Hc) as (_ & _ & Hlen & Hsz).
      assert (Hfresh : Forall (λ kv : key * list Z, kv.1 ≠ (cur_loop st, cur_m st)) (c_sequence st)).
      { eapply Forall_impl; [exact Hb|]. intros kv Hlt E. cbv beta in Hlt. rewrite E in Hlt.
        by apply key_lt_irrefl in Hlt. }
      cbn [c_sequence c_available cur_m cur_loop].
      rewrite dict_get_fresh, dict_set_fresh by done. rewrite app_nil_l.
      split; [by apply in_cursor_order_snoc|]. split; [|split; [|split]].
      + apply Forall_app. split; [|by repeat constructor].
        eapply Forall_impl; [exact Hb|]. intros kv ?. by right.
      + apply Forall_app. split; [done|]. repeat constructor; simpl; [lia|].
        rewrite Hlen. unfold n_slices_of, np_clip in *. lia.
      + by rewrite length_insert.
      + done.
    - destruct Ht as [-> ->]. split; [done|]. split; [|done].
      eapply Forall_impl; [exact Hb|]. intros kv ?. by right. }
  destruct H1 as (Ho1 & Hb1 & He1 & Hl1 & Hm1 & Hlo1).
  assert (Hne : c_available st1 ≠ []).
  { intros E. rewrite E in Hl1. simpl in Hl1. lia. }
  rewrite advance_cursor_advanced in Hadv by done. injection Hadv as <-.
  pose proof (cursor_advances st1 ltac:(lia)) as Hadv.
  split; simpl; try done.
  eapply Forall_impl; [exact Hb1|]. intros kv [->|Hlt].
  - by rewrite <- Hm1, <- Hlo1.
  - eapply key_lt_trans; [exact Hlt|]. by rewrite <- Hm1, <- Hlo1.
Qed.

Lemma entries_inv_loop modalities fuel st g st' g' :
  entries_inv max_slices_per_mha modalities st →
  candidate_loop fuel st g = Ok (st', g') →
  entries_inv max_slices_per_mha modalities st'.
Proof.
  revert st g. induction fuel as [|fuel IH]; intros st g Hinv; simpl.
  - case_bool_decide as Hlen; [done|]. by intros [= <- <-]%ret_Ok.
  - case_bool_decide as Hlen; [|by intros [= <- <-]%ret_Ok].
    intros H. apply bind_Ok in H as (st2 & g2 & Hstep & H).
    eapply IH; [|exact H]. by eapply entries_inv_step.
Qed.

(** The entries of a candidate: in the order of the cursor, each for a
    modality of the case and of at most [max_slices_per_mha] indices. *)
Lemma generate_candidate_entries fuel available g c g' :
  generate_candidate fuel available g = Ok (c, g') →
  in_cursor_order (seq_slices c.1.2) ∧
  Forall (λ kv, (kv.1.2 < length available)%nat ∧
                Z.of_nat (length kv.2) ≤ max_slices_per_mha) (seq_slices c.1.2).
Proof.
  unfold Sequencer.generate_candidate. intros H.
  apply bind_Ok in H as (st & g1 & Hloop & H).
  case_bool_decide as Hlen; [|done]. apply ret_Ok in H as [= -> ->]. simpl.
  apply (entries_inv_loop (length available)) in Hloop as [Ho _ He _]; [done|].
  split; simpl; done.
Qed.
End Entries.

Section Structure.
Context `{RS : RandomSource}.
Variable dataloader : DataLoader.
Variables (seed seq_len : Z) (mean_slices_per_mha : Qc) (max_slices_per_mha : Z).
Variable q : Qc.

Local Abbreviation _generate_sequences :=
  (Sequencer._generate_sequences dataloader seed seq_len mean_slices_per_mha max_slices_per_mha q).
Local Abbreviation generate_sequences :=
  (Sequencer.generate_sequences dataloader seed seq_len mean_slices_per_mha max_slices_per_mha q).

Lemma worker_entries fuel entropy case sequences shp :
  _generate_sequences fuel entropy case = Ok sequences →
  shapes dataloader case = Some shp →
  Forall (λ s, in_cursor_order (seq_slices s) ∧
               Forall (λ kv : key * list Z, (kv.1.2 < length shp)%nat ∧
                             Z.of_nat (length kv.2) ≤ max_slices_per_mha) (seq_slices s))
         sequences.
Proof.
  unfold Sequencer._generate_sequences.
  destruct (if bool_decide (0 ≤ seed) then _ else _) as [r| |]; try done.
  intros H Hshape. rewrite Hshape in H.
  destruct (Sequencer.greedy_loop _ _ _ _ _ _ _ _ _ _ r) as [[seqs g']| |] eqn:E; try done.
  injection H as <-.
  eapply (greedy_loop_run _ _ _ _ _ _ (λ available, length available = length shp)
            (λ s, in_cursor_order (seq_slices s) ∧
                  Forall (λ kv : key * list Z, (kv.1.2 < length shp)%nat ∧
                                Z.of_nat (length kv.2) ≤ max_slices_per_mha) (seq_slices s)))
    in E as (new & pool & -> & Hall & _).
  - by rewrite app_nil_l.
  - intros available g c g1 Hlen _ Hgen _.
    pose proof (generate_candidate_Ok _ _ _ _ _ _ _ _ _ _ Hgen) as (_ & _ & Hl & _).
    apply generate_candidate_entries in Hgen. rewrite Hlen in Hgen.
    split; [congruence|done].
  - by rewrite length_fmap.
Qed.

(** X4.  Every slice index an accepted sequence holds for modality [m] is
  an index of that modality of its case: [m] is one of the modalities and
  the index lies in [[0, shapes[m][0])]. *)
Theorem accepted_indices_are_slices fuel entropy order coll case sequences s shp (m : nat) x :
  generate_sequences fuel entropy order = Ok coll →
  coll !! case = Some sequences → s ∈ sequences →
  shapes dataloader case = Some shp →
  x ∈ indices_of m (seq_slices s) →
  ∃ n, shp !! m = Some n ∧ 0 ≤ x < n.
Proof.
  intros Hg Hc Hs Hshape Hx.
  destruct (generate_sequences_Ok _ _ _ _ _ _ _ _ _ _ _ _ Hg Hc) as (i & _ & Hw).
  apply _generate_sequences_Ok in Hw as (shp' & pool & Hshape' & Hperm & _).
  assert (shp' = shp) as -> by congruence.
  apply (in_range_lookup shp ((λ n, seqZ 0 n) <$> shp) m x (ranges_in_range shp)).
  rewrite (Hperm m). apply elem_of_app. left. apply used_elem. by exists s.
Qed.

(** X5.  The entries of an accepted sequence come in the order the cursor
  visits the ids [(loop, m)], round by round and modality by modality, so
  no id occurs twice; every entry is for a modality of the case and holds
  at most [max_slices_per_mha] indices (possibly none). *)
Theorem accepted_entries_follow_the_cursor fuel entropy order coll case sequences s shp :
  generate_sequences fuel entropy order = Ok coll →
  coll !! case = Some sequences → s ∈ sequences →
  shapes dataloader case = Some shp →
  in_cursor_order (seq_slices s) ∧
  ∀ loop m (v : list Z), ((loop, m), v) ∈ seq_slices s →
    (m < length shp)%nat ∧ 0 ≤ Z.of_nat (length v) ≤ max_slices_per_mha.
Proof.
  intros Hg Hc Hs Hshape.
  destruct (generate_sequences_Ok _ _ _ _ _ _ _ _ _ _ _ _ Hg Hc) as (i & _ & Hw).
  pose proof (worker_entries _ _ _ _ _ Hw Hshape) as Hall.
  rewrite Forall_forall in Hall. destruct (Hall s Hs) as [Ho He].
  split; [done|]. intros loop m v Hin.
  rewrite Forall_forall in He. destruct (He _ Hin) as [Hm Hv]. simpl in *.
  split; [done|lia].
Qed.

Lemma Qc_clip_idemp (x : Qc) : Qc_clip (Qc_clip x 0 1) 0 1 = Qc_clip x 0 1.
Proof.
  destruct (Qclt_le_dec x 0) as [H0|H0].
  - rewrite (Qc_clip_low x) by (by apply Qclt_le_weak). by apply Qc_clip_low.
  - destruct (Qclt_le_dec 1 x) as [H1|H1].
    + rewrite (Qc_clip_high x) by (by apply Qclt_le_weak). by apply Qc_clip_high.
    + unfold Qc_clip at 2.
      rewrite (bool_decide_eq_false_2 (x < 0)%Qc) by (by apply Qcle_not_lt).
      rewrite (bool_decide_eq_false_2 (1 < x)%Qc) by (by apply Qcle_not_lt).
      unfold Qc_clip.
      rewrite (bool_decide_eq_false_2 (x < 0)%Qc) by (by apply Qcle_not_lt).
      by rewrite (bool_decide_eq_false_2 (1 < x)%Qc) by (by apply Qcle_not_lt).
Qed.

(** X9.  A quality preference outside [[0, 1]] is the same call as with
  the preference clamped to that interval: fuel, entropy and completion
  order being equal, the results are equal. *)
Theorem preference_outside_unit_interval_is_clamped fuel entropy order :
  generate_sequences fuel entropy order
  = Sequencer.generate_sequences dataloader seed seq_len mean_slices_per_mha
      max_slices_per_mha (Qc_clip q 0 1) fuel entropy order.
Proof.
  unfold Sequencer.generate_sequences, Sequencer.futures, Sequencer._generate_sequences,
    Sequencer.target.
  by rewrite Qc_clip_idemp.
Qed.
End Structure.

Section Center.
Lemma ideal_quality_step i :
  2 ≤ i → ideal_quality (i + 1) = (ideal_quality i / 2)%Qc.
Proof.
  intros Hi. unfold ideal_quality.
  replace (Z.abs (i + 1 - 2)) with (Z.abs (i - 2) + 1) by lia.
  rewrite Z.pow_add_r, Z.pow_1_r, Z2Qc_inj_mul, Z2Qc_inj_2 by lia.
  field. split; [|done]. apply Qc_of_Z_neq_0. apply Z.pow_pos_nonneg; lia.
Qed.

(** X10.  For the slice indices 0 to 64 the quality is a finite value in
  [(0, 1]]; it is one exactly at index 2, whatever the length of the
  modality; from index 2 on it halves with every step; and it is
  symmetric about index 2. *)
Theorem quality_peaks_at_slice_two i :
  0 ≤ i ≤ 64 →
  ∃ x : Qc,
    slice_quality i = Fin x ∧
    (0 < x ≤ 1)%Qc ∧
    (x = 1%Qc ↔ i = 2) ∧
    (2 ≤ i < 64 → slice_quality (i + 1) = Fin (x / 2)%Qc) ∧
    slice_quality (4 - i) = slice_quality i.
Proof.
  intros Hi. exists (ideal_quality i).
  split; [apply slice_quality_small; lia|].
  split; [split; [apply ideal_quality_pos|apply ideal_quality_le_1]|].
  split; [|split].
  - split.
    + intros E. destruct (decide (i = 2)) as [|Hne]; [done|].
      pose proof (ideal_quality_lt_1 i Hne) as Hlt. rewrite E in Hlt.
      by apply Qclt_not_eq in Hlt.
    + intros ->. unfold ideal_quality. simpl. by apply Qc_is_canon.
  - intros Hi2. rewrite slice_quality_small by lia. f_equal.
    apply ideal_quality_step. lia.
  - unfold slice_quality. by replace (Z.abs (4 - i - 2)) with (Z.abs (i - 2)) by lia.
Qed.
End Center.

Section Edges.
Context `{RS : RandomSource}.
Variables (seq_len : Z) (mean_slices_per_mha : Qc) (max_slices_per_mha : Z).
Variable q : Qc.
Variable case : string.
Variable slices : list (list Z).

Local Abbreviation candidate_loop :=
  (Sequencer.candidate_loop seq_len mean_slices_per_mha max_slices_per_mha slices).
Local Abbreviation generate_candidate :=
  (Sequencer.generate_candidate seq_len mean_slices_per_mha max_slices_per_mha case slices).
Local Abbreviation generate_candidates :=
  (Sequencer.generate_candidates seq_len mean_slices_per_mha max_slices_per_mha case slices).
Local Abbreviation greedy_loop :=
  (Sequencer.greedy_loop seq_len mean_slices_per_mha max_slices_per_mha q case slices).

Lemma bind_OutOfFuel_l {A B} (c : M A) (f : A → M B) g :
  c g = OutOfFuel → (c ≫= f) g = OutOfFuel.
Proof. intros H. unfold mbind, M_bind. by rewrite H. Qed.

Lemma generate_candidates_S n fuel available :
  generate_candidates (S n) fuel available
  = (c ← generate_candidate fuel available;
     cs ← generate_candidates n fuel available; mret (M:=M) (c :: cs)).
Proof. reflexivity. Qed.

(** A batch whose first candidate fails, fails the same way. *)
Lemma generate_candidates_Raise n fuel available g e :
  generate_candidate fuel available g = Raise e →
  generate_candidates (S n) fuel available g = Raise e.
Proof. intros H. rewrite generate_candidates_S. by apply bind_Raise_l. Qed.

Lemma generate_candidates_OutOfFuel n fuel available g :
  generate_candidate fuel available g = OutOfFuel →
  generate_candidates (S n) fuel available g = OutOfFuel.
Proof. intros H. rewrite generate_candidates_S. by apply bind_OutOfFuel_l. Qed.

Lemma greedy_loop_Raise fuel ifuel available sequences g e :
  ¬ _len_of_values available < seq_len →
  generate_candidate ifuel available g = Raise e →
  greedy_loop (S fuel) ifuel available sequences g = Raise e.
Proof.
  intros Hge H. cbn [Sequencer.greedy_loop]. rewrite bool_decide_eq_false_2 by done.
  apply bind_Raise_l. by apply generate_candidates_Raise.
Qed.

Lemma greedy_loop_OutOfFuel fuel ifuel available sequences g :
  ¬ _len_of_values available < seq_len →
  generate_candidate ifuel available g = OutOfFuel →
  greedy_loop fuel ifuel available sequences g = OutOfFuel.
Proof.
  intros Hge H. destruct fuel; cbn [Sequencer.greedy_loop];
    rewrite bool_decide_eq_false_2 by done; [done|].
  apply bind_OutOfFuel_l. by apply generate_candidates_OutOfFuel.
Qed.

(** A candidate that draws nothing leaves the generator as it was; a batch
    of such candidates is a list of copies. *)
Lemma generate_candidates_replicate n fuel available g c :
  generate_candidate fuel available g = Ok (c, g) →
  generate_candidates n fuel available g = Ok (replicate n c, g).
Proof.
  intros H. induction n as [|n IH]; [done|].
  rewrite generate_candidates_S. unfold mbind, M_bind. by rewrite H, IH.
Qed.

Lemma head_sort_by_replicate {A} (k : A → float) n (c : A) :
  head (sort_by k (replicate (S n) c)) = Some c.
Proof.
  pose proof (sort_by_perm k (replicate (S n) c)) as Hp.
  destruct (sort_by k (replicate (S n) c)) as [|x l] eqn:E.
  - apply Permutation_length in Hp. done.
  - simpl. f_equal. assert (Hx : x ∈ replicate (S n) c) by (rewrite <- Hp; by left).
    by apply elem_of_replicate in Hx as [-> _].
Qed.

Lemma candidate_loop_full fuel st g :
  ¬ _len_of_values (dict_values (c_sequence st)) < seq_len →
  candidate_loop fuel st g = Ok (st, g).
Proof. intros H. destruct fuel; simpl; by rewrite bool_decide_eq_false_2. Qed.

(** A negative [seq_len]: the loop of a candidate is not entered, and the
    assertion on its length fails. *)
Lemma generate_candidate_negative fuel available g :
  seq_len < 0 → generate_candidate fuel available g = Raise AssertionError.
Proof.
  intros Hsl. unfold Sequencer.generate_candidate, mbind, M_bind.
  rewrite candidate_loop_full by (unfold _len_of_values; simpl; lia).
  cbn [c_sequence]. rewrite bool_decide_eq_false_2; [done|].
  unfold _len_of_values. simpl. lia.
Qed.

Lemma greedy_loop_negative fuel ifuel available sequences g :
  seq_len < 0 → greedy_loop (S fuel) ifuel available sequences g = Raise AssertionError.
Proof.
  intros Hsl. apply greedy_loop_Raise; [|by apply generate_candidate_negative].
  pose proof (len_of_values_nonneg available). lia.
Qed.

(** [seq_len = 0]: a candidate is empty, draws nothing and leaves the pool
    as it is. *)
Lemma generate_candidate_zero fuel available g :
  seq_len = 0 →
  generate_candidate fuel available g
  = Ok ((Fin 0%Qc, mkSequence case [], available), g).
Proof.
  intros Hsl. unfold Sequencer.generate_candidate, mbind, M_bind.
  rewrite candidate_loop_full by (unfold _len_of_values; simpl; lia).
  cbn [c_sequence]. rewrite bool_decide_eq_true_2; [done|].
  unfold _len_of_values. simpl. lia.
Qed.

Lemma greedy_loop_zero fuel ifuel available sequences g :
  seq_len = 0 → q = 0%Qc →
  greedy_loop fuel ifuel available sequences g = OutOfFuel.
Proof.
  intros Hsl Hq. revert sequences.
  assert (Hge : ¬ _len_of_values available < seq_len).
  { pose proof (len_of_values_nonneg available). lia. }
  induction fuel as [|fuel IH]; intros sequences.
  - simpl. by rewrite bool_decide_eq_false_2.
  - pose proof (generate_candidates_replicate 100 ifuel available g _
                  (generate_candidate_zero ifuel available g Hsl)) as Hc.
    destruct (greedy_loop_round seq_len mean_slices_per_mha max_slices_per_mha q case slices
                fuel ifuel available sequences g _ g Hge Hc) as (w & Hw & ->).
    rewrite (head_sort_by_replicate _ 99) in Hw. injection Hw as <-. simpl.
    rewrite bool_decide_eq_false_2 by (rewrite Hq; apply Qcle_not_lt, Qcle_refl). apply IH.
Qed.
End Edges.

Section EdgesDraw.
Context `{RS : RandomSource}.
Variables (seq_len : Z) (mean_slices_per_mha : Qc) (max_slices_per_mha : Z).
Variable q : Qc.
Variable case : string.
Variable shp : list Z.

Local Abbreviation slices := ((λ n, seqZ 0 n) <$> shp).
Local Abbreviation candidate_loop :=
  (Sequencer.candidate_loop seq_len mean_slices_per_mha max_slices_per_mha slices).
Local Abbreviation generate_candidate :=
  (Sequencer.generate_candidate seq_len mean_slices_per_mha max_slices_per_mha case slices).
Local Abbreviation greedy_loop :=
  (Sequencer.greedy_loop seq_len mean_slices_per_mha max_slices_per_mha q case slices).
Local Abbreviation c_len := (λ st, _len_of_values (dict_values (c_sequence st))).

Lemma loop_ok_init available :
  pool_ok shp available → 1 ≤ seq_len → seq_len ≤ _len_of_values available →
  loop_ok seq_len shp available
    {| c_quality := Fin 0%Qc; c_sequence := []; c_available := available;
       cur_m := 0; cur_loop := 0 |}.
Proof.
  intros Hpool Hsl Hen. split; [apply cand_inv_init|done| |done]. simpl.
  destruct available; [|simpl; lia]. unfold _len_of_values in Hen. simpl in Hen. lia.
Qed.

(** When every draw is clamped to zero slices the candidate never grows. *)
Lemma candidate_loop_stuck available :
  0 ≤ max_slices_per_mha →
  (∀ g av len, len < seq_len →
     n_slices_of seq_len max_slices_per_mha (rng_normal mean_slices_per_mha g).1 av len = 0) →
  ∀ fuel st g, loop_ok seq_len shp available st → c_len st < seq_len →
    candidate_loop fuel st g = OutOfFuel.
Proof.
  intros Hmax Hzero fuel. induction fuel as [|fuel IH]; intros st g Hok Hlt.
  - simpl. by rewrite bool_decide_eq_true_2.
  - destruct (c_available st !! cur_m st) as [[|y av]|] eqn:Ecur.
    + rewrite (skip_step _ _ _ _ available) by done.
      apply IH; [|done]. destruct Hok as [Hinv Hpool Hcur Hen].
      apply loop_ok_advanced; try done. intros E. rewrite E in Hcur. simpl in Hcur. lia.
    + destruct (draw_step seq_len mean_slices_per_mha max_slices_per_mha shp available
                  st g (y :: av) Hok Hlt Ecur ltac:(done) Hmax)
        as (st' & g' & Hok' & Hlen' & _ & _ & Hstep).
      rewrite Hstep. apply IH; [done|]. rewrite Hlen', Hzero by done. lia.
    + apply lookup_ge_None in Ecur. destruct Hok. lia.
Qed.

Lemma greedy_loop_stuck fuel ifuel available sequences g :
  0 ≤ max_slices_per_mha →
  (∀ g av len, len < seq_len →
     n_slices_of seq_len max_slices_per_mha (rng_normal mean_slices_per_mha g).1 av len = 0) →
  1 ≤ seq_len → seq_len ≤ _len_of_values available →
  pool_ok shp available →
  greedy_loop fuel ifuel available sequences g = OutOfFuel.
Proof.
  intros Hmax Hzero Hsl Hen Hpool. apply greedy_loop_OutOfFuel; [lia|].
  unfold Sequencer.generate_candidate. apply bind_OutOfFuel_l.
  apply (candidate_loop_stuck available); [done|done| |simpl; unfold _len_of_values; simpl; lia].
  by apply loop_ok_init.
Qed.

(** With a negative [max_slices_per_mha] the first draw asks for a negative
    number of slices. *)
Lemma candidate_loop_negative_max available st g :
  max_slices_per_mha < 0 →
  loop_ok seq_len shp available st → c_len st < seq_len →
  ∃ F : nat, ∀ fuel, (F ≤ fuel)%nat → candidate_loop fuel st g = Raise ValueError.
Proof.
  intros Hmax Hok Hlt. cbv beta in *.
  assert (Hpos : 0 < _len_of_values (c_available st)).
  { destruct Hok as [[_ _ Htot _ _] _ _ Hen]. lia. }
  destruct (some_nonempty _ Hpos) as (m0 & av0 & Hm0 & Hav0).
  pose proof (lookup_lt_Some _ _ _ Hm0) as Hm0lt.
  assert (Hcur : (cur_m st < length (c_available st))%nat) by (by destruct Hok).
  destruct (walk seq_len mean_slices_per_mha max_slices_per_mha shp available
              (m0 + length (c_available st) - cur_m st) st Hok Hlt)
    as (d' & stw & Hokw & Hlenw & (av & Hav & Hne) & Hrun).
  { exists av0. split; [|done].
    replace (cur_m st + (m0 + length (c_available st) - cur_m st))%nat
      with (m0 + 1 * length (c_available st))%nat by lia.
    rewrite Nat.Div0.mod_add. by rewrite Nat.mod_small. }
  cbv beta in *.
  exists (d' + 1)%nat. intros fuel Hfuel.
  replace fuel with (d' + S (fuel - d' - 1))%nat by lia.
  rewrite Hrun. cbn [Sequencer.candidate_loop].
  rewrite bool_decide_eq_true_2 by lia.
  apply bind_Raise_l. unfold Sequencer.candidate_step.
  rewrite Hav. unfold mbind at 1, M_bind at 1. simpl or_raise. unfold mret at 1, M_ret at 1.
  apply bind_Raise_l.
  rewrite bool_decide_eq_true_2 by (destruct av; [done|simpl; lia]).
  rewrite take_slices_eq. cbv zeta.
  destruct Hokw as [_ Hpool _ _].
  destruct (pool_ok_lookup _ _ _ _ Hpool Hav) as (n & Hn & Hn65 & Hnd & Hin).
  rewrite list_lookup_fmap, Hn. simpl.
  set (n_slices := n_slices_of _ _ _ _ _).
  assert (Hneg : n_slices < 0).
  { unfold n_slices, n_slices_of, np_clip. lia. }
  destruct (weights_of_turn n_slices n av) as (p & Hp & _ & _); try done.
  unfold np_choice. rewrite Hp. rewrite bool_decide_eq_true_2; [done|]. by left.
Qed.

Lemma greedy_loop_negative_max available sequences g :
  max_slices_per_mha < 0 → 1 ≤ seq_len → seq_len ≤ _len_of_values available →
  pool_ok shp available →
  ∃ F : nat, ∀ fuel ifuel, (F ≤ ifuel)%nat →
    greedy_loop (S fuel) ifuel available sequences g = Raise ValueError.
Proof.
  intros Hmax Hsl Hen Hpool.
  destruct (candidate_loop_negative_max available _ g Hmax (loop_ok_init available Hpool Hsl Hen))
    as [F HF]; [simpl; unfold _len_of_values; simpl; lia|].
  exists F. intros fuel ifuel Hi. apply greedy_loop_Raise; [lia|].
  unfold Sequencer.generate_candidate. apply bind_Raise_l. by apply HF.
Qed.
End EdgesDraw.

Section NoRaise.
Context `{RS : RandomSource}.
Variables (seq_len : Z) (mean_slices_per_mha : Qc) (max_slices_per_mha : Z).
Variable q : Qc.
Variable case : string.
Variable shp : list Z.

Local Abbreviation slices := ((λ n, seqZ 0 n) <$> shp).
Local Abbreviation candidate_loop :=
  (Sequencer.candidate_loop seq_len mean_slices_per_mha max_slices_per_mha slices).
Local Abbreviation generate_candidate :=
  (Sequencer.generate_candidate seq_len mean_slices_per_mha max_slices_per_mha case slices).
Local Abbreviation generate_candidates :=
  (Sequencer.generate_candidates seq_len mean_slices_per_mha max_slices_per_mha case slices).
Local Abbreviation greedy_loop :=
  (Sequencer.greedy_loop seq_len mean_slices_per_mha max_slices_per_mha q case slices).




End NoRaise.

Section CallEdges.
Context `{RS : RandomSource}.
Variable dataloader : DataLoader.
Variables (seed seq_len : Z) (mean_slices_per_mha : Qc) (max_slices_per_mha : Z).
Variable q : Qc.

Local Abbreviation _generate_sequences :=
  (Sequencer._generate_sequences dataloader seed seq_len mean_slices_per_mha max_slices_per_mha q).
Local Abbreviation futures :=
  (Sequencer.futures dataloader seed seq_len mean_slices_per_mha max_slices_per_mha q).
Local Abbreviation generate_sequences :=
  (Sequencer.generate_sequences dataloader seed seq_len mean_slices_per_mha max_slices_per_mha q).

(** The worker of a listed case whose shapes are found is the greedy loop,
    run from a generator that the fuel has no part in. *)
Lemma worker_start entropy case shp :
  case ∈ keys dataloader → shapes dataloader case = Some shp →
  ∃ r : G, ∀ fuel,
    _generate_sequences fuel entropy case
    = match Sequencer.greedy_loop seq_len mean_slices_per_mha max_slices_per_mha
              (Sequencer.target seq_len q) case ((λ n, seqZ 0 n) <$> shp)
              fuel fuel ((λ n, seqZ 0 n) <$> shp) [] r with
      | Ok (sequences, _) => Ok sequences
      | Raise e => Raise e
      | OutOfFuel => OutOfFuel
      end.
Proof.
  intros Hin Hshape.
  destruct (seeds_from_is_Some seed 0 (keys dataloader) ∅ case Hin) as [s Hs].
  exists (if bool_decide (0 ≤ seed) then default_rng s else entropy). intros fuel.
  unfold Sequencer._generate_sequences, Sequencer.seeds. rewrite Hs, Hshape.
  by destruct (bool_decide (0 ≤ seed)).
Qed.

Lemma call_out_of_fuel fuel entropy order (i : nat) case :
  keys dataloader !! i = Some case →
  _generate_sequences fuel (entropy i) case = OutOfFuel →
  generate_sequences fuel entropy order = OutOfFuel.
Proof.
  intros Hi Hw. unfold Sequencer.generate_sequences.
  assert (Hex : existsb (λ f, is_out_of_fuel f.2) (futures fuel entropy) = true);
    [|by rewrite Hex].
  apply existsb_exists. exists (case, OutOfFuel). split; [|done].
  apply list_elem_of_In. apply list_elem_of_lookup. exists i.
  apply futures_lookup. by rewrite Hw.
Qed.

Lemma call_not_Ok fuel entropy order (i : nat) case e :
  order ≡ₚ seq 0 (length (keys dataloader)) →
  keys dataloader !! i = Some case →
  _generate_sequences fuel (entropy i) case = Raise e →
  ∀ coll, generate_sequences fuel entropy order ≠ Ok coll.
Proof.
  intros Hperm Hi Hr coll.
  assert (Hin : i ∈ order).
  { rewrite Hperm. apply elem_of_seq. apply lookup_lt_Some in Hi. lia. }
  assert (Hf : futures fuel entropy !! i = Some (case, Raise e)).
  { by apply futures_lookup. }
  destruct (collect_not_Ok _ order ∅ i case e Hin Hf) as (j & key & r & _ & _ & _ & Hc).
  unfold Sequencer.generate_sequences.
  destruct (existsb _ _); [done|]. rewrite Hc. by destruct r.
Qed.

Lemma uniform_fuel {A} (l : list A) (P : nat → A → nat → Prop) :
  (∀ (i : nat) a, l !! i = Some a → ∃ F : nat, ∀ fuel, (F ≤ fuel)%nat → P i a fuel) →
  ∃ F : nat, ∀ (i : nat) a, l !! i = Some a → ∀ fuel, (F ≤ fuel)%nat → P i a fuel.
Proof.
  revert P. induction l as [|x l IH]; intros P H.
  - exists 0%nat. by intros i a ?.
  - destruct (H 0%nat x eq_refl) as [F0 H0].
    destruct (IH (λ i, P (S i))) as [F1 H1].
    { intros i a Hi. by apply (H (S i)). }
    exists (F0 `max` F1)%nat. intros [|i] a Hi fuel Hfuel.
    + injection Hi as <-. apply H0. lia.
    + apply (H1 i a Hi). lia.
Qed.
End CallEdges.

Section CallTheorems.
Context `{RS : RandomSource}.
Variable dataloader : DataLoader.
Variables (seed seq_len : Z) (mean_slices_per_mha : Qc) (max_slices_per_mha : Z).
Variable q : Qc.

Local Abbreviation _generate_sequences :=
  (Sequencer._generate_sequences dataloader seed seq_len mean_slices_per_mha max_slices_per_mha q).
Local Abbreviation futures :=
  (Sequencer.futures dataloader seed seq_len mean_slices_per_mha max_slices_per_mha q).
Local Abbreviation generate_sequences :=
  (Sequencer.generate_sequences dataloader seed seq_len mean_slices_per_mha max_slices_per_mha q).

(** X11.  A negative [seq_len]: the worker of every case whose shapes are
  found skips the candidate loop and fails the assertion on the length of
  its first candidate, so the call returns no collection. *)
Theorem negative_seq_len_fails_the_assertion fuel entropy order (i : nat) case shp :
  seq_len < 0 →
  order ≡ₚ seq 0 (length (keys dataloader)) →
  keys dataloader !! i = Some case → shapes dataloader case = Some shp →
  _generate_sequences (S fuel) (entropy i) case = Raise AssertionError ∧
  ∀ coll, generate_sequences (S fuel) entropy order ≠ Ok coll.
Proof.
  intros Hsl Hperm Hi Hshape.
  assert (Hw : _generate_sequences (S fuel) (entropy i) case = Raise AssertionError).
  { destruct (worker_start dataloader seed seq_len mean_slices_per_mha max_slices_per_mha q
                (entropy i) case shp) as [r ->]; [by eapply list_elem_of_lookup_2|done|].
    by rewrite greedy_loop_negative. }
  split; [done|]. by eapply call_not_Ok.
Qed.

(** X12.  [seq_len = 0]: every candidate is empty, scores zero and meets
  the target zero, so the greedy loop of a case accepts empty sequences
  without end and leaves its pool as it is; whatever the fuel, the call
  does not return. *)
Theorem zero_seq_len_never_returns fuel entropy order (i : nat) case shp :
  seq_len = 0 →
  keys dataloader !! i = Some case → shapes dataloader case = Some shp →
  generate_sequences fuel entropy order = OutOfFuel.
Proof.
  intros Hsl Hi Hshape. apply (call_out_of_fuel _ _ _ _ _ _ _ _ _ i case Hi).
  destruct (worker_start dataloader seed seq_len mean_slices_per_mha max_slices_per_mha q
              (entropy i) case shp) as [r ->]; [by eapply list_elem_of_lookup_2|done|].
  rewrite greedy_loop_zero; [done|done|].
  unfold Sequencer.target. rewrite Hsl, Z2Qc_inj_0. apply Qcmult_0_r.
Qed.

(** X13.  [max_slices_per_mha = 0]: every draw is clamped to zero slices,
  so a candidate never grows; for a case with at least [seq_len] slices
  the candidate loop does not end and the call does not return, whatever
  the fuel. *)
Theorem zero_max_slices_never_returns fuel entropy order (i : nat) case shp :
  max_slices_per_mha = 0 → 1 ≤ seq_len →
  keys dataloader !! i = Some case → shapes dataloader case = Some shp →
  Forall (λ n, n ≤ 65) shp → seq_len ≤ Z.of_nat (sum_list_with Z.to_nat shp) →
  generate_sequences fuel entropy order = OutOfFuel.
Proof.
  intros Hmax Hsl Hi Hshape Hshort Hen. apply (call_out_of_fuel _ _ _ _ _ _ _ _ _ i case Hi).
  destruct (worker_start dataloader seed seq_len mean_slices_per_mha max_slices_per_mha q
              (entropy i) case shp) as [r ->]; [by eapply list_elem_of_lookup_2|done|].
  rewrite greedy_loop_stuck; [done|lia| |done| |by apply ranges_pool_ok].
  - intros g av len Hlen. unfold n_slices_of, np_clip. lia.
  - by rewrite len_of_ranges.
Qed.

(** X14.  When the generator never draws a count above zero (a mean far
  below zero) every draw takes nothing, and for a case with at least
  [seq_len] slices the call does not return, whatever the fuel: the
  hypothesis on the generator under which a call returns cannot be
  dropped. *)
Theorem draws_below_one_never_return fuel entropy order (i : nat) case shp :
  (∀ g, (rng_normal mean_slices_per_mha g).1 ≤ 0) →
  0 ≤ max_slices_per_mha → 1 ≤ seq_len →
  keys dataloader !! i = Some case → shapes dataloader case = Some shp →
  Forall (λ n, n ≤ 65) shp → seq_len ≤ Z.of_nat (sum_list_with Z.to_nat shp) →
  generate_sequences fuel entropy order = OutOfFuel.
Proof.
  intros Hlow Hmax Hsl Hi Hshape Hshort Hen.
  apply (call_out_of_fuel _ _ _ _ _ _ _ _ _ i case Hi).
  destruct (worker_start dataloader seed seq_len mean_slices_per_mha max_slices_per_mha q
              (entropy i) case shp) as [r ->]; [by eapply list_elem_of_lookup_2|done|].
  rewrite greedy_loop_stuck; [done|lia| |done| |by apply ranges_pool_ok].
  - intros g av len Hlen. specialize (Hlow g). unfold n_slices_of, np_clip. lia.
  - by rewrite len_of_ranges.
Qed.

(** X15.  A negative [max_slices_per_mha]: the first draw of a case with at
  least [seq_len] slices asks [r.choice] for a negative number of slices,
  which is a [ValueError]; the call returns no collection. *)
Theorem negative_max_slices_raises entropy order (i : nat) case shp :
  max_slices_per_mha < 0 → 1 ≤ seq_len →
  order ≡ₚ seq 0 (length (keys dataloader)) →
  keys dataloader !! i = Some case → shapes dataloader case = Some shp →
  Forall (λ n, n ≤ 65) shp → seq_len ≤ Z.of_nat (sum_list_with Z.to_nat shp) →
  ∃ F : nat, ∀ fuel, (F ≤ fuel)%nat →
    _generate_sequences fuel (entropy i) case = Raise ValueError ∧
    ∀ coll, generate_sequences fuel entropy order ≠ Ok coll.
Proof.
  intros Hmax Hsl Hperm Hi Hshape Hshort Hen.
  destruct (worker_start dataloader seed seq_len mean_slices_per_mha max_slices_per_mha q
              (entropy i) case shp) as [r Hr]; [by eapply list_elem_of_lookup_2|done|].
  destruct (greedy_loop_negative_max seq_len mean_slices_per_mha max_slices_per_mha
              (Sequencer.target seq_len q) case shp ((λ n, seqZ 0 n) <$> shp) [] r)
    as [F HF]; [done|done|by rewrite len_of_ranges|by apply ranges_pool_ok|].
  exists (S F). intros fuel Hfuel. destruct fuel as [|fuel]; [lia|].
  assert (Hw : _generate_sequences (S fuel) (entropy i) case = Raise ValueError).
  { rewrite Hr, HF by lia. done. }
  split; [done|]. by eapply call_not_Ok.
Qed.

(** X1.  When every listed case can be looked up and has no modality
  longer than 65 slices, [seq_len] and [max_slices_per_mha] are at least
  one, and the generator does not draw below one forever, the call returns
  a collection: the same one for every fuel that is large enough. *)
Theorem well_formed_call_returns entropy order :
  short_modalities dataloader → fair mean_slices_per_mha →
  1 ≤ max_slices_per_mha → 1 ≤ seq_len →
  ∃ (F : nat) coll, ∀ fuel, (F ≤ fuel)%nat →
    generate_sequences fuel entropy order = Ok coll.
Proof.
  intros Hshort Hfair Hmax Hsl.
  destruct (uniform_fuel (keys dataloader)
              (λ i key fuel, ∃ sequences,
                 ∀ fuel', (fuel ≤ fuel')%nat →
                   _generate_sequences fuel' (entropy i) key = Ok sequences))
    as [F HF].
  { intros i key Hi.
    destruct (Hshort key) as (shp & Hshape & H65); [by eapply list_elem_of_lookup_2|].
    destruct (worker_returns dataloader seed seq_len mean_slices_per_mha max_slices_per_mha q
                (entropy i) key shp) as (F & sequences & HF);
      [by eapply list_elem_of_lookup_2|done..|].
    exists F. intros fuel Hfuel. exists sequences. intros fuel' Hfuel'. apply HF. lia. }
  assert (Hfs : ∀ fuel, (F ≤ fuel)%nat → futures fuel entropy = futures F entropy).
  { intros fuel Hfuel. apply list_eq. intros i.
    destruct (keys dataloader !! i) as [key|] eqn:Ei.
    - destruct (HF i key Ei F (le_n _)) as [sequences Hs].
      rewrite (proj2 (futures_lookup _ _ _ _ _ _ fuel entropy i key (Ok sequences)))
        by (split; [done|by rewrite Hs]).
      symmetry. apply futures_lookup. split; [done|]. by rewrite Hs.
    - unfold Sequencer.futures. by rewrite !list_lookup_imap, Ei. }
  destruct (collect_is_Ok (futures F entropy) order ∅) as [coll Hcoll].
  { intros i key r _ Hf. apply futures_lookup in Hf as [Hk ->].
    destruct (HF i key Hk F (le_n _)) as [sequences Hs]. exists sequences. by apply Hs. }
  exists F, coll. intros fuel Hfuel. unfold Sequencer.generate_sequences.
  rewrite (Hfs fuel Hfuel). rewrite existsb_out_of_fuel_false; [done|].
  intros j key Hk. destruct (HF j key Hk F (le_n _)) as [sequences Hs].
  by rewrite Hs.
Qed.
End CallTheorems.

Section Errors.
Context `{RS : RandomSource}.
Variables (seq_len : Z) (mean_slices_per_mha : Qc) (max_slices_per_mha : Z).
Variable q : Qc.
Variable case : string.
Variable shp : list Z.

Local Abbreviation slices := ((λ n, seqZ 0 n) <$> shp).
Local Abbreviation take_slices :=
  (Sequencer.take_slices seq_len mean_slices_per_mha max_slices_per_mha slices).
Local Abbreviation candidate_step :=
  (Sequencer.candidate_step seq_len mean_slices_per_mha max_slices_per_mha slices).
Local Abbreviation candidate_loop :=
  (Sequencer.candidate_loop seq_len mean_slices_per_mha max_slices_per_mha slices).
Local Abbreviation generate_candidate :=
  (Sequencer.generate_candidate seq_len mean_slices_per_mha max_slices_per_mha case slices).
Local Abbreviation generate_candidates :=
  (Sequencer.generate_candidates seq_len mean_slices_per_mha max_slices_per_mha case slices).
Local Abbreviation greedy_loop :=
  (Sequencer.greedy_loop seq_len mean_slices_per_mha max_slices_per_mha q case slices).









End Errors.

Section Diagnosis.
Context `{RS : RandomSource}.
Variable dataloader : DataLoader.
Variables (seed seq_len : Z) (mean_slices_per_mha : Qc) (max_slices_per_mha : Z).
Variable q : Qc.

Local Abbreviation _generate_sequences :=
  (Sequencer._generate_sequences dataloader seed seq_len mean_slices_per_mha max_slices_per_mha q).
Local Abbreviation generate_sequences :=
  (Sequencer.generate_sequences dataloader seed seq_len mean_slices_per_mha max_slices_per_mha q).

End Diagnosis.

Section Completion.
Context `{RS : RandomSource}.
Variable dataloader : DataLoader.
Variables (seed seq_len : Z) (mean_slices_per_mha : Qc) (max_slices_per_mha : Z).
Variable q : Qc.

Local Abbreviation _generate_sequences :=
  (Sequencer._generate_sequences dataloader seed seq_len mean_slices_per_mha max_slices_per_mha q).
Local Abbreviation futures :=
  (Sequencer.futures dataloader seed seq_len mean_slices_per_mha max_slices_per_mha q).
Local Abbreviation generate_sequences :=
  (Sequencer.generate_sequences dataloader seed seq_len mean_slices_per_mha max_slices_per_mha q).



Lemma collect_nil order coll0 : collect [] order coll0 = Ok coll0.
Proof.
  induction order as [|i order IH]; [done|].
  cbn [collect]. by rewrite lookup_nil.
Qed.

(** X17.  A loader without cases gives the empty collection, whatever the
  other arguments: no worker is started, so no argument is checked. *)
Theorem empty_loader_gives_empty_collection fuel entropy order :
  keys dataloader = [] → generate_sequences fuel entropy order = Ok ∅.
Proof.
  intros Hk. unfold Sequencer.generate_sequences, Sequencer.futures. rewrite Hk. simpl.
  apply collect_nil.
Qed.
End Completion.

(** ** Runs of the model *)

(** Two cases: ["a"] with two modalities of 6 and 4 slices, ["b"] with one
    modality of 5 slices. *)
Definition demo_loader : DataLoader :=
  {| keys := ["a"; "b"];
     shapes := λ c, if bool_decide (c = "a") then Some [6; 4]
                    else if bool_decide (c = "b") then Some [5] else None |}.

(** A loader whose second case cannot be looked up. *)
Definition broken_loader : DataLoader :=
  {| keys := ["a"; "x"];
     shapes := λ c, if bool_decide (c = "a") then Some [6; 4] else None |}.

(** One case of one modality with five slices. *)
Definition five_loader : DataLoader :=
  {| keys := ["c"]; shapes := λ c, if bool_decide (c = "c") then Some [5] else None |}.


(** The value of a run that returned, [d] otherwise. *)
Definition returned {A} (d : A) (r : res A) : A :=
  match r with Ok a => a | _ => d end.

Definition demo_run (order : list nat) : res SequenceCollection :=
  Sequencer.generate_sequences (RS:=cycle_rng) demo_loader 11 3 (Q2Qc 2) 3 (Q2Qc (1 # 10))
    50 (λ _, 0%nat) order.

Definition demo_collection : SequenceCollection := returned ∅ (demo_run [1; 0]%nat).

Definition demo_sequences : list Sequence :=
  [ {| seq_case := "a"; seq_slices := [((0, 0)%nat, [5; 0]); ((0, 1)%nat, [3])] |};
    {| seq_case := "a"; seq_slices := [((0, 0)%nat, [2; 3]); ((0, 1)%nat, [0])] |};
    {| seq_case := "a"; seq_slices := [((0, 0)%nat, [4; 1]); ((0, 1)%nat, [2])] |} ].

Definition demo_pool : list (list Z) := [seqZ 0 6; seqZ 0 4].




Definition demo_candidate : candidate * nat :=
  returned ((NaN, mkSequence "a" [], []), 0%nat)
    (Sequencer.generate_candidate (RS:=cycle_rng) 3 (Q2Qc 2) 3 "a" demo_pool
            50 demo_pool 11%nat).

Definition demo_greedy : list Sequence * nat :=
  returned ([], 0%nat)
    (Sequencer.greedy_loop (RS:=cycle_rng) 3 (Q2Qc 2) 3 (Q2Qc (3 # 10)) "a" demo_pool
            50 50 demo_pool [] 11%nat).

Lemma demo_run_value : demo_run [1; 0]%nat = Ok demo_collection.
Proof. vm_compute. reflexivity. Qed.

Lemma demo_collection_a : demo_collection !! "a" = Some demo_sequences.
Proof. vm_compute. reflexivity. Qed.

Lemma accepted_sequences_have_seq_len_witness :
  demo_run [1; 0]%nat = Ok demo_collection ∧
  demo_collection !! "a" = Some demo_sequences ∧
  Forall (λ s, _len_of_values (dict_values (seq_slices s)) = 3) demo_sequences ∧
  demo_run [1; 0]%nat ≠ Raise AssertionError.
Proof.
  destruct (accepted_sequences_have_seq_len (RS:=cycle_rng) demo_loader 11 3 (Q2Qc 2) 3
              (Q2Qc (1 # 10)) 50 (λ _, 0%nat) [1; 0]%nat) as [H1 H2].
  split; [exact demo_run_value|]. split; [exact demo_collection_a|]. split.
  - apply Forall_forall. intros s Hs.
    exact (H1 _ _ _ _ demo_run_value demo_collection_a Hs).
  - apply H2. lia.
Defined.

Lemma no_slice_reused_across_sequences_witness :
  NoDup (used 0 demo_sequences) ∧ NoDup (used 1 demo_sequences).
Proof.
  split.
  - exact (proj1 (no_slice_reused_across_sequences (RS:=cycle_rng) demo_loader 11 3 (Q2Qc 2) 3
                    (Q2Qc (1 # 10)) 50 (λ _, 0%nat) [1; 0]%nat demo_collection "a"
                    demo_sequences demo_run_value demo_collection_a 0%nat)).
  - exact (proj1 (no_slice_reused_across_sequences (RS:=cycle_rng) demo_loader 11 3 (Q2Qc 2) 3
                    (Q2Qc (1 # 10)) 50 (λ _, 0%nat) [1; 0]%nat demo_collection "a"
                    demo_sequences demo_run_value demo_collection_a 1%nat)).
Defined.

Lemma demo_keys_NoDup : NoDup (keys demo_loader).
Proof.
  apply NoDup_cons. split; [|apply NoDup_singleton].
  intros Hin%list_elem_of_singleton. discriminate.
Qed.

Lemma seeded_generation_is_deterministic_witness :
  Sequencer.seeds demo_loader 11 !! "b" = Some 12 ∧
  Sequencer.generate_sequences (RS:=cycle_rng) demo_loader 11 3 (Q2Qc 2) 3 (Q2Qc (1 # 10))
    50 (λ i, (7 + i)%nat) [0; 1]%nat = Ok demo_collection.
Proof.
  destruct (seeded_generation_is_deterministic (RS:=cycle_rng) demo_loader 11 3 (Q2Qc 2) 3
              (Q2Qc (1 # 10)) ltac:(lia)) as (Hseed & _ & Hdet).
  split.
  - exact (Hseed 1%nat "b" demo_keys_NoDup eq_refl).
  - apply (Hdet 50%nat (λ _, 0%nat) (λ i, (7 + i)%nat) [1; 0]%nat [0; 1]%nat).
    + apply Permutation_swap.
    + reflexivity.
    + exact demo_run_value.
Defined.




Lemma demo_candidate_value :
  Sequencer.generate_candidate (RS:=cycle_rng) 3 (Q2Qc 2) 3 "a" demo_pool 50 demo_pool
    11%nat = Ok (demo_candidate.1, demo_candidate.2).
Proof. vm_compute. reflexivity. Qed.

Lemma demo_greedy_value :
  Sequencer.greedy_loop (RS:=cycle_rng) 3 (Q2Qc 2) 3 (Q2Qc (3 # 10)) "a" demo_pool
    50 50 demo_pool [] 11%nat = Ok (demo_greedy.1, demo_greedy.2).
Proof. vm_compute. reflexivity. Qed.

Lemma exhausted_case_produces_nothing_more_witness :
  Sequencer.greedy_loop (RS:=cycle_rng) 3 (Q2Qc 2) 3 (Q2Qc (3 # 10)) "a" demo_pool
    50 50 [[0; 1]; []] demo_sequences 11%nat = Ok (demo_sequences, 11%nat) ∧
  _len_of_values demo_candidate.1.2 ≤ _len_of_values demo_pool ∧
  ∃ new, demo_greedy.1 = [] ++ new ∧
         3 * Z.of_nat (length new) ≤ _len_of_values demo_pool.
Proof.
  destruct (exhausted_case_produces_nothing_more (RS:=cycle_rng) 3 (Q2Qc 2) 3
              (Q2Qc (3 # 10)) "a" demo_pool) as (H1 & H2 & H3).
  split; [|split].
  - apply H1. by vm_compute.
  - exact (proj2 (proj2 (H2 _ _ _ _ _ demo_candidate_value))).
  - exact (H3 _ _ _ _ _ _ _ demo_greedy_value).
Defined.

Lemma five_loader_fair : fair (RS:=cycle_rng) (Q2Qc 2).
Proof. apply cycle_fair. by vm_compute. Qed.

Lemma five_slices_give_one_sequence_witness :
  ∃ (F : nat) (s : Sequence),
    (∀ fuel, (F ≤ fuel)%nat →
       Sequencer.generate_sequences (RS:=cycle_rng) five_loader 11 5 (Q2Qc 2) 3
         (Q2Qc (1 # 2)) fuel (λ _, 0%nat) [0%nat] = Ok {["c" := [s]]}) ∧
    seq_case s = "c" ∧
    _len_of_values (dict_values (seq_slices s)) = 5 ∧
    all_indices (seq_slices s) ≡ₚ [0; 1; 2; 3; 4].
Proof.
  exact (five_slices_give_one_sequence (RS:=cycle_rng) five_loader "c" 11 (Q2Qc 2)
           (Q2Qc (1 # 2)) (λ _, 0%nat) eq_refl eq_refl five_loader_fair (Qcle_refl _)).
Defined.



Lemma broken_case_value :
  Sequencer._generate_sequences (RS:=cycle_rng) broken_loader 11 3 (Q2Qc 2) 3
    (Q2Qc (1 # 10)) 50 0%nat "x" = Raise LookupFailure.
Proof. vm_compute. reflexivity. Qed.

Lemma broken_others_return (j : nat) key :
  j ≠ 1%nat → keys broken_loader !! j = Some key →
  ∃ v, Sequencer._generate_sequences (RS:=cycle_rng) broken_loader 11 3 (Q2Qc 2) 3
         (Q2Qc (1 # 10)) 50 0%nat key = Ok v.
Proof.
  intros Hj Hk. destruct j as [|[|j]]; [|done|done].
  injection Hk as <-. eexists. vm_compute. reflexivity.
Qed.

Lemma failed_case_fails_the_call_witness :
  Sequencer.generate_sequences (RS:=cycle_rng) broken_loader 11 3 (Q2Qc 2) 3 (Q2Qc (1 # 10))
    50 (λ _, 0%nat) [0; 1]%nat = Raise LookupFailure.
Proof.
  destruct (failed_case_fails_the_call (RS:=cycle_rng) broken_loader 11 3 (Q2Qc 2) 3
              (Q2Qc (1 # 10)) 50 (λ _, 0%nat) [0; 1]%nat (reflexivity _)) as [H _].
  destruct (H 1%nat "x" LookupFailure eq_refl broken_case_value) as (_ & _ & H3).
  apply H3. exact broken_others_return.
Defined.

Lemma single_draw_fails_on_long_modality_witness :
  Sequencer.greedy_loop (RS:=cycle_rng) 15 (Q2Qc 1) 3 (Q2Qc (15 # 2)) "c"
    ((λ n, seqZ 0 n) <$> [67]) 1 1 ((λ n, seqZ 0 n) <$> [67]) [] 0%nat
  = Raise ValueError.
Proof.
  apply (single_draw_fails_on_long_modality (RS:=cycle_rng) 67 15 (Q2Qc 1) 3
           (Q2Qc (15 # 2)) "c" 0 0 0%nat); [lia|lia|lia|].
  vm_compute. reflexivity.
Defined.


(** A negative [seq_len] is outside the documented range: the candidate
    loop is never entered and the assertion fires. *)
Example negative_seq_len_asserts :
  Sequencer.generate_sequences (RS:=cycle_rng) five_loader 0 (-1) (Q2Qc 2) 3 (Q2Qc (1 # 2))
    20 (λ _, 0%nat) [0%nat] = Raise AssertionError.
Proof. vm_compute. reflexivity. Qed.

(** With a quality preference above one half the five slices fall short of
    the target, and the case yields no sequence. *)
Example five_slices_high_preference :
  Sequencer.generate_sequences (RS:=cycle_rng) five_loader 0 5 (Q2Qc 2) 3 (Q2Qc 1)
    20 (λ _, 0%nat) [0%nat] = Ok {["c" := []]}.
Proof. vm_compute. reflexivity. Qed.

(** ** Further runs of the model *)

(** One case of three modalities with three slices each. *)
Definition three_loader : DataLoader :=
  {| keys := ["c"];
     shapes := λ c, if bool_decide (c = "c") then Some [3; 3; 3] else None |}.

(** A loader without cases. *)
Definition empty_loader : DataLoader := {| keys := []; shapes := λ _, None |}.

(** The five slices of [five_loader] with no preference for quality. *)
Definition five_zero_sequences : list Sequence :=
  [ {| seq_case := "c";
       seq_slices := [((0, 0)%nat, [1; 2]); ((1, 0)%nat, [0; 3; 4])] |} ].

(** The one sequence of [three_loader] under full preference. *)
Definition center_sequences : list Sequence :=
  [ {| seq_case := "c"; seq_slices := [((0, 0)%nat, [2])] |} ].

Lemma demo_short : short_modalities demo_loader.
Proof.
  intros case [->|Hin]%elem_of_cons.
  - exists [6; 4]. split; [reflexivity|]. repeat constructor; lia.
  - apply list_elem_of_singleton in Hin as ->. exists [5].
    split; [reflexivity|]. repeat constructor; lia.
Qed.

Lemma five_zero_run_value :
  Sequencer.generate_sequences (RS:=cycle_rng) five_loader 0 5 (Q2Qc 2) 3 (Q2Qc 0)
    20 (λ _, 0%nat) [0%nat] = Ok {["c" := five_zero_sequences]}.
Proof. vm_compute. reflexivity. Qed.

Lemma center_run_value :
  Sequencer.generate_sequences (RS:=cycle_rng) three_loader 0 1 (Q2Qc 1) 1 (Q2Qc 1)
    30 (λ _, 0%nat) [0%nat] = Ok {["c" := center_sequences]}.
Proof. vm_compute. reflexivity. Qed.

Lemma cycle_draws_low (g : nat) : (rng_normal (RandomSource:=cycle_rng) (Q2Qc (-5)) g).1 ≤ 0.
Proof.
  cbn [rng_normal cycle_rng]. unfold Cycle.normal. cbn [fst].
  change (Cycle.round_half_up (Q2Qc (-5))) with (-5).
  destruct (g `mod` 4)%nat as [|[|[|[|n]]]]; simpl; try lia. destruct n; lia.
Qed.

Lemma well_formed_call_returns_witness :
  ∃ (F : nat) coll, ∀ fuel, (F ≤ fuel)%nat →
    Sequencer.generate_sequences (RS:=cycle_rng) demo_loader 11 3 (Q2Qc 2) 3 (Q2Qc (1 # 10))
      fuel (λ _, 0%nat) [1; 0]%nat = Ok coll.
Proof.
  apply (well_formed_call_returns (RS:=cycle_rng) demo_loader 11 3 (Q2Qc 2) 3 (Q2Qc (1 # 10))
           (λ _, 0%nat) [1; 0]%nat demo_short five_loader_fair); lia.
Defined.


Lemma collection_has_every_case_witness :
  (is_Some (demo_collection !! "b") ↔ "b" ∈ keys demo_loader) ∧
  Forall (λ s, seq_case s = "a") demo_sequences.
Proof.
  destruct (collection_has_every_case (RS:=cycle_rng) demo_loader 11 3 (Q2Qc 2) 3
              (Q2Qc (1 # 10)) 50 (λ _, 0%nat) [1; 0]%nat demo_collection
              (Permutation_swap _ _ _) demo_run_value) as [H1 H2].
  split; [apply H1|]. apply Forall_forall. intros s Hs.
  exact (H2 "a" demo_sequences s demo_collection_a Hs).
Defined.

Lemma accepted_indices_are_slices_witness :
  ∃ n, [6; 4] !! 0%nat = Some n ∧ 0 ≤ 5 < n.
Proof.
  apply (accepted_indices_are_slices (RS:=cycle_rng) demo_loader 11 3 (Q2Qc 2) 3
           (Q2Qc (1 # 10)) 50 (λ _, 0%nat) [1; 0]%nat demo_collection "a" demo_sequences
           {| seq_case := "a"; seq_slices := [((0, 0)%nat, [5; 0]); ((0, 1)%nat, [3])] |}
           [6; 4] 0%nat 5 demo_run_value demo_collection_a).
  - by left.
  - reflexivity.
  - simpl. by left.
Defined.

Lemma accepted_entries_follow_the_cursor_witness :
  in_cursor_order [((0, 0)%nat, [1; 2]); ((1, 0)%nat, [0; 3; 4])] ∧
  ∀ loop m (v : list Z),
    ((loop, m), v) ∈ [((0, 0)%nat, [1; 2]); ((1, 0)%nat, [0; 3; 4])] →
    (m < length [5])%nat ∧ 0 ≤ Z.of_nat (length v) ≤ 3.
Proof.
  apply (accepted_entries_follow_the_cursor (RS:=cycle_rng) five_loader 0 5 (Q2Qc 2) 3
           (Q2Qc 0) 20 (λ _, 0%nat) [0%nat] _ "c" five_zero_sequences
           {| seq_case := "c";
              seq_slices := [((0, 0)%nat, [1; 2]); ((1, 0)%nat, [0; 3; 4])] |}
           [5] five_zero_run_value).
  - apply lookup_singleton_eq.
  - by left.
  - reflexivity.
Defined.


Lemma zero_preference_takes_every_full_sequence_witness :
  Z.of_nat (length five_zero_sequences) = Z.of_nat (sum_list_with Z.to_nat [5]) `div` 5.
Proof.
  apply (zero_preference_takes_every_full_sequence (RS:=cycle_rng) five_loader 0 5 (Q2Qc 2) 3
           (Q2Qc 0) 20 (λ _, 0%nat) [0%nat] {["c" := five_zero_sequences]} "c").
  - apply Qcle_refl.
  - lia.
  - reflexivity.
  - repeat constructor. lia.
  - exact five_zero_run_value.
  - apply lookup_singleton_eq.
Defined.

Lemma full_preference_takes_center_slices_only_witness :
  (∀ s x, s ∈ center_sequences → x ∈ all_indices (seq_slices s) → x = 2) ∧
  (∀ m : nat, (length (used m center_sequences) ≤ 1)%nat).
Proof.
  apply (full_preference_takes_center_slices_only (RS:=cycle_rng) three_loader 0 1 (Q2Qc 1) 1
           (Q2Qc 1) 30 (λ _, 0%nat) [0%nat] {["c" := center_sequences]} "c" center_sequences
           [3; 3; 3]).
  - apply Qcle_refl.
  - reflexivity.
  - repeat constructor; lia.
  - exact center_run_value.
  - apply lookup_singleton_eq.
Defined.

Lemma quality_peaks_at_slice_two_witness :
  ∃ x : Qc,
    slice_quality 3 = Fin x ∧ (0 < x ≤ 1)%Qc ∧ (x = 1%Qc ↔ 3 = 2) ∧
    (2 ≤ 3 < 64 → slice_quality (3 + 1) = Fin (x / 2)%Qc) ∧
    slice_quality (4 - 3) = slice_quality 3.
Proof. apply (quality_peaks_at_slice_two 3). lia. Defined.

Lemma negative_seq_len_fails_the_assertion_witness :
  Sequencer._generate_sequences (RS:=cycle_rng) five_loader 0 (-1) (Q2Qc 2) 3 (Q2Qc (1 # 2))
    1 0%nat "c" = Raise AssertionError ∧
  ∀ coll, Sequencer.generate_sequences (RS:=cycle_rng) five_loader 0 (-1) (Q2Qc 2) 3
            (Q2Qc (1 # 2)) 1 (λ _, 0%nat) [0%nat] ≠ Ok coll.
Proof.
  apply (negative_seq_len_fails_the_assertion (RS:=cycle_rng) five_loader 0 (-1) (Q2Qc 2) 3
           (Q2Qc (1 # 2)) 0 (λ _, 0%nat) [0%nat] 0%nat "c" [5]); [lia|done|done|done].
Defined.

Lemma zero_seq_len_never_returns_witness :
  Sequencer.generate_sequences (RS:=cycle_rng) five_loader 0 0 (Q2Qc 2) 3 (Q2Qc (1 # 2))
    7 (λ _, 0%nat) [0%nat] = OutOfFuel.
Proof.
  apply (zero_seq_len_never_returns (RS:=cycle_rng) five_loader 0 0 (Q2Qc 2) 3
           (Q2Qc (1 # 2)) 7 (λ _, 0%nat) [0%nat] 0%nat "c" [5]); reflexivity.
Defined.

Lemma zero_max_slices_never_returns_witness :
  Sequencer.generate_sequences (RS:=cycle_rng) five_loader 0 5 (Q2Qc 2) 0 (Q2Qc (1 # 2))
    7 (λ _, 0%nat) [0%nat] = OutOfFuel.
Proof.
  apply (zero_max_slices_never_returns (RS:=cycle_rng) five_loader 0 5 (Q2Qc 2) 0
           (Q2Qc (1 # 2)) 7 (λ _, 0%nat) [0%nat] 0%nat "c" [5]);
    [reflexivity|lia|reflexivity|reflexivity|repeat constructor; lia|simpl; lia].
Defined.

Lemma draws_below_one_never_return_witness :
  Sequencer.generate_sequences (RS:=cycle_rng) five_loader 0 5 (Q2Qc (-5)) 3 (Q2Qc (1 # 2))
    7 (λ _, 0%nat) [0%nat] = OutOfFuel.
Proof.
  apply (draws_below_one_never_return (RS:=cycle_rng) five_loader 0 5 (Q2Qc (-5)) 3
           (Q2Qc (1 # 2)) 7 (λ _, 0%nat) [0%nat] 0%nat "c" [5] cycle_draws_low);
    [lia|lia|reflexivity|reflexivity|repeat constructor; lia|simpl; lia].
Defined.

Lemma negative_max_slices_raises_witness :
  ∃ F : nat, ∀ fuel, (F ≤ fuel)%nat →
    Sequencer._generate_sequences (RS:=cycle_rng) five_loader 0 5 (Q2Qc 2) (-1)
      (Q2Qc (1 # 2)) fuel 0%nat "c" = Raise ValueError ∧
    ∀ coll, Sequencer.generate_sequences (RS:=cycle_rng) five_loader 0 5 (Q2Qc 2) (-1)
              (Q2Qc (1 # 2)) fuel (λ _, 0%nat) [0%nat] ≠ Ok coll.
Proof.
  apply (negative_max_slices_raises (RS:=cycle_rng) five_loader 0 5 (Q2Qc 2) (-1)
           (Q2Qc (1 # 2)) (λ _, 0%nat) [0%nat] 0%nat "c" [5]);
    [lia|lia|done|reflexivity|reflexivity|repeat constructor; lia|simpl; lia].
Defined.




Lemma empty_loader_gives_empty_collection_witness :
  Sequencer.generate_sequences (RS:=cycle_rng) empty_loader 0 (-3) (Q2Qc 2) (-1) (Q2Qc 7)
    5 (λ _, 0%nat) [2; 0]%nat = Ok ∅.
Proof.
  exact (empty_loader_gives_empty_collection (RS:=cycle_rng) empty_loader 0 (-3) (Q2Qc 2)
           (-1) (Q2Qc 7) 5 (λ _, 0%nat) [2; 0]%nat eq_refl).
Defined.
